(** * Exploding Kittens: game engine, determinizer and playouts

    A shallow embedding of [cards.py], [game.py] and the determinizer, the
    playout functions and the search-tree node of [mcts_agent.py], followed
    by the properties of the engine that the specification states.

    Conventions of the embedding:
    - Python [int] is [Z]; Python lists are [list], with the top of the
      deck at the END of the list, as in the source ([deck.pop()] draws);
    - indexing [l[i]] follows Python (negative indices count from the
      end, out of range raises [IndexError]);
    - the mutable [Game] object is passed explicitly; a player object held
      in a local variable is addressed by its position in [players], so
      two names for one object stay one object;
    - exceptions and non-termination are results of the [outcome] type;
    - Python's [random] module (external to the repository) is a stream of
      raw draws; every theorem quantifies over all streams;
    - Python [float] is the binary64 [float] of the standard library with
      its IEEE-754 operations; [math.log] (a function of the C library) is
      a parameter of the definitions that call it. *)

From Stdlib Require Import ZArith Lia String Floats.
From stdpp Require Import base option list.

(** ** Results of a call: a value, a Python exception, or no return *)

Inductive exn : Set :=
  | IndexError | TypeError | ValueError | ZeroDivisionError | AttributeError
  | OverflowError.

Inductive outcome (A : Type) : Type :=
  | Ok (a : A)
  | Raise (e : exn)
  | Diverge.
Arguments Ok {A} a.
Arguments Raise {A} e.
Arguments Diverge {A}.

#[global] Instance outcome_ret : MRet outcome := λ A a, Ok a.
#[global] Instance outcome_bind : MBind outcome :=
  λ A B f m, match m with Ok a => f a | Raise e => Raise e | Diverge => Diverge end.

(** ** Python list primitives *)

Module Py.

(** Position denoted by the Python index [i] in a list of [len] items. *)
Definition norm_index (len : nat) (i : Z) : option nat :=
  if bool_decide (0 ≤ i < Z.of_nat len)%Z then Some (Z.to_nat i)
  else if bool_decide (- Z.of_nat len ≤ i < 0)%Z then Some (Z.to_nat (i + Z.of_nat len))
  else None.

(** Position of [l[i]], or [IndexError]. *)
Definition locate {A} (l : list A) (i : Z) : outcome nat :=
  match norm_index (length l) i with
  | Some n => Ok n
  | None => Raise IndexError
  end.

(** [l[i]] *)
Definition get {A} (l : list A) (i : Z) : outcome A :=
  match norm_index (length l) i with
  | Some n => match l !! n with Some x => Ok x | None => Raise IndexError end
  | None => Raise IndexError
  end.

(** [l.pop()] : the last item and the shortened list. *)
Definition pop {A} (l : list A) : outcome (A * list A) :=
  match last l with
  | Some x => Ok (x, take (length l - 1) l)
  | None => Raise IndexError
  end.

(** [l.pop(i)] *)
Definition pop_at {A} (l : list A) (i : Z) : outcome (A * list A) :=
  match norm_index (length l) i with
  | Some n => match l !! n with Some x => Ok (x, delete n l) | None => Raise IndexError end
  | None => Raise IndexError
  end.

(** [l.insert(i, x)] : the index is clamped, never an error. *)
Definition insert {A} (l : list A) (i : Z) (x : A) : list A :=
  let len := Z.of_nat (length l) in
  let i1 := if bool_decide (i < 0)%Z then (i + len)%Z else i in
  let i2 := if bool_decide (i1 < 0)%Z then 0%Z else i1 in
  let n := Z.to_nat (if bool_decide (len < i2)%Z then len else i2) in
  take n l ++ x :: drop n l.

(** [l[-n:]] and [l[:-n]] for a positive literal [n]. *)
Definition last_n {A} (n : nat) (l : list A) : list A := drop (length l - n) l.
Definition but_last_n {A} (n : nat) (l : list A) : list A := take (length l - n) l.

End Py.

(** ** The random generator *)

Record Rng : Type := mkRng { src : nat → nat; cursor : nat }.

Definition next_raw (r : Rng) : nat * Rng :=
  (src r (cursor r), mkRng (src r) (S (cursor r))).

(** [random._randbelow(n)] for [n > 0]. *)
Definition randbelow (n : nat) (r : Rng) : nat * Rng :=
  let '(x, r') := next_raw r in (x mod n, r').

(** [random.randint(a, b)] : uniform in [a..b], [ValueError] on an empty range. *)
Definition randint (a b : Z) (r : Rng) : outcome (Z * Rng) :=
  if bool_decide (a ≤ b)%Z then
    let '(x, r') := randbelow (Z.to_nat (b - a + 1)) r in Ok ((a + Z.of_nat x)%Z, r')
  else Raise ValueError.

(** [random.choice(seq)] *)
Definition choice {A} (l : list A) (r : Rng) : outcome (A * Rng) :=
  match l with
  | [] => Raise IndexError
  | _ => let '(x, r') := randbelow (length l) r in
         match l !! x with Some a => Ok (a, r') | None => Raise IndexError end
  end.

(** [random.random() < p] : one draw decides the comparison; the threshold
    only fixes how likely each answer is, and all answers are covered by
    quantifying over the stream. *)
Definition random_lt (r : Rng) : bool * Rng :=
  let '(x, r') := next_raw r in (Nat.even x, r').

(** [x[i], x[j] = x[j], x[i]] *)
Definition swap {A} (i j : nat) (x : list A) : list A :=
  match x !! i, x !! j with
  | Some a, Some b => <[j:=a]> (<[i:=b]> x)
  | _, _ => x
  end.

(** [random.shuffle(x)] :
    [for i in reversed(range(1, len(x))): j = randbelow(i + 1); swap]. *)
Fixpoint shuffle_from {A} (i : nat) (x : list A) (r : Rng) : list A * Rng :=
  match i with
  | 0 => (x, r)
  | S i' => let '(j, r') := randbelow (S i) r in shuffle_from i' (swap i j x) r'
  end.

Definition shuffle {A} (x : list A) (r : Rng) : list A * Rng :=
  shuffle_from (length x - 1) x r.

(** ** cards.py *)

Inductive CardType : Set :=
  | EXPLODING_KITTEN | DEFUSE
  | ATTACK | SKIP | FAVOR | SHUFFLE | SEE_THE_FUTURE | NOPE
  | CAT_TACOCAT | CAT_CATTERMELON | CAT_HAIRY_POTATO | CAT_BEARD_CAT | CAT_RAINBOW_CAT.

#[global] Instance CardType_eq_dec : EqDecision CardType.
Proof. solve_decision. Defined.

Definition CAT_CARDS : list CardType :=
  [CAT_TACOCAT; CAT_CATTERMELON; CAT_HAIRY_POTATO; CAT_BEARD_CAT; CAT_RAINBOW_CAT].

Definition BASE_DECK_CONFIG : list (CardType * nat) :=
  [(ATTACK, 4); (SKIP, 4); (FAVOR, 4); (SHUFFLE, 4); (SEE_THE_FUTURE, 5); (NOPE, 5);
   (CAT_TACOCAT, 4); (CAT_CATTERMELON, 4); (CAT_HAIRY_POTATO, 4); (CAT_BEARD_CAT, 4);
   (CAT_RAINBOW_CAT, 4)].

Definition DEFUSE_IN_DECK : nat := 2.

Record Card : Set := mkCard { card_type : CardType }.

#[global] Instance Card_eq_dec : EqDecision Card.
Proof. solve_decision. Defined.

Definition is_type (ct : CardType) (c : Card) : bool := bool_decide (card_type c = ct).

(** ** game.py : players *)

Record Player : Set := mkPlayer { id : Z; hand : list Card; alive : bool }.

Definition set_hand (h : list Card) (p : Player) : Player := mkPlayer (id p) h (alive p).
Definition set_alive (b : bool) (p : Player) : Player := mkPlayer (id p) (hand p) b.

Definition has_card (p : Player) (ct : CardType) : bool := existsb (is_type ct) (hand p).

Definition count_card (p : Player) (ct : CardType) : nat := length (filter (λ c, card_type c = ct) (hand p)).

(** The first card of the given type, and the hand without it. *)
Fixpoint take_first (ct : CardType) (h : list Card) : option (Card * list Card) :=
  match h with
  | [] => None
  | c :: h' =>
      if is_type ct c then Some (c, h')
      else match take_first ct h' with
           | Some (d, h'') => Some (d, c :: h'')
           | None => None
           end
  end.

(** [Player.remove_card] : the removed card ([None] when absent) and the player after. *)
Definition remove_card (p : Player) (ct : CardType) : option Card * Player :=
  match take_first ct (hand p) with
  | Some (c, h) => (Some c, set_hand h p)
  | None => (None, p)
  end.

(** Keys of a [Counter] in order of first insertion. *)
Definition counter_keys (l : list CardType) : list CardType :=
  foldl (λ ks x, if bool_decide (x ∈ ks) then ks else ks ++ [x]) [] l.

Definition get_matching_cat_pairs (p : Player) : list CardType :=
  let cats := filter (λ ct, ct ∈ CAT_CARDS) (card_type <$> hand p) in
  filter (λ ct, 2 ≤ length (filter (λ x, x = ct) cats)) (counter_keys cats).

(** ** game.py : state and actions *)

Record GameState : Set := mkGameState {
  players : list Player;
  deck : list Card;
  discard : list (option Card);
  current_player_idx : Z;
  turns_remaining : Z;
  game_over : bool;
  winner : option Z;
  top_three_known_by : option Z
}.

(** [discard] is annotated [List[Card]], but [execute_action] appends the
    result of [remove_card], which is [None] when the card is absent:
    hence [option Card]. *)

Definition with_players (ps : list Player) (s : GameState) : GameState :=
  mkGameState ps (deck s) (discard s) (current_player_idx s) (turns_remaining s)
    (game_over s) (winner s) (top_three_known_by s).
Definition with_deck (d : list Card) (s : GameState) : GameState :=
  mkGameState (players s) d (discard s) (current_player_idx s) (turns_remaining s)
    (game_over s) (winner s) (top_three_known_by s).
Definition with_discard (d : list (option Card)) (s : GameState) : GameState :=
  mkGameState (players s) (deck s) d (current_player_idx s) (turns_remaining s)
    (game_over s) (winner s) (top_three_known_by s).
Definition with_current (i : Z) (s : GameState) : GameState :=
  mkGameState (players s) (deck s) (discard s) i (turns_remaining s)
    (game_over s) (winner s) (top_three_known_by s).
Definition with_turns (t : Z) (s : GameState) : GameState :=
  mkGameState (players s) (deck s) (discard s) (current_player_idx s) t
    (game_over s) (winner s) (top_three_known_by s).
Definition with_over (b : bool) (w : option Z) (s : GameState) : GameState :=
  mkGameState (players s) (deck s) (discard s) (current_player_idx s) (turns_remaining s)
    b w (top_three_known_by s).
Definition with_known (k : option Z) (s : GameState) : GameState :=
  mkGameState (players s) (deck s) (discard s) (current_player_idx s) (turns_remaining s)
    (game_over s) (winner s) k.

Definition current_player (s : GameState) : outcome Player :=
  Py.get (players s) (current_player_idx s).

Definition alive_players (s : GameState) : list Player :=
  filter (λ p, alive p = true) (players s).

(** [deck[-n:] if len(deck) >= n else deck[:]], for [n >= 1]. *)
Definition peek_top (s : GameState) (n : nat) : list Card :=
  if bool_decide (n ≤ length (deck s)) then Py.last_n n (deck s) else deck s.

Definition insert_card (s : GameState) (card : Card) (position : Z) : GameState :=
  with_deck (Py.insert (deck s) position card) s.

Definition shuffle_deck (s : GameState) (r : Rng) : GameState * Rng :=
  let '(d, r') := shuffle (deck s) r in
  (with_known None (with_deck d s), r').

Inductive Action : Set :=
  | PlayCard (card_type : CardType) (target_player_id : option Z)
             (steal_card_type : option CardType)
  | PlayCatPair (cat_type : CardType) (target_player_id : Z)
  | PlayNope
  | Pass
  | InsertExplodingKitten (position : Z).

#[global] Instance Action_eq_dec : EqDecision Action.
Proof. solve_decision. Defined.

Record Game : Set := mkGame {
  num_players : Z;
  state : GameState;
  action_history : list (Z * Action)
}.

Definition with_state (s : GameState) (g : Game) : Game :=
  mkGame (num_players g) s (action_history g).

(** The [result] dictionaries: keys in insertion order. *)
Inductive rval : Set :=
  | VNone
  | VBool (b : bool)
  | VInt (z : Z)
  | VStr (s : string)
  | VType (ct : CardType)
  | VTypes (l : list CardType)
  | VAction (a : Action).

Definition dict : Set := list (string * rval).

Fixpoint dict_set (k : string) (v : rval) (d : dict) : dict :=
  match d with
  | [] => [(k, v)]
  | (k', v') :: d' => if String.eqb k k' then (k, v) :: d' else (k', v') :: dict_set k v d'
  end.

Definition dict_update (d d' : dict) : dict :=
  foldl (λ acc kv, dict_set (fst kv) (snd kv) acc) d d'.

(** ** game.py : the engine *)

Local Open Scope string_scope.
Local Open Scope list_scope.
Local Open Scope stdpp_scope.

(** The loop [while not players[next_idx].alive: next_idx = (next_idx + 1) % n]
    of [_do_attack] and [_advance_player].  The indices it visits repeat with
    period [|n|], so once [|n| + 1] tests in a row have met no alive player
    the loop has seen every index it will ever see and does not return:
    the exhausted search is [Diverge] (see [find_alive_diverges]). *)
Fixpoint find_alive (fuel : nat) (ps : list Player) (n : Z) (next_idx : Z) : outcome Z :=
  p ← Py.get ps next_idx;
  if alive p then Ok next_idx
  else match fuel with
       | 0 => Diverge
       | S fuel' => find_alive fuel' ps n ((next_idx + 1) mod n)%Z
       end.

(** [next_idx = (current_player_idx + 1) % num_players], then the loop. *)
Definition next_alive_index (g : Game) : outcome Z :=
  if bool_decide (num_players g = 0%Z) then Raise ZeroDivisionError
  else find_alive (Z.abs_nat (num_players g)) (players (state g)) (num_players g)
         ((current_player_idx (state g) + 1) mod num_players g)%Z.

Definition _do_attack (g : Game) : outcome Game :=
  next_idx ← next_alive_index g;
  Ok (with_state (with_turns 2 (with_current next_idx (state g))) g).

Definition _advance_player (g : Game) : outcome Game :=
  next_idx ← next_alive_index g;
  Ok (with_state (with_current next_idx (state g)) g).

Definition _do_skip (g : Game) : outcome Game :=
  let g1 := with_state (with_turns (turns_remaining (state g) - 1) (state g)) g in
  if bool_decide (turns_remaining (state g1) ≤ 0)%Z then
    g2 ← _advance_player g1;
    Ok (with_state (with_turns 1 (state g2)) g2)
  else Ok g1.

Definition _end_turn (g : Game) : outcome Game :=
  let g1 := with_state (with_turns (turns_remaining (state g) - 1) (state g)) g in
  if bool_decide (turns_remaining (state g1) ≤ 0)%Z then
    g2 ← _advance_player g1;
    Ok (with_state (with_turns 1 (state g2)) g2)
  else Ok g1.

Definition _check_game_over (g : Game) : Game :=
  match alive_players (state g) with
  | [p] => with_state (with_over true (Some (id p)) (state g)) g
  | _ => g
  end.

Definition is_over (g : Game) : bool := game_over (state g).
Definition get_winner (g : Game) : option Z := winner (state g).

(** Opponents a Favor or a cat pair may target. *)
Definition eligible_targets (s : GameState) (player_id : Z) : list Player :=
  filter (λ other, id other ≠ player_id ∧ alive other = true ∧ hand other ≠ []) (players s).

Definition get_legal_actions (g : Game) (player_id : option Z) : outcome (list Action) :=
  let s := state g in
  let pid := default (current_player_idx s) player_id in
  player ← Py.get (players s) pid;
  Ok ([Pass]
      ++ ((λ ct, PlayCard ct None None) <$>
            filter (λ ct, has_card player ct = true) [ATTACK; SKIP; SHUFFLE; SEE_THE_FUTURE])
      ++ (if has_card player FAVOR
          then (λ other, PlayCard FAVOR (Some (id other)) None) <$> eligible_targets s pid
          else [])
      ++ (cat_type ← get_matching_cat_pairs player;
          (λ other, PlayCatPair cat_type (id other)) <$> eligible_targets s pid)).

Definition get_insert_positions (g : Game) : list Z :=
  Z.of_nat <$> seq 0 (length (deck (state g)) + 1).

Definition _do_draw (g : Game) (r : Rng) : outcome (Game * dict * Rng) :=
  let s := state g in
  me ← Py.locate (players s) (current_player_idx s);
  player ← current_player s;
  match deck s with
  | [] =>
      g' ← _end_turn g;
      Ok (g', [("draw", VNone)], r)
  | _ =>
      '(card, deck') ← Py.pop (deck s);
      let s1 := with_deck deck' s in
      let result := [("draw", VType (card_type card))] in
      if is_type EXPLODING_KITTEN card then
        let result := result ++ [("exploded", VBool true)] in
        if has_card player DEFUSE then
          let '(defuse, player') := remove_card player DEFUSE in
          let s2 := with_discard (discard s1 ++ [defuse])
                      (with_players (<[me:=player']> (players s1)) s1) in
          '(pos, r') ← randint 0 (Z.of_nat (length (deck s2))) r;
          let s3 := insert_card s2 card pos in
          g' ← _end_turn (with_state s3 g);
          Ok (g', result ++ [("defused", VBool true); ("insert_position", VInt pos)], r')
        else
          let s2 := with_discard (discard s1 ++ [Some card])
                      (with_players (<[me:=set_alive false player]> (players s1)) s1) in
          g' ← _end_turn (with_state s2 g);
          Ok (g', result ++ [("defused", VBool false)], r)
      else
        let s2 := with_players
                    (<[me:=set_hand (hand player ++ [card]) player]> (players s1)) s1 in
        g' ← _end_turn (with_state s2 g);
        Ok (g', result ++ [("exploded", VBool false)], r)
  end.

(** [target = players[target_player_id]; if target.hand: pop a random card
    of the target and append it to the hand of the player at [me]]: the
    block shared by the Favor and the cat-pair branches. *)
Definition steal_from (s : GameState) (me : nat) (target_player_id : Z) (r : Rng)
  : outcome (GameState * option Card * Rng) :=
  t ← Py.locate (players s) target_player_id;
  target ← Py.get (players s) target_player_id;
  match hand target with
  | [] => Ok (s, None, r)
  | _ =>
      '(k, r') ← randint 0 (Z.of_nat (length (hand target)) - 1) r;
      '(stolen, h) ← Py.pop_at (hand target) k;
      let ps1 := <[t:=set_hand h target]> (players s) in
      let ps2 := alter (λ p, set_hand (hand p ++ [stolen]) p) me ps1 in
      Ok (with_players ps2 s, Some stolen, r')
  end.

Definition execute_action (g : Game) (action : Action) (r : Rng)
  : outcome (Game * dict * Rng) :=
  let s := state g in
  me ← Py.locate (players s) (current_player_idx s);
  player ← current_player s;
  let result := [("action", VAction action); ("player", VInt (id player))] in
  '(g1, result1, r1) ←
    match action with
    | Pass =>
        '(g', d, r') ← _do_draw g r;
        Ok (g', dict_update (dict_set "type" (VStr "pass") result) d, r')
    | PlayCard ct target _ =>
        let '(card, player') := remove_card player ct in
        let s1 := with_discard (discard s ++ [card])
                    (with_players (<[me:=player']> (players s)) s) in
        let result := result ++ [("type", VStr "play_card"); ("card", VType ct)] in
        match ct with
        | ATTACK =>
            g' ← _do_attack (with_state s1 g);
            Ok (g', result ++ [("effect", VStr "attack")], r)
        | SKIP =>
            g' ← _do_skip (with_state s1 g);
            Ok (g', result ++ [("effect", VStr "skip")], r)
        | SHUFFLE =>
            let '(s2, r') := shuffle_deck s1 r in
            Ok (with_state s2 g, result ++ [("effect", VStr "shuffle")], r')
        | SEE_THE_FUTURE =>
            let top_cards := peek_top s1 3 in
            let s2 := with_known (Some (id player)) s1 in
            Ok (with_state s2 g,
                result ++ [("effect", VStr "see_future");
                           ("seen_cards", VTypes (card_type <$> top_cards))], r)
        | FAVOR =>
            match target with
            | None => Raise TypeError
            | Some tid =>
                '(s2, stolen, r') ← steal_from s1 me tid r;
                match stolen with
                | Some c =>
                    Ok (with_state s2 g,
                        result ++ [("effect", VStr "favor"); ("stolen", VType (card_type c))], r')
                | None => Ok (with_state s2 g, result, r')
                end
            end
        | _ => Ok (with_state s1 g, result, r)
        end
    | PlayCatPair cat_type tid =>
        let '(_, p1) := remove_card player cat_type in
        let '(_, p2) := remove_card p1 cat_type in
        let s1 := with_discard
                    (discard s ++ [Some (mkCard cat_type); Some (mkCard cat_type)])
                    (with_players (<[me:=p2]> (players s)) s) in
        '(s2, stolen, r') ← steal_from s1 me tid r;
        match stolen with
        | Some c =>
            Ok (with_state s2 g,
                result ++ [("type", VStr "cat_pair"); ("stolen", VType (card_type c))], r')
        | None => Ok (with_state s2 g, result, r')
        end
    | InsertExplodingKitten position =>
        let ek := mkCard EXPLODING_KITTEN in
        Ok (with_state (insert_card s ek position) g,
            result ++ [("type", VStr "insert_ek"); ("position", VInt position)], r)
    | PlayNope => Ok (g, result, r)
    end;
  let g2 := mkGame (num_players g1) (state g1) (action_history g1 ++ [(id player, action)]) in
  Ok (_check_game_over g2, result1, r1).

(** [Game._setup_game] and [Game.__init__]; seeding the generator is the
    choice of the stream. *)
Definition base_deck : list Card :=
  kv ← BASE_DECK_CONFIG; replicate (snd kv) (mkCard (fst kv)).

Fixpoint deal_hand (k : nat) (h dk : list Card) : outcome (list Card * list Card) :=
  match k with
  | 0 => Ok (h, dk)
  | S k' => '(c, dk') ← Py.pop dk; deal_hand k' (h ++ [c]) dk'
  end.

Fixpoint deal (ps : list Player) (dk : list Card) : outcome (list Player * list Card) :=
  match ps with
  | [] => Ok ([], dk)
  | p :: ps' =>
      '(h, dk1) ← deal_hand 4 (hand p) dk;
      '(ps'', dk2) ← deal ps' dk1;
      Ok (set_hand (h ++ [mkCard DEFUSE]) p :: ps'', dk2)
  end.

Definition _setup_game (num_players : Z) (r : Rng) : outcome (GameState * Rng) :=
  let players := (λ i, mkPlayer (Z.of_nat i) [] true) <$> seq 0 (Z.to_nat num_players) in
  let '(deck1, r1) := shuffle base_deck r in
  '(players', deck2) ← deal players deck1;
  let deck3 := deck2 ++ replicate DEFUSE_IN_DECK (mkCard DEFUSE) in
  let '(deck4, r2) := shuffle deck3 r1 in
  let deck5 := deck4 ++ replicate (Z.to_nat (num_players - 1)) (mkCard EXPLODING_KITTEN) in
  let '(deck6, r3) := shuffle deck5 r2 in
  Ok (mkGameState players' deck6 [] 0 1 false None None, r3).

Definition __init__ (num_players : Z) (r : Rng) : outcome (Game * Rng) :=
  '(s, r') ← _setup_game num_players r;
  Ok (mkGame num_players s [], r').

(** ** mcts_agent.py : clone, determinizer, playouts *)

(** [Card(c.card_type)]; on a [None] left in the discard pile the attribute
    access raises. *)
Definition clone_card (c : Card) : Card := mkCard (card_type c).

Fixpoint clone_discard (d : list (option Card)) : outcome (list (option Card)) :=
  match d with
  | [] => Ok []
  | Some c :: d' => d'' ← clone_discard d'; Ok (Some (clone_card c) :: d'')
  | None :: _ => Raise AttributeError
  end.

Definition clone_game (game : Game) : outcome Game :=
  let s := state game in
  let ps := (λ p, mkPlayer (id p) (clone_card <$> hand p) (alive p)) <$> players s in
  let dk := clone_card <$> deck s in
  d ← clone_discard (discard s);
  Ok (mkGame (num_players game)
        (mkGameState ps dk d (current_player_idx s) (turns_remaining s)
           (game_over s) (winner s) (top_three_known_by s))
        (action_history game)).

(** [player.id != observer_id and player.alive] *)
Definition is_opponent (observer_id : Z) (p : Player) : bool :=
  bool_decide (id p ≠ observer_id) && alive p.

(** First loop of [determinize_game]: opponents' hands go to the pool. *)
Fixpoint collect_hands (observer_id : Z) (ps : list Player) (pool : list Card)
  : list Player * list Card :=
  match ps with
  | [] => ([], pool)
  | p :: ps' =>
      if is_opponent observer_id p then
        let '(ps'', pool') := collect_hands observer_id ps' (pool ++ hand p) in
        (set_hand [] p :: ps'', pool')
      else
        let '(ps'', pool') := collect_hands observer_id ps' pool in
        (p :: ps'', pool')
  end.

(** [for _ in range(k): if pool: h.append(pool.pop())] *)
Fixpoint deal_back (k : nat) (h pool : list Card) : list Card * list Card :=
  match k with
  | 0 => (h, pool)
  | S k' =>
      match Py.pop pool with
      | Ok (c, pool') => deal_back k' (h ++ [c]) pool'
      | _ => deal_back k' h pool
      end
  end.

(** Second loop: each opponent receives as many cards as
    [game.state.players[player.id]] holds. *)
Fixpoint redistribute (orig : list Player) (observer_id : Z) (ps : list Player)
    (pool : list Card) : outcome (list Player * list Card) :=
  match ps with
  | [] => Ok ([], pool)
  | p :: ps' =>
      if is_opponent observer_id p then
        o ← Py.get orig (id p);
        let '(h, pool') := deal_back (length (hand o)) (hand p) pool in
        '(ps'', pool'') ← redistribute orig observer_id ps' pool';
        Ok (set_hand h p :: ps'', pool'')
      else
        '(ps'', pool') ← redistribute orig observer_id ps' pool;
        Ok (p :: ps'', pool')
  end.

Definition determinize_game (game : Game) (observer_id : Z) (r : Rng)
  : outcome (Game * Rng) :=
  det_game ← clone_game game;
  let s := state det_game in
  let '(ps1, unknown_cards) := collect_hands observer_id (players s) [] in
  let observer_knows_top := bool_decide (top_three_known_by s = Some observer_id) in
  let keep := observer_knows_top && bool_decide (3 ≤ length (deck s)) in
  let top_three := Py.last_n 3 (deck s) in
  let unknown_cards :=
    if keep then unknown_cards ++ Py.but_last_n 3 (deck s) else unknown_cards ++ deck s in
  let '(unknown_cards, r') := shuffle unknown_cards r in
  '(ps2, unknown_cards) ← redistribute (players (state game)) observer_id ps1 unknown_cards;
  let dk :=
    if observer_knows_top && bool_decide (3 ≤ length (deck (state game)))
    then unknown_cards ++ top_three else unknown_cards in
  Ok (with_state (with_deck dk (with_players ps2 s)) det_game, r').

(** The playout loops.  [fuel] bounds the iterations that are unrolled; with
    too little of it the result is [Diverge]; [Z.to_nat max_moves] is always
    enough, as the loop specifications below show. *)
Fixpoint random_playout_loop (fuel : nat) (game : Game) (moves max_moves : Z) (r : Rng)
  : outcome (Game * Z * Rng) :=
  if negb (is_over game) && bool_decide (moves < max_moves)%Z then
    legal_actions ← get_legal_actions game None;
    match legal_actions with
    | [] => Ok (game, moves, r)
    | _ =>
        match fuel with
        | 0 => Diverge
        | S fuel' =>
            '(action, r1) ← choice legal_actions r;
            '(game', _, r2) ← execute_action game action r1;
            random_playout_loop fuel' game' (moves + 1)%Z max_moves r2
        end
    end
  else Ok (game, moves, r).

(** Returns the winner, with the game as the playout left it and the value
    of the local counter [moves]. *)
Definition simulate_random_playout (fuel : nat) (game : Game) (max_moves : Z) (r : Rng)
  : outcome (option Z * Game * Z * Rng) :=
  '(game', moves, r') ← random_playout_loop fuel game 0 max_moves r;
  Ok (get_winner game', game', moves, r').

Definition is_play_of (cts : list CardType) (a : Action) : bool :=
  match a with
  | PlayCard ct _ _ => bool_decide (ct ∈ cts)
  | _ => false
  end.

Definition is_cat_pair (a : Action) : bool :=
  match a with
  | PlayCatPair _ _ => true
  | _ => false
  end.

(** [for action in l: if P(action): if random.random() < p: return action] *)
Fixpoint first_by_chance (P : Action → bool) (l : list Action) (r : Rng)
  : option Action * Rng :=
  match l with
  | [] => (None, r)
  | a :: l' =>
      if P a then
        let '(b, r') := random_lt r in
        if b then (Some a, r') else first_by_chance P l' r'
      else first_by_chance P l' r
  end.

Definition select_heuristic_action (game : Game) (legal_actions : list Action) (r : Rng)
  : outcome (Action * Rng) :=
  let s := state game in
  player ← current_player s;
  let deck_size := length (deck s) in
  let has_defuse := has_card player DEFUSE in
  let escape :=
    if bool_decide (deck_size ≤ 3) && negb has_defuse
    then find (is_play_of [SKIP; ATTACK]) legal_actions else None in
  match escape with
  | Some a => Ok (a, r)
  | None =>
      let knows := bool_decide (top_three_known_by s = Some (id player)) in
      let dodge :=
        if knows && existsb (is_type EXPLODING_KITTEN) (take 1 (peek_top s 3))
        then find (is_play_of [SHUFFLE; SKIP; ATTACK]) legal_actions else None in
      match dodge with
      | Some a => Ok (a, r)
      | None =>
          let '(look, r1) :=
            if negb knows then first_by_chance (is_play_of [SEE_THE_FUTURE]) legal_actions r
            else (None, r) in
          match look with
          | Some a => Ok (a, r1)
          | None =>
              let '(attack, r2) := first_by_chance (is_play_of [ATTACK]) legal_actions r1 in
              match attack with
              | Some a => Ok (a, r2)
              | None =>
                  let '(steal, r3) := first_by_chance is_cat_pair legal_actions r2 in
                  match steal with
                  | Some a => Ok (a, r3)
                  | None => choice legal_actions r3
                  end
              end
          end
      end
  end.

Fixpoint heuristic_playout_loop (fuel : nat) (game : Game) (moves max_moves : Z) (r : Rng)
  : outcome (Game * Z * Rng) :=
  if negb (is_over game) && bool_decide (moves < max_moves)%Z then
    legal_actions ← get_legal_actions game None;
    match legal_actions with
    | [] => Ok (game, moves, r)
    | _ =>
        match fuel with
        | 0 => Diverge
        | S fuel' =>
            '(action, r1) ← select_heuristic_action game legal_actions r;
            '(game', _, r2) ← execute_action game action r1;
            heuristic_playout_loop fuel' game' (moves + 1)%Z max_moves r2
        end
    end
  else Ok (game, moves, r).

Definition simulate_with_heuristics (fuel : nat) (game : Game) (player_id : Z)
    (max_moves : Z) (r : Rng) : outcome (option Z * Game * Z * Rng) :=
  '(game', moves, r') ← heuristic_playout_loop fuel game 0 max_moves r;
  Ok (get_winner game', game', moves, r').

(** ** Measures and well-formedness *)

Definition hand_total (ps : list Player) : nat :=
  sum_list_with (λ p, length (hand p)) ps.

(** [len(deck) + sum(len(hand) for all players) + len(discard)] *)
Definition total_cards (g : Game) : nat :=
  length (deck (state g)) + hand_total (players (state g)) + length (discard (state g)).

Definition count_type (ct : CardType) (l : list Card) : nat :=
  length (filter (λ c, card_type c = ct) l).

(** Exploding kittens in the deck and in the hands of alive players. *)
Definition kittens_in_circulation (g : Game) : nat :=
  count_type EXPLODING_KITTEN (deck (state g))
  + sum_list_with (λ p, count_type EXPLODING_KITTEN (hand p)) (alive_players (state g)).

(** A card of the base deck: neither a kitten nor a defuse. *)
Definition ordinary (c : Card) : Prop :=
  card_type c ≠ EXPLODING_KITTEN ∧ card_type c ≠ DEFUSE.

(** Player [i] of the list has id [i], as [_setup_game] numbers them. *)
Definition ids_ok (ps : list Player) : Prop :=
  id <$> ps = Z.of_nat <$> seq 0 (length ps).

(** The shape every [Game] built by [__init__] and moved by [execute_action]
    has: [num_players] players numbered in order, the turn at one of them. *)
Definition wf_game (g : Game) : Prop :=
  num_players g = Z.of_nat (length (players (state g)))
  ∧ (0 ≤ current_player_idx (state g) < num_players g)%Z
  ∧ ids_ok (players (state g)).

(** Some player other than the one to move is alive. *)
Definition other_alive (g : Game) : Prop :=
  Exists (λ p, alive p = true ∧ id p ≠ current_player_idx (state g)) (players (state g)).

(** The discard pile holds cards only, as its annotation says. *)
Definition discard_typed (g : Game) : Prop :=
  Forall (λ c : option Card, is_Some c) (discard (state g)).

(** [nxt] is the first alive player met from [cur + 1] on, cyclically. *)
Definition next_alive_after (ps : list Player) (cur nxt : Z) : Prop :=
  let n := Z.of_nat (length ps) in
  ∃ k : Z, (1 ≤ k ≤ n)%Z ∧ nxt = ((cur + k) mod n)%Z
    ∧ (∃ p, ps !! Z.to_nat nxt = Some p ∧ alive p = true)
    ∧ ∀ j : Z, (1 ≤ j < k)%Z →
        ∃ q, ps !! Z.to_nat ((cur + j) mod n) = Some q ∧ alive q = false.

(** States reached from [g0] by legal actions. *)
Inductive reachable (g0 : Game) : Game → Prop :=
  | reachable_start : reachable g0 g0
  | reachable_step g acts a r g' res r' :
      reachable g0 g →
      get_legal_actions g None = Ok acts →
      a ∈ acts →
      execute_action g a r = Ok (g', res, r') →
      reachable g0 g'.

(** A state a playout may start from: well formed, and while the game is
    not over at least two players are alive and no winner is recorded. *)
Definition playable (g : Game) : Prop :=
  wf_game g
  ∧ (game_over (state g) = false →
       2 ≤ length (alive_players (state g)) ∧ winner (state g) = None).

(** What dealing does to one player: four ordinary cards, then a defuse. *)
Definition dealt (p p' : Player) : Prop :=
  id p' = id p ∧ alive p' = alive p
  ∧ ∃ h, hand p' = hand p ++ h ++ [mkCard DEFUSE] ∧ length h = 4 ∧ Forall ordinary h.

(** ** The anatomy of [execute_action]

    Every legal action first changes the board (hands, deck, discard,
    known-top fact), then hands the turn on through one of the turn
    routines, and last records the action and checks for a winner. *)

Inductive turn_control : Set := CEnd | CAttack | CSkip | CStay.

Definition run_control (c : turn_control) (g : Game) : outcome Game :=
  match c with
  | CEnd => _end_turn g
  | CAttack => _do_attack g
  | CSkip => _do_skip g
  | CStay => Ok g
  end.

(** [self.action_history.append((player.id, action)); self._check_game_over()] *)
Definition finish (pid : Z) (a : Action) (g : Game) : Game :=
  _check_game_over
    (mkGame (num_players g) (state g) (action_history g ++ [(pid, a)])).

(** Two games that differ at most in whose turn it is and how many turns
    remain. *)
Definition same_board (g g' : Game) : Prop :=
  num_players g' = num_players g
  ∧ action_history g' = action_history g
  ∧ players (state g') = players (state g)
  ∧ deck (state g') = deck (state g)
  ∧ discard (state g') = discard (state g)
  ∧ game_over (state g') = game_over (state g)
  ∧ winner (state g') = winner (state g)
  ∧ top_three_known_by (state g') = top_three_known_by (state g).

(** The board change of a legal action by the player at position [me]:
    no card appears or vanishes, nobody is renumbered, at most the player
    at [me] dies, and the turn data are untouched. *)
Definition board_step (g : Game) (me : nat) (s1 : GameState) : Prop :=
  length (deck s1) + hand_total (players s1) + length (discard s1) = total_cards g
  ∧ id <$> players s1 = id <$> players (state g)
  ∧ (alive <$> players s1 = alive <$> players (state g)
     ∨ alive <$> players s1 = <[me:=false]> (alive <$> players (state g)))
  ∧ current_player_idx s1 = current_player_idx (state g)
  ∧ turns_remaining s1 = turns_remaining (state g)
  ∧ game_over s1 = game_over (state g)
  ∧ winner s1 = winner (state g).

(** ** Example games *)

(** Generators whose every raw draw is 0, respectively 2 and 3. *)
Definition rng_zero : Rng := mkRng (λ _, 0) 0.
Definition rng_two : Rng := mkRng (λ _, 2) 0.
Definition rng_three : Rng := mkRng (λ _, 3) 0.

(** Two players, player 0 to move, an exploding kitten on top of the deck. *)
Definition example_state : GameState :=
  mkGameState
    [mkPlayer 0 [mkCard ATTACK; mkCard DEFUSE] true;
     mkPlayer 1 [mkCard ATTACK; mkCard SKIP] true]
    [mkCard NOPE; mkCard SHUFFLE; mkCard CAT_TACOCAT; mkCard EXPLODING_KITTEN]
    [] 0 1 false None None.

Definition example_game : Game := mkGame 2 example_state [].

(** The same game with player 1 to move: no defuse against the kitten. *)
Definition example_game_p1 : Game := mkGame 2 (with_current 1 example_state) [].

(** The same game after player 0 has looked at the top three cards. *)
Definition known_top_game : Game := mkGame 2 (with_known (Some 0%Z) example_state) [].

(** The same deck with no card in it. *)
Definition empty_deck_game : Game := mkGame 2 (with_deck [] example_state) [].

(** A state as [determinize_game] can deal it: player 0 holds a kitten. *)
Definition kitten_in_hand_game : Game :=
  mkGame 2
    (mkGameState
       [mkPlayer 0 [mkCard EXPLODING_KITTEN; mkCard SKIP] true;
        mkPlayer 1 [mkCard DEFUSE] true]
       [mkCard NOPE; mkCard EXPLODING_KITTEN]
       [] 0 1 false None None)
    [].

(** The two-player game that [__init__] deals from [rng_zero]. *)
Definition example_start : Game :=
  Eval vm_compute in
    match __init__ 2 rng_zero with
    | Ok (g, _) => g
    | _ => example_game
    end.

(** [example_start] after its first player has passed and drawn. *)
Definition example_after_pass : Game :=
  Eval vm_compute in
    match execute_action example_start Pass (mkRng (λ _, 0) 124) with
    | Ok (g, _, _) => g
    | _ => example_start
    end.

(** ** The determinizer, player by player *)

(** After the first loop: opponents have empty hands, the others are
    untouched. *)
Definition collected (observer_id : Z) (o p : Player) : Prop :=
  id p = id o ∧ alive p = alive o
  ∧ hand p = if is_opponent observer_id o then [] else hand o.

(** After the second loop: opponents hold as many cards as before, the
    others hold the very same cards. *)
Definition redistributed (observer_id : Z) (o p : Player) : Prop :=
  id p = id o ∧ alive p = alive o
  ∧ if is_opponent observer_id o then length (hand p) = length (hand o)
    else hand p = hand o.

(** Cards held by the opponents of the observer. *)
Definition opponent_cards (observer_id : Z) (ps : list Player) : nat :=
  sum_list_with (λ o, if is_opponent observer_id o then length (hand o) else 0) ps.

(** ** cards.py and game.py : the remaining helpers *)

Definition ACTION_CARDS : list CardType :=
  [ATTACK; SKIP; FAVOR; SHUFFLE; SEE_THE_FUTURE; NOPE].

Definition is_cat (c : Card) : bool := bool_decide (card_type c ∈ CAT_CARDS).
Definition is_action (c : Card) : bool := bool_decide (card_type c ∈ ACTION_CARDS).

(** [GameState.other_player] : [players[1 - current_player_idx]]. *)
Definition other_player (s : GameState) : outcome Player :=
  Py.get (players s) (1 - current_player_idx s)%Z.

(** [GameState.draw_card] : [deck.pop()], the card and the state after. *)
Definition draw_card (s : GameState) : outcome (Card * GameState) :=
  '(card, deck') ← Py.pop (deck s);
  Ok (card, with_deck deck' s).

(** ** agents.py *)

(** The concrete agent classes; an agent object is its class and the
    [player_id] it was built with. *)
Inductive AgentClass : Set :=
  | RandomAgent | PassiveAgent | AggressiveAgent | DefensiveAgent.

Record Agent : Set := mkAgent { agent_class : AgentClass; player_id : Z }.

Definition is_pass (a : Action) : bool :=
  match a with
  | Pass => true
  | _ => false
  end.

(** [for action in legal_actions: if <test>: return action], tried in
    order; the first loop that returns decides. *)
Fixpoint first_found (tests : list (Action → bool)) (legal_actions : list Action)
  : option Action :=
  match tests with
  | [] => None
  | t :: tests' =>
      match find t legal_actions with
      | Some a => Some a
      | None => first_found tests' legal_actions
      end
  end.

Definition RandomAgent_choose_action (legal_actions : list Action) (r : Rng)
  : outcome (Action * Rng) :=
  choice legal_actions r.

Definition PassiveAgent_choose_action (legal_actions : list Action) (r : Rng)
  : outcome (Action * Rng) :=
  match find is_pass legal_actions with
  | Some a => Ok (a, r)
  | None => choice legal_actions r
  end.

Definition AggressiveAgent_choose_action (game : Game) (legal_actions : list Action)
    (r : Rng) : outcome (Action * Rng) :=
  let burn :=
    if bool_decide (1 < turns_remaining (state game))%Z
    then [is_play_of [SKIP]] else [] in
  match first_found
          ([is_play_of [ATTACK]; is_cat_pair; is_play_of [FAVOR]] ++ burn ++ [is_pass])
          legal_actions with
  | Some a => Ok (a, r)
  | None => choice legal_actions r
  end.

Definition DefensiveAgent_choose_action (self : Agent) (game : Game)
    (legal_actions : list Action) (r : Rng) : outcome (Action * Rng) :=
  let s := state game in
  player ← Py.get (players s) (player_id self);
  let deck_size := length (deck s) in
  let has_defuse := has_card player DEFUSE in
  let danger := bool_decide (deck_size ≤ 5) && negb has_defuse in
  let knows := bool_decide (top_three_known_by s = Some (player_id self)) in
  let escape := if danger then [is_play_of [SKIP]; is_play_of [ATTACK]] else [] in
  let look := if negb knows then [is_play_of [SEE_THE_FUTURE]] else [] in
  let dodge :=
    if knows && existsb (is_type EXPLODING_KITTEN) (peek_top s 3)
    then [is_play_of [SHUFFLE]; is_play_of [SKIP]] else [] in
  match first_found (escape ++ look ++ dodge ++ [is_pass]) legal_actions with
  | Some a => Ok (a, r)
  | None => choice legal_actions r
  end.

(** [agent.choose_action(game, legal_actions)] by class. *)
Definition choose_action (self : Agent) (game : Game) (legal_actions : list Action)
    (r : Rng) : outcome (Action * Rng) :=
  match agent_class self with
  | RandomAgent => RandomAgent_choose_action legal_actions r
  | PassiveAgent => PassiveAgent_choose_action legal_actions r
  | AggressiveAgent => AggressiveAgent_choose_action game legal_actions r
  | DefensiveAgent => DefensiveAgent_choose_action self game legal_actions r
  end.

(** [agent.choose_insert_position(game, max_position)] by class. *)
Definition choose_insert_position (self : Agent) (game : Game) (max_position : Z)
    (r : Rng) : outcome (Z * Rng) :=
  match agent_class self with
  | RandomAgent => randint 0 max_position r
  | PassiveAgent => Ok (max_position, r)
  | AggressiveAgent =>
      if bool_decide (2 ≤ max_position)%Z then Ok ((max_position - 1)%Z, r)
      else Ok (max_position, r)
  | DefensiveAgent => Ok (0%Z, r)
  end.

(** [Agent.choose_card_to_give] : the type of a random card of the own hand. *)
Definition choose_card_to_give (self : Agent) (game : Game) (r : Rng)
  : outcome (CardType * Rng) :=
  p ← Py.get (players (state game)) (player_id self);
  '(c, r') ← choice (hand p) r;
  Ok (card_type c, r').

(** ** mcts_agent.py : where the search agents put a defused kitten *)

Definition MCTSAgent_choose_insert_position (max_position : Z) (r : Rng)
  : outcome (Z * Rng) :=
  if bool_decide (max_position ≤ 1)%Z then Ok (max_position, r)
  else if bool_decide (max_position ≤ 3)%Z then Ok ((max_position - 1)%Z, r)
  else '(k, r') ← randint 2 (Z.min 4 max_position) r; Ok ((max_position - k)%Z, r').

Definition FastMCTSAgent_choose_insert_position (max_position : Z) (r : Rng)
  : outcome (Z * Rng) :=
  if bool_decide (max_position ≤ 2)%Z then Ok (max_position, r)
  else '(k, r') ← randint 1 3 r; Ok ((max_position - k)%Z, r').

(** ** simulate.py : one game between agents *)

Record GameResult : Set := mkGameResult {
  result_winner : Z;
  num_turns : Z;
  final_deck_size : nat;
  player_hands : list nat
}.

(** The loop of [run_single_game]; [fuel] bounds the iterations unrolled,
    as in the playout loops. *)
Fixpoint run_single_game_loop (fuel : nat) (agents : list Agent) (game : Game)
    (turn_count max_turns : Z) (r : Rng) : outcome (Game * Z * Rng) :=
  if negb (is_over game) && bool_decide (turn_count < max_turns)%Z then
    match fuel with
    | 0 => Diverge
    | S fuel' =>
        let current_id := current_player_idx (state game) in
        agent ← Py.get agents current_id;
        legal_actions ← get_legal_actions game None;
        '(action, r1) ← choose_action agent game legal_actions r;
        '(game', _, r2) ← execute_action game action r1;
        run_single_game_loop fuel' agents game' (turn_count + 1)%Z max_turns r2
    end
  else Ok (game, turn_count, r).

(** [run_single_game(agents, seed)]: the result record, with the game as
    it ends. *)
Definition run_single_game (fuel : nat) (agents : list Agent) (r : Rng)
  : outcome (GameResult * Game * Rng) :=
  '(game, r0) ← __init__ (Z.of_nat (length agents)) r;
  let max_turns := 1000%Z in
  '(game', turn_count, r') ← run_single_game_loop fuel agents game 0 max_turns r0;
  Ok (mkGameResult (default (-1)%Z (get_winner game')) turn_count
        (length (deck (state game')))
        ((λ p, length (hand p)) <$> players (state game')),
      game', r').

(** ** More example games *)

(** The example game with a harmless card on top of the deck. *)
Definition safe_top_game : Game :=
  mkGame 2 (with_deck [mkCard NOPE; mkCard SHUFFLE] example_state) [].

(** Player 1, who holds no defuse, has been attacked: two turns to take,
    a kitten on top. *)
Definition attacked_game_p1 : Game :=
  mkGame 2 (with_turns 2 (with_current 1 example_state)) [].

(** Three players, player 1 attacked and without a defuse, a kitten on top
    and another one below. *)
Definition three_player_game : Game :=
  mkGame 3
    (mkGameState
       [mkPlayer 0 [mkCard DEFUSE; mkCard FAVOR] true;
        mkPlayer 1 [mkCard SKIP; mkCard CAT_TACOCAT; mkCard CAT_TACOCAT] true;
        mkPlayer 2 [mkCard DEFUSE] true]
       [mkCard NOPE; mkCard EXPLODING_KITTEN; mkCard ATTACK; mkCard EXPLODING_KITTEN]
       [] 1 2 false None None)
    [].

(** ** The cards of a game, one by one *)

(** Deck, hands, and the cards of the discard pile. *)
Definition all_cards (s : GameState) : list Card :=
  deck s ++ (players s ≫= hand) ++ omap (λ c, c) (discard s).

(** No player holds an exploding kitten. *)
Definition no_kitten_in_hand (ps : list Player) : Prop :=
  Forall (λ p, has_card p EXPLODING_KITTEN = false) ps.

(** What the board change of a legal action by the player at [me] does to
    the cards: they are moved, not made or lost; what is put on the discard
    pile is a card; no kitten enters a hand; and either the deck keeps its
    kittens and nobody dies, or the deck loses one kitten and at most the
    player at [me] dies. *)
Definition card_step (g : Game) (me : nat) (s1 : GameState) : Prop :=
  all_cards s1 ≡ₚ all_cards (state g)
  ∧ (Forall is_Some (discard (state g)) → Forall is_Some (discard s1))
  ∧ (no_kitten_in_hand (players (state g)) → no_kitten_in_hand (players s1))
  ∧ ((count_type EXPLODING_KITTEN (deck s1)
      = count_type EXPLODING_KITTEN (deck (state g))
      ∧ alive <$> players s1 = alive <$> players (state g))
     ∨ (count_type EXPLODING_KITTEN (deck s1) + 1
        = count_type EXPLODING_KITTEN (deck (state g))
        ∧ alive <$> players s1 = <[me:=false]> (alive <$> players (state g)))).

(** The example game with a harmless card on top, after a pass. *)
Definition safe_top_after_pass : Game :=
  Eval vm_compute in
    match execute_action safe_top_game Pass rng_zero with
    | Ok (g, _, _) => g
    | _ => safe_top_game
    end.

(** The three-player game with player 0, who holds a Favor, to move. *)
Definition favor_game : Game :=
  mkGame 3 (with_turns 1 (with_current 0 (state three_player_game))) [].

(** Player 0 has looked at the top three cards; the third from the top is
    a kitten. *)
Definition third_kitten_game : Game :=
  mkGame 2
    (with_known (Some 0%Z)
       (with_deck [mkCard NOPE; mkCard EXPLODING_KITTEN; mkCard CAT_TACOCAT; mkCard SHUFFLE]
          example_state))
    [].

(** ** mcts_agent.py : the search tree and UCB1 *)

(** A node of the search tree.  [children] is the dict of the source in
    insertion order, the order in which [children.values()] yields.  The
    field [parent] of the source is the way back: a node is created only as
    a child of the node that stores it in [children], with [parent] set to
    that node, and neither field is reassigned; so the parent is passed to
    [ucb1] by the caller, and is [None] for the root. *)
#[warnings="-register-all"]
Inductive MCTSNode : Type := mkMCTSNode {
  state_hash : string;
  action : option Action;
  children : list (string * MCTSNode);
  visits : Z;
  wins : float }.

(** Conversion of an [int] operand of a float operation: the nearest
    double, ties to even; [OverflowError] when it is out of range. *)
Definition float_of_int (n : Z) : outcome float :=
  let f := SF2Prim (binary_normalize prec emax n 0 false) in
  if is_infinity f then Raise OverflowError else Ok f.

(** [x / y] on floats. *)
Definition float_div (x y : float) : outcome float :=
  if (y =? 0)%float then Raise ZeroDivisionError else Ok (x / y)%float.

(** [x / n] for a float [x] and an int [n]. *)
Definition float_div_int (x : float) (n : Z) : outcome float :=
  y ← float_of_int n; float_div x y.

(** [math.sqrt] *)
Definition math_sqrt (x : float) : outcome float :=
  if (x <? 0)%float then Raise ValueError else Ok (PrimFloat.sqrt x).

(** [max(items, key=key)]: the first item whose key no later key exceeds;
    a later item replaces the best one when [val > maxval]. *)
Fixpoint max_loop {A} (key : A → outcome float) (maxitem : A) (maxval : float)
    (l : list A) : outcome A :=
  match l with
  | [] => Ok maxitem
  | item :: l' =>
      val ← key item;
      if (maxval <? val)%float then max_loop key item val l'
      else max_loop key maxitem maxval l'
  end.

Definition py_max {A} (key : A → outcome float) (l : list A) : outcome A :=
  match l with
  | [] => Raise ValueError
  | item :: l' => val ← key item; max_loop key item val l'
  end.

Section UCB1.
(** [math.log] on a positive int, a function of the C library. *)
Variable log : Z → float.

Definition math_log (n : Z) : outcome float :=
  if bool_decide (n ≤ 0)%Z then Raise ValueError else Ok (log n).

Definition ucb1 (parent : option MCTSNode) (self : MCTSNode) (exploration : float)
    : outcome float :=
  if bool_decide (visits self = 0%Z) then Ok infinity
  else
    exploitation ← float_div_int (wins self) (visits self);
    parent_visits ← match parent with
                    | Some p => Ok (visits p)
                    | None => Raise AttributeError
                    end;
    lg ← math_log parent_visits;
    q ← float_div_int lg (visits self);
    root ← math_sqrt q;
    let exploration_term := (exploration * root)%float in
    Ok (exploitation + exploration_term)%float.

Definition best_child (self : MCTSNode) (exploration : float) : outcome MCTSNode :=
  py_max (λ c, ucb1 (Some self) c exploration) (snd <$> children self).
End UCB1.

(** ** Example search trees *)

(** [math.log] on 1 to 5 as the C library returns it; beyond the table the
    stand-in has no number to give. *)
Definition log_table (n : Z) : float :=
  if bool_decide (n = 1)%Z then 0%float
  else if bool_decide (n = 2)%Z then 0x1.62e42fefa39efp-1%float
  else if bool_decide (n = 3)%Z then 0x1.193ea7aad030bp+0%float
  else if bool_decide (n = 4)%Z then 0x1.62e42fefa39efp+0%float
  else if bool_decide (n = 5)%Z then 0x1.9c041f7ed8d33p+0%float
  else nan.

(** A childless node reached by [act], with its statistics. *)
Definition leaf (key : string) (act : Action) (v : Z) (w : float) : MCTSNode :=
  mkMCTSNode key (Some act) [] v w.

Definition root_of (v : Z) (w : float) (kids : list MCTSNode) : MCTSNode :=
  mkMCTSNode "root" None ((λ c, (state_hash c, c)) <$> kids) v w.

(** The default exploration constant, 1.41 as a double. *)
Definition default_exploration : float := 0x1.68f5c28f5c28fp+0%float.

(** The largest finite double. *)
Definition float_max : float := 0x1.fffffffffffffp+1023%float.

(** After two iterations: one child tried (and won), two not yet. *)
Definition young_tree : MCTSNode :=
  root_of 2 1 [leaf "pass" Pass 1 1; leaf "play_SKIP_None" (PlayCard SKIP None None) 0 0;
               leaf "play_ATTACK_None" (PlayCard ATTACK None None) 0 0].

(** Two children tried twice each, the second with the better record. *)
Definition rated_tree : MCTSNode :=
  root_of 5 3 [leaf "pass" Pass 2 1; leaf "play_SKIP_None" (PlayCard SKIP None None) 2 2].

(** One child tried (and lost), one not yet. *)
Definition lost_once_tree : MCTSNode :=
  root_of 2 0 [leaf "pass" Pass 1 0; leaf "play_SKIP_None" (PlayCard SKIP None None) 0 0].

(** Two children tried once each, one not yet. *)
Definition wide_tree : MCTSNode :=
  root_of 3 1 [leaf "pass" Pass 1 0; leaf "play_SKIP_None" (PlayCard SKIP None None) 1 1;
               leaf "play_ATTACK_None" (PlayCard ATTACK None None) 0 0].

(** ** Proof tactics *)

(** Projections of updated states and records. *)
Ltac proj_simpl :=
  cbn [deck discard players current_player_idx turns_remaining game_over winner
       top_three_known_by with_players with_deck with_discard with_current with_turns
       with_over with_known insert_card state with_state num_players action_history
       hand id alive set_hand set_alive fst snd].

Ltac shape_with ctl c :=
  proj_simpl;
  lazymatch goal with
  | |- context [ctl (with_state ?s ?g)] =>
      exists s, c; eexists _, _;
      split_and!; [done|done|
                   |cbn [run_control]; unfold mbind, outcome_bind;
                    destruct (ctl (with_state s g)); reflexivity]
  end.

(** A test of an agent's loop that the action at hand fails. *)
Ltac refute_test H :=
  cbn [is_play_of is_cat_pair is_pass] in H; try discriminate H;
  apply bool_decide_eq_true in H;
  repeat (apply elem_of_cons in H as [H|H]; [discriminate H|]);
  by apply elem_of_nil in H.

(** Case split on the condition guarding a list of tests. *)
Ltac case_if_in H :=
  match type of H with _ ∈ (if ?c then _ else _) => destruct c end.

(** * Properties *)

(** ** Python list primitives *)

Lemma norm_index_of_nat len n : n < len → Py.norm_index len (Z.of_nat n) = Some n.
Proof.
  intros. unfold Py.norm_index. rewrite bool_decide_true by lia. by rewrite Nat2Z.id.
Qed.

Lemma norm_index_nonneg len i :
  (0 ≤ i < Z.of_nat len)%Z → Py.norm_index len i = Some (Z.to_nat i).
Proof. intros. unfold Py.norm_index. by rewrite bool_decide_true by lia. Qed.

Lemma locate_Ok {A} (l : list A) i n :
  Py.locate l i = Ok n ↔ Py.norm_index (length l) i = Some n.
Proof. unfold Py.locate. destruct (Py.norm_index _ _); split; intros; by simplify_eq. Qed.

Lemma get_Ok {A} (l : list A) i x :
  Py.get l i = Ok x ↔ ∃ n, Py.norm_index (length l) i = Some n ∧ l !! n = Some x.
Proof.
  unfold Py.get. destruct (Py.norm_index _ _) as [n|] eqn:E.
  - destruct (l !! n) eqn:E'; split.
    + intros; simplify_eq; eauto.
    + intros (? & ? & ?); by simplify_eq.
    + done.
    + intros (? & ? & ?); by simplify_eq.
  - split; [done|]. intros (? & ? & ?); by simplify_eq.
Qed.

Lemma get_not_Diverge {A} (l : list A) i : Py.get l i ≠ Diverge.
Proof. unfold Py.get. by repeat case_match. Qed.

Lemma get_nonneg {A} (l : list A) i :
  (0 ≤ i < Z.of_nat (length l))%Z →
  ∃ x, l !! Z.to_nat i = Some x ∧ Py.get l i = Ok x ∧ Py.locate l i = Ok (Z.to_nat i).
Proof.
  intros Hi. destruct (lookup_lt_is_Some_2 l (Z.to_nat i)) as [x Hx]; [lia|].
  exists x. split; [done|]. unfold Py.get, Py.locate.
  by rewrite norm_index_nonneg, ?Hx.
Qed.

Lemma pop_Ok {A} (l : list A) x l' : Py.pop l = Ok (x, l') ↔ l = l' ++ [x].
Proof.
  unfold Py.pop. split.
  - destruct (last l) eqn:E; [|done]. intros; simplify_eq.
    apply last_Some in E as [k ->]. rewrite length_app. simpl.
    replace (length k + 1 - 1) with (length k) by lia. by rewrite take_app_length.
  - intros ->. rewrite last_snoc, length_app. simpl.
    replace (length l' + 1 - 1) with (length l') by lia. by rewrite take_app_length.
Qed.

Lemma pop_snoc {A} (l : list A) x : Py.pop (l ++ [x]) = Ok (x, l).
Proof. by apply pop_Ok. Qed.

Lemma pop_at_Ok {A} (l : list A) i x l' :
  Py.pop_at l i = Ok (x, l') → l ≡ₚ x :: l' ∧ length l = S (length l').
Proof.
  unfold Py.pop_at. destruct (Py.norm_index _ _) as [n|]; [|done].
  destruct (l !! n) eqn:E; [|done]. intros; simplify_eq. split.
  - by apply delete_Permutation.
  - rewrite length_delete by eauto. apply lookup_lt_Some in E. lia.
Qed.

Lemma insert_Permutation {A} (l : list A) i x : Py.insert l i x ≡ₚ x :: l.
Proof.
  unfold Py.insert. rewrite <- Permutation_middle. by rewrite take_drop.
Qed.

Lemma length_py_insert {A} (l : list A) i x : length (Py.insert l i x) = S (length l).
Proof. by rewrite insert_Permutation. Qed.

(** Inserting at [len(l)] puts the item on top. *)
Lemma insert_top {A} (l : list A) x : Py.insert l (Z.of_nat (length l)) x = l ++ [x].
Proof.
  unfold Py.insert. cbv zeta. repeat case_bool_decide; try lia.
  by rewrite Nat2Z.id, take_ge, drop_ge by lia.
Qed.

(** ** The generator: a shuffle permutes *)

Lemma randbelow_lt n r : 0 < n → (randbelow n r).1 < n.
Proof. intros. unfold randbelow. simpl. apply Nat.mod_upper_bound. lia. Qed.

Lemma insert_cons_Permutation {A} (l : list A) i x y :
  l !! i = Some x → y :: l ≡ₚ x :: <[i:=y]> l.
Proof.
  intros E. rewrite insert_take_drop by (by eapply lookup_lt_Some).
  rewrite <- (take_drop_middle l i x E) at 1.
  rewrite <- !Permutation_middle. apply perm_swap.
Qed.

Lemma swap_Permutation {A} i j (x : list A) : swap i j x ≡ₚ x.
Proof.
  unfold swap. destruct (x !! i) as [a|] eqn:Ei; [|done].
  destruct (x !! j) as [b|] eqn:Ej; [|done].
  assert (<[i:=b]> x !! j = Some b) as Ej'.
  { destruct (decide (i = j)) as [->|].
    - apply list_lookup_insert_eq. by eapply lookup_lt_Some.
    - by rewrite list_lookup_insert_ne. }
  apply (Permutation_cons_inv (a:=b)).
  rewrite <- (insert_cons_Permutation _ j b a Ej').
  symmetry. by apply insert_cons_Permutation.
Qed.

Lemma shuffle_from_Permutation {A} i (x : list A) r : (shuffle_from i x r).1 ≡ₚ x.
Proof.
  revert x r. induction i as [|i IH]; intros x r; [done|].
  simpl. destruct (randbelow (S (S i)) r) as [j r'].
  rewrite IH. apply swap_Permutation.
Qed.

Lemma shuffle_Permutation {A} (x : list A) r : (shuffle x r).1 ≡ₚ x.
Proof. apply shuffle_from_Permutation. Qed.

Lemma length_shuffle {A} (x : list A) r : length (shuffle x r).1 = length x.
Proof. by rewrite shuffle_Permutation. Qed.

Lemma shuffle_eq_Permutation {A} (x y : list A) r r' : shuffle x r = (y, r') → y ≡ₚ x.
Proof. intros E. pose proof (shuffle_Permutation x r) as H. by rewrite E in H. Qed.

(** ** Counting cards *)

Lemma count_type_Permutation ct (l l' : list Card) :
  l ≡ₚ l' → count_type ct l = count_type ct l'.
Proof. unfold count_type. by intros ->. Qed.

Lemma count_type_app ct (l l' : list Card) :
  count_type ct (l ++ l') = count_type ct l + count_type ct l'.
Proof. unfold count_type. by rewrite filter_app, length_app. Qed.

Lemma count_type_cons ct c (l : list Card) :
  count_type ct (c :: l) = (if decide (card_type c = ct) then 1 else 0) + count_type ct l.
Proof. unfold count_type. rewrite filter_cons. by case_decide. Qed.

Lemma count_type_replicate ct c k :
  count_type ct (replicate k c) = if decide (card_type c = ct) then k else 0.
Proof.
  induction k as [|k IH]; simpl; [by case_decide|].
  rewrite count_type_cons, IH. by case_decide.
Qed.

Lemma count_type_ordinary (l : list Card) :
  Forall ordinary l →
  count_type EXPLODING_KITTEN l = 0 ∧ count_type DEFUSE l = 0.
Proof.
  induction 1 as [|c l [H1 H2] _ [IH1 IH2]]; [done|].
  rewrite !count_type_cons, IH1, IH2. by rewrite !decide_False.
Qed.

(** ** Setup *)

Lemma base_deck_ordinary : Forall ordinary base_deck.
Proof. apply Forall_forall. intros c Hc. unfold ordinary. 
  repeat (apply elem_of_cons in Hc as [->|Hc]; [by split|]). by apply elem_of_nil in Hc.
Qed.

Lemma length_base_deck : length base_deck = 46.
Proof. reflexivity. Qed.

Lemma deal_hand_Ok k h dk :
  k ≤ length dk →
  ∃ cs dk', deal_hand k h dk = Ok (h ++ cs, dk') ∧ length cs = k ∧ dk ≡ₚ cs ++ dk'.
Proof.
  revert h dk. induction k as [|k IH]; intros h dk Hk.
  - exists [], dk. by rewrite app_nil_r.
  - destruct (decide (dk = [])) as [->|Hne]; [simpl in Hk; lia|].
    apply (proj2 (last_is_Some dk)) in Hne as [c Hc].
    apply last_Some in Hc as [dk0 ->].
    rewrite length_app in Hk. simpl in Hk.
    destruct (IH (h ++ [c]) dk0) as (cs & dk' & E & Hlen & Hp); [lia|].
    exists (c :: cs), dk'. simpl. rewrite pop_snoc. simpl.
    rewrite E, <- app_assoc. simpl. split_and!; [done|lia|].
    rewrite <- Permutation_cons_append. by rewrite Hp.
Qed.

Lemma deal_Ok ps dk :
  4 * length ps ≤ length dk →
  Forall ordinary dk →
  ∃ ps' dk', deal ps dk = Ok (ps', dk')
    ∧ Forall2 dealt ps ps'
    ∧ Forall ordinary dk'
    ∧ length dk = length dk' + 4 * length ps.
Proof.
  revert dk. induction ps as [|p ps IH]; intros dk Hlen Hord.
  - exists [], dk. simpl. split_and!; auto with lia.
  - simpl in Hlen.
    destruct (deal_hand_Ok 4 (hand p) dk) as (cs & dk1 & E & Hcs & Hp); [lia|].
    assert (Forall ordinary cs ∧ Forall ordinary dk1) as [Hc Hd].
    { apply Forall_app. by rewrite <- Hp. }
    assert (length dk = 4 + length dk1) as Hl.
    { by rewrite Hp, length_app, Hcs. }
    destruct (IH dk1) as (ps' & dk' & E' & HF & Hord' & Hl'); [lia|done|].
    exists (set_hand ((hand p ++ cs) ++ [mkCard DEFUSE]) p :: ps'), dk'.
    cbn [deal]. rewrite E. simpl. rewrite E'. simpl.
    split_and!; [done| |done|lia].
    constructor; [|done]. split_and!; [done|done|].
    exists cs. by rewrite <- app_assoc.
Qed.

Lemma fresh_players_lookup k i p :
  ((λ i, mkPlayer (Z.of_nat i) [] true) <$> seq 0 k) !! i = Some p →
  p = mkPlayer (Z.of_nat i) [] true.
Proof.
  rewrite list_lookup_fmap. intros H.
  destruct (seq 0 k !! i) as [j|] eqn:E; [|done].
  apply lookup_seq in E as [-> _]. by simplify_eq/=.
Qed.

(** Everything [__init__] guarantees when the base deck suffices. *)
Lemma setup_spec (n : Z) (r : Rng) :
  (n ≤ 11)%Z →
  ∃ g r', __init__ n r = Ok (g, r')
    ∧ num_players g = n
    ∧ action_history g = []
    ∧ length (players (state g)) = Z.to_nat n
    ∧ (∀ i p, players (state g) !! i = Some p →
         id p = Z.of_nat i ∧ alive p = true
         ∧ ∃ h, hand p = h ++ [mkCard DEFUSE] ∧ length h = 4 ∧ Forall ordinary h)
    ∧ count_type EXPLODING_KITTEN (deck (state g)) = Z.to_nat (n - 1)
    ∧ count_type DEFUSE (deck (state g)) = DEFUSE_IN_DECK
    ∧ length (deck (state g)) + 4 * Z.to_nat n = 48 + Z.to_nat (n - 1)
    ∧ discard (state g) = []
    ∧ current_player_idx (state g) = 0%Z
    ∧ turns_remaining (state g) = 1%Z
    ∧ game_over (state g) = false
    ∧ winner (state g) = None
    ∧ top_three_known_by (state g) = None.
Proof.
  intros Hn. unfold __init__, _setup_game.
  destruct (shuffle base_deck r) as [deck1 r1] eqn:E1.
  apply shuffle_eq_Permutation in E1 as P1.
  set (ps := (λ i, mkPlayer (Z.of_nat i) [] true) <$> seq 0 (Z.to_nat n)).
  assert (length ps = Z.to_nat n) as Hps.
  { subst ps. by rewrite length_fmap, length_seq. }
  destruct (deal_Ok ps deck1) as (ps' & deck2 & E2 & HF & Hord & Hl).
  { rewrite P1, length_base_deck, Hps. lia. }
  { rewrite P1. apply base_deck_ordinary. }
  rewrite P1, length_base_deck, Hps in Hl.
  unfold mbind, outcome_bind. rewrite E2.
  destruct (shuffle (deck2 ++ _) r1) as [deck4 r2] eqn:E4.
  apply shuffle_eq_Permutation in E4 as P4.
  destruct (shuffle (deck4 ++ _) r2) as [deck6 r3] eqn:E6.
  apply shuffle_eq_Permutation in E6 as P6.
  destruct (count_type_ordinary deck2 Hord) as [K0 D0].
  eexists _, _. split; [reflexivity|].
  cbn [num_players state action_history players deck discard current_player_idx
       turns_remaining game_over winner top_three_known_by].
  split_and!; try reflexivity.
  - by rewrite <- (Forall2_length _ _ _ HF).
  - intros i p' Hi.
    destruct (Forall2_lookup_r _ _ _ _ _ HF Hi) as (p & Hp & Hid & Hal & h & Hh & Hlen & Hho).
    apply fresh_players_lookup in Hp as ->. simpl in *.
    split_and!; [assumption|assumption|]. exists h. split_and!; assumption.
  - rewrite (count_type_Permutation _ _ _ P6), count_type_app.
    rewrite (count_type_Permutation _ _ _ P4), count_type_app, K0.
    by rewrite !count_type_replicate.
  - rewrite (count_type_Permutation _ _ _ P6), count_type_app.
    rewrite (count_type_Permutation _ _ _ P4), count_type_app, D0.
    by rewrite !count_type_replicate.
  - rewrite P6, length_app, P4, length_app, !length_replicate. unfold DEFUSE_IN_DECK. lia.
Qed.

(** ** Finding the next alive player *)

Lemma find_alive_range fuel ps n start idx :
  (0 < n)%Z → (0 ≤ start < n)%Z →
  find_alive fuel ps n start = Ok idx →
  (0 ≤ idx < n)%Z ∧ ∃ p, Py.get ps idx = Ok p ∧ alive p = true.
Proof.
  intros Hn. revert start. induction fuel as [|fuel IH]; intros start Hs; simpl;
    (destruct (Py.get ps start) as [p| |] eqn:E; simpl; [|done|done]);
    (destruct (alive p) eqn:Ea; try done).
  - intros; simplify_eq; eauto.
  - intros; simplify_eq; eauto.
  - apply IH. by apply Z.mod_pos_bound.
Qed.

(** With as many players as [n] says, the search started in range returns
    the first alive player at distance [k ≤ d], provided there is one at
    distance [d] and the fuel covers [d]. *)
Lemma find_alive_spec (d : nat) : ∀ fuel ps n start,
  n = Z.of_nat (length ps) → (0 ≤ start < n)%Z → d ≤ fuel →
  (∃ p, ps !! Z.to_nat ((start + Z.of_nat d) mod n) = Some p ∧ alive p = true) →
  ∃ k : nat, k ≤ d
    ∧ find_alive fuel ps n start = Ok ((start + Z.of_nat k) mod n)%Z
    ∧ (∃ p, ps !! Z.to_nat ((start + Z.of_nat k) mod n) = Some p ∧ alive p = true)
    ∧ ∀ j : nat, j < k →
        ∃ q, ps !! Z.to_nat ((start + Z.of_nat j) mod n) = Some q ∧ alive q = false.
Proof.
  induction d as [|d IH]; intros fuel ps n start Hn Hs Hd (p & Hp & Hal).
  - exists 0. rewrite Z.add_0_r, Z.mod_small in * by lia.
    destruct (get_nonneg ps start) as (x & Hx & Hg & _); [lia|].
    simplify_eq. split_and!; [lia| |eauto|intros; lia].
    destruct fuel; simpl; by rewrite Hg; simpl; rewrite Hal.
  - destruct (get_nonneg ps start) as (x & Hx & Hg & _); [lia|].
    destruct (alive x) eqn:Ex.
    + exists 0. rewrite Z.add_0_r, Z.mod_small by lia.
      split_and!; [lia| |eauto|intros; lia].
      destruct fuel; simpl; by rewrite Hg; simpl; rewrite Ex.
    + destruct fuel as [|fuel]; [lia|].
      assert (0 < n)%Z as Hpos by lia.
      assert (∀ m : nat, ((start + 1) mod n + Z.of_nat m) mod n
                         = (start + Z.of_nat (S m)) mod n)%Z as Hshift.
      { intros m. rewrite Zplus_mod_idemp_l. f_equal. lia. }
      destruct (IH fuel ps n ((start + 1) mod n)%Z) as (k & Hk & E & Hfound & Hbefore);
        [done|by apply Z.mod_pos_bound|lia| |].
      { rewrite Hshift. eauto. }
      exists (S k). split_and!; [lia| | |].
      * simpl. rewrite Hg. simpl. rewrite Ex. by rewrite E, Hshift.
      * by rewrite <- Hshift.
      * intros [|j] Hj.
        -- rewrite Z.add_0_r, Z.mod_small by lia. eauto.
        -- rewrite <- Hshift. apply Hbefore. lia.
Qed.

Lemma next_alive_index_range g idx :
  wf_game g → next_alive_index g = Ok idx → (0 ≤ idx < num_players g)%Z.
Proof.
  intros (Hn & Hc & _). unfold next_alive_index.
  rewrite bool_decide_false by lia. intros E.
  apply find_alive_range in E as [? _]; [done|lia|].
  apply Z.mod_pos_bound; lia.
Qed.

Lemma next_alive_index_total g :
  wf_game g →
  Exists (λ p, alive p = true) (players (state g)) →
  ∃ idx, next_alive_index g = Ok idx
    ∧ next_alive_after (players (state g)) (current_player_idx (state g)) idx.
Proof.
  intros (Hn & Hc & _) Hex.
  apply Exists_exists in Hex as (p & Hin & Hal).
  apply list_elem_of_lookup in Hin as [i Hi].
  pose proof (lookup_lt_Some _ _ _ Hi) as Hlt.
  set (n := num_players g) in *. set (cur := current_player_idx (state g)) in *.
  set (start := ((cur + 1) mod n)%Z).
  assert (0 ≤ start < n)%Z as Hs by (apply Z.mod_pos_bound; lia).
  set (d := Z.to_nat ((Z.of_nat i - start) mod n)).
  assert (0 ≤ (Z.of_nat i - start) mod n < n)%Z as Hdr by (apply Z.mod_pos_bound; lia).
  assert ((start + Z.of_nat d) mod n = Z.of_nat i)%Z as Hd.
  { subst d. rewrite Z2Nat.id by lia. rewrite Zplus_mod_idemp_r.
    replace (start + (Z.of_nat i - start))%Z with (Z.of_nat i) by lia.
    apply Z.mod_small. lia. }
  destruct (find_alive_spec d (Z.abs_nat n) (players (state g)) n start)
    as (k & Hk & E & Hfound & Hbefore); [done|done|lia| |].
  { rewrite Hd, Nat2Z.id. eauto. }
  assert (∀ m : nat, ((start + Z.of_nat m) mod n = (cur + Z.of_nat (S m)) mod n)%Z) as Hshift.
  { intros m. subst start. rewrite Zplus_mod_idemp_l. f_equal. lia. }
  exists ((start + Z.of_nat k) mod n)%Z. split.
  - unfold next_alive_index. fold n. rewrite bool_decide_false by lia. done.
  - unfold next_alive_after. rewrite <- Hn. fold n.
    exists (Z.of_nat (S k)). split; [lia|]. split; [apply Hshift|]. split; [done|].
    intros j Hj. destruct (Hbefore (Z.to_nat (j - 1))) as (q & Hq & Hqa); [lia|].
    exists q. split; [|done]. rewrite Hshift in Hq.
    by replace (Z.of_nat (S (Z.to_nat (j - 1)))) with j in Hq by lia.
Qed.

(** The exhausted search is a loop that never returns: once it has failed
    with fuel [|n|], no amount of fuel makes it return. *)
Lemma find_alive_dead_prefix fuel : ∀ ps n start,
  (start mod n = start)%Z →
  find_alive fuel ps n start = Diverge →
  ∀ j : nat, j ≤ fuel →
    ∃ q, Py.get ps ((start + Z.of_nat j) mod n)%Z = Ok q ∧ alive q = false.
Proof.
  induction fuel as [|fuel IH]; intros ps n start Hs Hd j Hj; simpl in Hd;
    (destruct (Py.get ps start) as [p| |] eqn:E; simpl in Hd;
       [|done|by destruct (get_not_Diverge _ _ E)]);
    (destruct (alive p) eqn:Ea; [done|]).
  - replace j with 0 by lia. rewrite Z.add_0_r, Hs. eauto.
  - destruct j as [|j].
    + rewrite Z.add_0_r, Hs. eauto.
    + destruct (IH ps n ((start + 1) mod n)%Z) with (j := j) as (q & Hq & Hqa);
        [apply Zmod_mod|done|lia|].
      exists q. split; [|done]. rewrite Zplus_mod_idemp_l in Hq.
      by replace (start + Z.of_nat (S j))%Z with (start + 1 + Z.of_nat j)%Z by lia.
Qed.

Lemma find_alive_dead_forever fuel : ∀ ps n start,
  (start mod n = start)%Z →
  (∀ j : nat, ∃ q, Py.get ps ((start + Z.of_nat j) mod n)%Z = Ok q ∧ alive q = false) →
  find_alive fuel ps n start = Diverge.
Proof.
  induction fuel as [|fuel IH]; intros ps n start Hs Hall;
    destruct (Hall 0) as (q & Hq & Hqa); rewrite Z.add_0_r, Hs in Hq;
    simpl; rewrite Hq; simpl; rewrite Hqa; [done|].
  apply IH; [apply Zmod_mod|]. intros j.
  destruct (Hall (S j)) as (q' & Hq' & Hqa'). exists q'. split; [|done].
  rewrite Zplus_mod_idemp_l.
  by replace (start + 1 + Z.of_nat j)%Z with (start + Z.of_nat (S j))%Z by lia.
Qed.

Lemma find_alive_diverges ps n start fuel :
  n ≠ 0%Z → (start mod n = start)%Z →
  find_alive (Z.abs_nat n) ps n start = Diverge →
  find_alive fuel ps n start = Diverge.
Proof.
  intros Hn Hs Hd. apply find_alive_dead_forever; [done|]. intros j.
  set (m := Z.abs_nat n).
  assert (m ≠ 0) as Hm by (subst m; lia).
  assert (∃ q : Z, Z.of_nat j = Z.of_nat (j mod m) + q * n)%Z as [q Hq].
  { pose proof (Nat.div_mod_eq j m) as Hdm.
    destruct (Z.abs_eq_or_opp n) as [Ha|Ha].
    - exists (Z.of_nat (j / m)). subst m. nia.
    - exists (- Z.of_nat (j / m))%Z. subst m. nia. }
  rewrite Hq, Z.add_assoc, Z_mod_plus_full.
  apply (find_alive_dead_prefix m); [done|done|].
  pose proof (Nat.mod_upper_bound j m Hm). lia.
Qed.

(** ** Updating the list of players *)

Lemma hand_total_insert (ps : list Player) (i : nat) p q :
  ps !! i = Some p →
  hand_total (<[i:=q]> ps) + length (hand p) = hand_total ps + length (hand q).
Proof.
  intros E.
  assert (hand_total ps
          = hand_total (take i ps) + (length (hand p) + hand_total (drop (S i) ps))) as H1.
  { rewrite <- (take_drop_middle ps i p E) at 1.
    unfold hand_total. by rewrite sum_list_with_app. }
  assert (hand_total (<[i:=q]> ps)
          = hand_total (take i ps) + (length (hand q) + hand_total (drop (S i) ps))) as H2.
  { rewrite insert_take_drop by (by eapply lookup_lt_Some).
    unfold hand_total. by rewrite sum_list_with_app. }
  lia.
Qed.

Lemma fmap_insert_same {B} (f : Player → B) (ps : list Player) (i : nat) p q :
  ps !! i = Some p → f q = f p → f <$> <[i:=q]> ps = f <$> ps.
Proof.
  intros E Hf. rewrite list_fmap_insert. apply list_insert_id.
  rewrite list_lookup_fmap, E. simpl. congruence.
Qed.

Lemma alter_as_insert {A} (f : A → A) (l : list A) i x :
  l !! i = Some x → alter f i l = <[i:=f x]> l.
Proof.
  intros E. apply list_eq. intros j.
  rewrite list_lookup_alter, list_lookup_insert.
  pose proof (lookup_lt_Some _ _ _ E).
  repeat case_decide; subst; try lia; try done. by rewrite E.
Qed.

Lemma ids_ok_lookup (ps : list Player) (i : nat) p : ids_ok ps → ps !! i = Some p → id p = Z.of_nat i.
Proof.
  unfold ids_ok. intros Hids E.
  assert ((id <$> ps) !! i = Some (id p)) as H by (by rewrite list_lookup_fmap, E).
  rewrite Hids, list_lookup_fmap in H.
  destruct (seq 0 (length ps) !! i) as [j|] eqn:Ej; [|done].
  apply lookup_seq in Ej as [-> _]. simpl in H. congruence.
Qed.

Lemma ids_ok_fmap ps ps' : id <$> ps' = id <$> ps → ids_ok ps → ids_ok ps'.
Proof.
  unfold ids_ok. intros E H. rewrite E, H.
  assert (length ps' = length ps) as ->; [|done].
  by rewrite <- (length_fmap id ps'), E, length_fmap.
Qed.

Lemma ids_ok_get (ps : list Player) (i : nat) p :
  ids_ok ps → ps !! i = Some p →
  Py.get ps (id p) = Ok p ∧ Py.locate ps (id p) = Ok i.
Proof.
  intros Hids E. rewrite (ids_ok_lookup _ _ _ Hids E).
  pose proof (lookup_lt_Some _ _ _ E).
  unfold Py.get, Py.locate. by rewrite norm_index_of_nat, ?E.
Qed.

(** ** Hands *)

Lemma take_first_Some ct h c h' :
  take_first ct h = Some (c, h') → card_type c = ct ∧ h ≡ₚ c :: h'.
Proof.
  revert c h'. induction h as [|x h IH]; intros c h'; simpl; [done|].
  unfold is_type at 1. case_bool_decide as Hx.
  - intros; by simplify_eq.
  - destruct (take_first ct h) as [[d h'']|]; [|done].
    intros [= <- <-]. destruct (IH d h'' eq_refl) as [Hc Hp].
    split; [done|]. rewrite Hp. apply perm_swap.
Qed.

Lemma take_first_None ct h : take_first ct h = None → existsb (is_type ct) h = false.
Proof.
  induction h as [|x h IH]; simpl; [done|].
  destruct (is_type ct x); [done|].
  destruct (take_first ct h) as [[d h'']|]; [done|]. auto.
Qed.

Lemma take_first_has ct h :
  existsb (is_type ct) h = true → ∃ c h', take_first ct h = Some (c, h').
Proof.
  intros H. destruct (take_first ct h) as [[c h']|] eqn:E; [eauto|].
  apply take_first_None in E. congruence.
Qed.

Lemma existsb_count ct h : existsb (is_type ct) h = true ↔ 0 < count_type ct h.
Proof.
  induction h as [|x h IH]; simpl.
  - unfold count_type. simpl. split; [done|lia].
  - rewrite count_type_cons. unfold is_type at 1.
    case_bool_decide; case_decide; try done; simpl.
    split; [lia|done].
Qed.

(** A successful [remove_card] takes one card of the type out of the hand. *)
Lemma remove_card_has p ct :
  has_card p ct = true →
  ∃ c h, remove_card p ct = (Some c, set_hand h p)
    ∧ card_type c = ct ∧ hand p ≡ₚ c :: h.
Proof.
  unfold has_card, remove_card. intros H.
  destruct (take_first_has _ _ H) as (c & h & E). rewrite E.
  destruct (take_first_Some _ _ _ _ E). eauto.
Qed.

Lemma count_type_fmap ct (h : list Card) :
  count_type ct h = length (filter (λ x, x = ct) (card_type <$> h)).
Proof.
  unfold count_type. induction h as [|c h IH]; [done|].
  rewrite fmap_cons, !filter_cons. repeat case_decide; simpl; try done; by rewrite IH.
Qed.

Lemma length_filter_filter {A} (P Q : A → Prop) `{!∀ x, Decision (P x)}
    `{!∀ x, Decision (Q x)} (l : list A) :
  length (filter P (filter Q l)) ≤ length (filter P l).
Proof.
  induction l as [|x l IH]; [done|].
  rewrite (filter_cons Q). destruct (decide (Q x)).
  - rewrite !filter_cons. destruct (decide (P x)); simpl; lia.
  - rewrite filter_cons. destruct (decide (P x)); simpl; lia.
Qed.

(** A cat type offered as a pair is held at least twice. *)
Lemma matching_pair_count p ct :
  ct ∈ get_matching_cat_pairs p → 2 ≤ count_type ct (hand p).
Proof.
  unfold get_matching_cat_pairs. intros H.
  apply list_elem_of_filter in H as [H _].
  rewrite count_type_fmap.
  etransitivity; [exact H|]. apply length_filter_filter.
Qed.

(** Hence both [remove_card] calls of a legal cat pair succeed. *)
Lemma remove_pair p ct :
  2 ≤ count_type ct (hand p) →
  ∃ c2 h,
    remove_card (remove_card p ct).2 ct = (Some c2, set_hand h p)
    ∧ length (hand p) = 2 + length h.
Proof.
  intros H.
  destruct (remove_card_has p ct) as (c1 & h1 & E1 & Hc1 & Hp1).
  { apply existsb_count. lia. }
  destruct (remove_card_has (set_hand h1 p) ct) as (c2 & h2 & E2 & Hc2 & Hp2).
  { apply existsb_count. simpl.
    rewrite (count_type_Permutation _ _ _ Hp1), count_type_cons, decide_True in H by done.
    lia. }
  exists c2, h2. rewrite E1. simpl. split; [done|].
  simpl in Hp2. by rewrite Hp1, Hp2.
Qed.

(** ** Random draws that cannot fail *)

Lemma randint_Ok a b r :
  (a ≤ b)%Z → ∃ k r', randint a b r = Ok (k, r') ∧ (a ≤ k ≤ b)%Z.
Proof.
  intros H. unfold randint, randbelow, next_raw. rewrite bool_decide_true by done.
  eexists _, _. split; [reflexivity|].
  pose proof (Nat.mod_upper_bound (src r (cursor r)) (Z.to_nat (b - a + 1))). lia.
Qed.

Lemma choice_Ok {A} (l : list A) r :
  l ≠ [] → ∃ a r', choice l r = Ok (a, r') ∧ a ∈ l.
Proof.
  intros H. unfold choice. destruct l as [|x l]; [done|].
  destruct (randbelow (length (x :: l)) r) as [k r'] eqn:E.
  pose proof (randbelow_lt (length (x :: l)) r) as Hk. rewrite E in Hk.
  destruct (lookup_lt_is_Some_2 (x :: l) k) as [a Ha]; [simpl in *; lia|].
  rewrite Ha. exists a, r'. split; [done|]. by eapply list_elem_of_lookup_2.
Qed.

Lemma pop_at_total {A} (l : list A) k :
  (0 ≤ k < Z.of_nat (length l))%Z → ∃ x l', Py.pop_at l k = Ok (x, l').
Proof.
  intros H. unfold Py.pop_at. rewrite norm_index_nonneg by done.
  destruct (lookup_lt_is_Some_2 l (Z.to_nat k)) as [x Hx]; [lia|].
  rewrite Hx. eauto.
Qed.

(** ** Stealing a card *)

Lemma steal_from_spec s me tid r t target :
  Py.locate (players s) tid = Ok t →
  players s !! t = Some target →
  me < length (players s) →
  ∃ s2 stolen r', steal_from s me tid r = Ok (s2, stolen, r')
    ∧ hand_total (players s2) = hand_total (players s)
    ∧ id <$> players s2 = id <$> players s
    ∧ alive <$> players s2 = alive <$> players s
    ∧ deck s2 = deck s ∧ discard s2 = discard s
    ∧ current_player_idx s2 = current_player_idx s
    ∧ turns_remaining s2 = turns_remaining s
    ∧ game_over s2 = game_over s ∧ winner s2 = winner s
    ∧ top_three_known_by s2 = top_three_known_by s.
Proof.
  intros Hloc Ht Hme. unfold steal_from. rewrite Hloc.
  assert (Py.get (players s) tid = Ok target) as ->.
  { apply get_Ok. exists t. split; [by apply locate_Ok|done]. }
  unfold mbind, outcome_bind. destruct (hand target) as [|c0 h0] eqn:Eh.
  { eexists _, _, _. split; [reflexivity|]. by split_and!. }
  cbn iota. set (h := c0 :: h0) in *.
  assert (0 < length h) as Hh by (subst h; simpl; lia). clearbody h.
  destruct (randint_Ok 0 (Z.of_nat (length h) - 1) r) as (k & r' & Ek & Hk); [lia|].
  rewrite Ek.
  destruct (pop_at_total h k) as (stolen & h' & Ep); [lia|].
  rewrite Ep. apply pop_at_Ok in Ep as [_ Hlen].
  set (ps1 := <[t:=set_hand h' target]> (players s)).
  assert (me < length ps1) as Hme1 by (subst ps1; by rewrite length_insert).
  destruct (lookup_lt_is_Some_2 ps1 me Hme1) as [pm Hpm].
  rewrite (alter_as_insert _ _ _ _ Hpm).
  eexists _, _, _. split; [reflexivity|]. simpl.
  split_and!; try done.
  - pose proof (hand_total_insert ps1 me pm (set_hand (hand pm ++ [stolen]) pm) Hpm) as H1.
    pose proof (hand_total_insert (players s) t target (set_hand h' target) Ht) as H2.
    fold ps1 in H2. simpl in H1, H2. rewrite length_app in H1. simpl in H1.
    rewrite Eh in H2. lia.
  - rewrite (fmap_insert_same id ps1 me pm) by done.
    subst ps1. by rewrite (fmap_insert_same id _ t target).
  - rewrite (fmap_insert_same alive ps1 me pm) by done.
    subst ps1. by rewrite (fmap_insert_same alive _ t target).
Qed.

(** ** The turn routines *)

Lemma with_state_id g : with_state (state g) g = g.
Proof. by destruct g. Qed.

Lemma run_control_board c g g1 : run_control c g = Ok g1 → same_board g g1.
Proof.
  unfold same_board.
  destruct c; simpl; unfold _end_turn, _do_attack, _do_skip, _advance_player;
    unfold mbind, outcome_bind; simpl;
    repeat case_bool_decide;
    try (destruct (next_alive_index _) as [idx| |]; try done);
    intros; simplify_eq; by split_and!.
Qed.

Lemma next_alive_index_turns g t :
  next_alive_index (with_state (with_turns t (state g)) g) = next_alive_index g.
Proof. reflexivity. Qed.

Lemma run_control_wf c g g1 : wf_game g → run_control c g = Ok g1 → wf_game g1.
Proof.
  intros Hwf. pose proof (next_alive_index_range g) as Hr.
  destruct Hwf as (Hn & Hc & Hids).
  unfold wf_game.
  destruct c; simpl; unfold _end_turn, _do_attack, _do_skip, _advance_player;
    rewrite ?next_alive_index_turns;
    unfold mbind, outcome_bind; simpl;
    repeat case_bool_decide;
    try (destruct (next_alive_index g) as [idx| |]; try done;
         specialize (Hr idx (conj Hn (conj Hc Hids)) eq_refl));
    intros; simplify_eq; simpl; (split; [done|]); (split; [lia|done]).
Qed.

Lemma run_control_total c g :
  wf_game g → Exists (λ p, alive p = true) (players (state g)) →
  ∃ g1, run_control c g = Ok g1.
Proof.
  intros Hwf Hex.
  destruct (next_alive_index_total g Hwf Hex) as (idx & E & _).
  destruct c; simpl; unfold _end_turn, _do_attack, _do_skip, _advance_player;
    rewrite ?next_alive_index_turns, ?E;
    unfold mbind, outcome_bind; simpl;
    repeat case_bool_decide; eauto.
Qed.

(** ** Legal actions *)

Lemma legal_cases g acts a :
  get_legal_actions g None = Ok acts → a ∈ acts →
  ∃ player, current_player (state g) = Ok player ∧
    (a = Pass
     ∨ (∃ ct, a = PlayCard ct None None
          ∧ ct ∈ [ATTACK; SKIP; SHUFFLE; SEE_THE_FUTURE]
          ∧ has_card player ct = true)
     ∨ (∃ other, a = PlayCard FAVOR (Some (id other)) None
          ∧ has_card player FAVOR = true
          ∧ other ∈ players (state g))
     ∨ (∃ cat_type other, a = PlayCatPair cat_type (id other)
          ∧ cat_type ∈ get_matching_cat_pairs player
          ∧ other ∈ players (state g))).
Proof.
  unfold get_legal_actions, current_player. simpl.
  destruct (Py.get _ _) as [player| |]; simpl; try done.
  intros ? Hin; simplify_eq. exists player. split; [done|].
  apply elem_of_cons in Hin as [->|Hin]; [by left|]. right.
  apply elem_of_app in Hin as [Hin|Hin].
  { left. apply list_elem_of_fmap in Hin as (ct & -> & Hct).
    apply list_elem_of_filter in Hct as [? ?]. eauto. }
  right. apply elem_of_app in Hin as [Hin|Hin].
  { left. destruct (has_card player FAVOR) eqn:Ef; [|by apply elem_of_nil in Hin].
    apply list_elem_of_fmap in Hin as (other & -> & Ho).
    apply list_elem_of_filter in Ho as [_ ?]. eauto. }
  right. apply list_elem_of_bind in Hin as (cat & Hin & Hcat).
  apply list_elem_of_fmap in Hin as (other & -> & Ho).
  apply list_elem_of_filter in Ho as [_ ?]. eauto.
Qed.

(** ** The anatomy of a legal action *)

Lemma pop_nonempty {A} (c : A) l : ∃ x l', Py.pop (c :: l) = Ok (x, l') ∧ c :: l = l' ++ [x].
Proof.
  destruct (proj2 (last_is_Some (c :: l))) as [x Hx]; [done|].
  apply last_Some in Hx as [l' E]. exists x, l'. split; [|done]. rewrite E. apply pop_snoc.
Qed.

Lemma exec_legal_shape g acts a r :
  ids_ok (players (state g)) →
  get_legal_actions g None = Ok acts → a ∈ acts →
  ∃ me player s1 c res r',
    Py.locate (players (state g)) (current_player_idx (state g)) = Ok me
    ∧ players (state g) !! me = Some player
    ∧ board_step g me s1
    ∧ execute_action g a r
      = (g1 ← run_control c (with_state s1 g); Ok (finish (id player) a g1, res, r')).
Proof.
  intros Hids Hl Hin.
  destruct (legal_cases _ _ _ Hl Hin) as (player & Hcur & Hcase).
  pose proof Hcur as Hcur'. unfold current_player in Hcur'.
  apply get_Ok in Hcur' as (me & Hnorm & Hme).
  apply locate_Ok in Hnorm as Hloc.
  exists me, player.
  unfold execute_action. rewrite Hloc, Hcur.
  destruct Hcase as [->|[(ct & -> & Hct & Hhas)|[(other & -> & Hhas & Ho)|(cat & other & -> & Hcat & Ho)]]].
  - (* Pass *)
    unfold _do_draw. rewrite Hloc, Hcur. unfold mbind, outcome_bind.
    destruct (deck (state g)) as [|c0 d0] eqn:Ed.
    { exists (state g), CEnd. eexists _, _. split_and!; [done|done| |].
      - unfold board_step, total_cards. by split_and!; auto.
      - rewrite with_state_id. simpl. destruct (_end_turn g); reflexivity. }
    destruct (pop_nonempty c0 d0) as (card & deck' & -> & Edk).
    cbn iota beta.
    assert (length (deck (state g)) = S (length deck')) as Hlen.
    { rewrite Ed, Edk, length_app. simpl. lia. }
    clear Ed Edk.
    destruct (is_type EXPLODING_KITTEN card) eqn:Ek.
    + destruct (has_card player DEFUSE) eqn:Edf.
      * destruct (remove_card_has _ _ Edf) as (c & h & -> & Hc & Hp).
        proj_simpl.
        destruct (randint_Ok 0 (Z.of_nat (length deck')) r) as (pos & r' & -> & _); [lia|].
        shape_with _end_turn CEnd.
        unfold board_step, total_cards. proj_simpl.
        pose proof (hand_total_insert _ _ _ (set_hand h player) Hme) as Ht.
        rewrite Hp in Ht. simpl in Ht.
        rewrite length_py_insert, length_app. simpl.
        rewrite !(fmap_insert_same _ _ _ _ _ Hme) by done.
        split_and!; auto; lia.
      * shape_with _end_turn CEnd.
        unfold board_step, total_cards. proj_simpl.
        pose proof (hand_total_insert _ _ _ (set_alive false player) Hme) as Ht.
        simpl in Ht. rewrite length_app. simpl.
        rewrite (fmap_insert_same id _ _ _ _ Hme) by done.
        rewrite (list_fmap_insert alive). simpl.
        split_and!; auto; lia.
    + shape_with _end_turn CEnd.
      unfold board_step, total_cards. proj_simpl.
      pose proof (hand_total_insert _ _ _ (set_hand (hand player ++ [card]) player) Hme) as Ht.
      simpl in Ht. rewrite length_app in Ht. simpl in Ht.
      rewrite !(fmap_insert_same _ _ _ _ _ Hme) by done.
      split_and!; auto; lia.
  - (* a single card: Attack, Skip, Shuffle, See the Future *)
    unfold mbind, outcome_bind.
    destruct (remove_card_has _ _ Hhas) as (c & h & -> & Hc & Hp).
    pose proof (hand_total_insert _ _ _ (set_hand h player) Hme) as Ht.
    rewrite Hp in Ht. simpl in Ht.
    assert (board_step g me
              (with_discard (discard (state g) ++ [Some c])
                 (with_players (<[me:=set_hand h player]> (players (state g))) (state g))))
      as Hboard.
    { unfold board_step, total_cards. proj_simpl. rewrite length_app. simpl.
      rewrite !(fmap_insert_same _ _ _ _ _ Hme) by done.
      split_and!; auto; lia. }
    repeat (apply elem_of_cons in Hct as [->|Hct]); [..|by apply elem_of_nil in Hct].
    + shape_with _do_attack CAttack. exact Hboard.
    + shape_with _do_skip CSkip. exact Hboard.
    + unfold shuffle_deck. proj_simpl.
      destruct (shuffle (deck (state g)) r) as [d r'] eqn:Es.
      apply shuffle_eq_Permutation in Es.
      eexists _, CStay, _, _. split_and!; [done|done| |reflexivity].
      unfold board_step, total_cards in *. proj_simpl. rewrite Es.
      exact Hboard.
    + eexists _, CStay, _, _. split_and!; [done|done| |reflexivity].
      exact Hboard.
  - (* Favor *)
    unfold mbind, outcome_bind.
    destruct (remove_card_has _ _ Hhas) as (c & h & -> & Hc & Hp).
    pose proof (hand_total_insert _ _ _ (set_hand h player) Hme) as Ht.
    rewrite Hp in Ht. simpl in Ht.
    set (s1 := with_discard (discard (state g) ++ [Some c])
                 (with_players (<[me:=set_hand h player]> (players (state g))) (state g))).
    assert (id <$> players s1 = id <$> players (state g)) as Hid1.
    { subst s1. proj_simpl. by rewrite (fmap_insert_same _ _ _ _ _ Hme). }
    pose proof (ids_ok_fmap _ _ Hid1 Hids) as Hids1.
    apply list_elem_of_lookup in Ho as [t Hto].
    assert (length (players s1) = length (players (state g))) as Hlen1.
    { subst s1. proj_simpl. by rewrite length_insert. }
    pose proof (lookup_lt_Some _ _ _ Hto) as Hlt.
    pose proof (lookup_lt_Some _ _ _ Hme) as Hmelt.
    destruct (lookup_lt_is_Some_2 (players s1) t) as [tg Htg]; [lia|].
    destruct (ids_ok_get _ _ _ Hids1 Htg) as [_ Hloct].
    rewrite (ids_ok_lookup _ _ _ Hids1 Htg), <- (ids_ok_lookup _ _ _ Hids Hto) in Hloct.
    destruct (steal_from_spec s1 me (id other) r t tg Hloct Htg)
      as (s2 & stolen & r' & -> & Hs2 & Hid2 & Hal2 & Hdk & Hdc & ? & ? & ? & ? & ?); [lia|].
    assert (board_step g me s2) as Hboard.
    { unfold board_step, total_cards. rewrite Hs2, Hid2, Hal2, Hdk, Hdc. subst s1. proj_simpl.
      rewrite length_app. simpl.
      rewrite !(fmap_insert_same _ _ _ _ _ Hme) by done.
      split_and!; auto; lia. }
    destruct stolen; eexists s2, CStay, _, _; (split_and!; [done|done|done|reflexivity]).
  - (* cat pair *)
    unfold mbind, outcome_bind.
    destruct (remove_pair player cat (matching_pair_count _ _ Hcat))
      as (c2 & h & E2 & Hlen).
    destruct (remove_card player cat) as [o1 p1]. simpl in E2. rewrite E2.
    pose proof (hand_total_insert _ _ _ (set_hand h player) Hme) as Ht.
    simpl in Ht.
    set (s1 := with_discard
                 (discard (state g) ++ [Some (mkCard cat); Some (mkCard cat)])
                 (with_players (<[me:=set_hand h player]> (players (state g))) (state g))).
    assert (id <$> players s1 = id <$> players (state g)) as Hid1.
    { subst s1. proj_simpl. by rewrite (fmap_insert_same _ _ _ _ _ Hme). }
    pose proof (ids_ok_fmap _ _ Hid1 Hids) as Hids1.
    apply list_elem_of_lookup in Ho as [t Hto].
    assert (length (players s1) = length (players (state g))) as Hlen1.
    { subst s1. proj_simpl. by rewrite length_insert. }
    pose proof (lookup_lt_Some _ _ _ Hto) as Hlt.
    pose proof (lookup_lt_Some _ _ _ Hme) as Hmelt.
    destruct (lookup_lt_is_Some_2 (players s1) t) as [tg Htg]; [lia|].
    destruct (ids_ok_get _ _ _ Hids1 Htg) as [_ Hloct].
    rewrite (ids_ok_lookup _ _ _ Hids1 Htg), <- (ids_ok_lookup _ _ _ Hids Hto) in Hloct.
    destruct (steal_from_spec s1 me (id other) r t tg Hloct Htg)
      as (s2 & stolen & r' & -> & Hs2 & Hid2 & Hal2 & Hdk & Hdc & ? & ? & ? & ? & ?); [lia|].
    assert (board_step g me s2) as Hboard.
    { unfold board_step, total_cards. rewrite Hs2, Hid2, Hal2, Hdk, Hdc. subst s1. proj_simpl.
      rewrite length_app. simpl.
      rewrite !(fmap_insert_same _ _ _ _ _ Hme) by done.
      split_and!; auto; lia. }
    destruct stolen; eexists s2, CStay, _, _; (split_and!; [done|done|done|reflexivity]).
Qed.
(** ** Recording the action and checking for a winner *)

Lemma check_game_over_board g :
  num_players (_check_game_over g) = num_players g
  ∧ action_history (_check_game_over g) = action_history g
  ∧ players (state (_check_game_over g)) = players (state g)
  ∧ deck (state (_check_game_over g)) = deck (state g)
  ∧ discard (state (_check_game_over g)) = discard (state g)
  ∧ current_player_idx (state (_check_game_over g)) = current_player_idx (state g)
  ∧ turns_remaining (state (_check_game_over g)) = turns_remaining (state g)
  ∧ top_three_known_by (state (_check_game_over g)) = top_three_known_by (state g).
Proof.
  unfold _check_game_over. destruct (alive_players (state g)) as [|p [|q l]]; by split_and!.
Qed.

Lemma check_game_over_flag g :
  (length (alive_players (state g)) = 1
   ∧ game_over (state (_check_game_over g)) = true
   ∧ is_Some (winner (state (_check_game_over g))))
  ∨ (length (alive_players (state g)) ≠ 1
     ∧ game_over (state (_check_game_over g)) = game_over (state g)
     ∧ winner (state (_check_game_over g)) = winner (state g)).
Proof.
  unfold _check_game_over. destruct (alive_players (state g)) as [|p [|q l]]; simpl.
  - right. by split_and!.
  - left. by split_and!.
  - right. by split_and!.
Qed.

(** ** Counting the living *)

Lemma alive_players_flags s :
  length (alive_players s) = length (filter (λ b, b = true) (alive <$> players s)).
Proof.
  unfold alive_players. induction (players s) as [|p ps IH]; [done|].
  rewrite fmap_cons, !filter_cons. repeat case_decide; simpl; try done; by rewrite IH.
Qed.

Lemma flags_kill (bs : list bool) (i : nat) :
  length (filter (λ b, b = true) bs)
  ≤ S (length (filter (λ b, b = true) (<[i:=false]> bs))).
Proof.
  destruct (decide (i < length bs)) as [Hlt|Hge].
  - destruct (lookup_lt_is_Some_2 bs i Hlt) as [b Hb].
    rewrite insert_take_drop by done.
    rewrite <- (take_drop_middle bs i b Hb) at 1.
    rewrite !filter_app, !length_app, !filter_cons.
    repeat case_decide; simpl; try done; lia.
  - rewrite list_insert_ge by lia. lia.
Qed.

Lemma ids_NoDup ps : ids_ok ps → NoDup (id <$> ps).
Proof.
  unfold ids_ok. intros ->. apply NoDup_fmap; [apply _|apply NoDup_seq].
Qed.

(** Two alive players: one of them is not the one to move. *)
Lemma two_alive_other g :
  ids_ok (players (state g)) →
  2 ≤ length (alive_players (state g)) →
  other_alive g.
Proof.
  intros Hids H2. unfold other_alive, alive_players in *.
  pose proof (ids_NoDup _ Hids) as Hnd.
  assert (NoDup (id <$> filter (λ p, alive p = true) (players (state g)))) as Hnd'.
  { eapply sublist_NoDup; [exact Hnd|]. apply fmap_sublist, sublist_filter. }
  destruct (filter _ _) as [|x [|y l]] eqn:E; simpl in H2; try lia.
  assert (x ∈ filter (λ p, alive p = true) (players (state g))) as Hx by (rewrite E; apply elem_of_cons; by left).
  assert (y ∈ filter (λ p, alive p = true) (players (state g))) as Hy by (rewrite E; apply elem_of_cons; right; apply elem_of_cons; by left).
  apply list_elem_of_filter in Hx as [Hxa Hx]. apply list_elem_of_filter in Hy as [Hya Hy].
  rewrite !fmap_cons in Hnd'. apply NoDup_cons in Hnd' as [Hxy _].
  apply Exists_exists.
  destruct (decide (id x = current_player_idx (state g))) as [Heq|Hne].
  - exists y. split; [done|]. split; [done|].
    intros Hy'. apply Hxy. rewrite Heq, <- Hy'. apply elem_of_cons. by left.
  - exists x. split; [done|]. done.
Qed.

(** ** One legal action *)

Lemma finish_total pid a g1 : total_cards (finish pid a g1) = total_cards g1.
Proof.
  unfold finish, total_cards.
  destruct (check_game_over_board
              (mkGame (num_players g1) (state g1) (action_history g1 ++ [(pid, a)])))
    as (_ & _ & -> & -> & -> & _). done.
Qed.

Lemma finish_wf pid a g1 : wf_game g1 → wf_game (finish pid a g1).
Proof.
  unfold finish, wf_game.
  destruct (check_game_over_board
              (mkGame (num_players g1) (state g1) (action_history g1 ++ [(pid, a)])))
    as (-> & _ & -> & _ & _ & -> & _). done.
Qed.

Lemma finish_history pid a g1 :
  action_history (finish pid a g1) = action_history g1 ++ [(pid, a)].
Proof.
  unfold finish.
  by destruct (check_game_over_board
              (mkGame (num_players g1) (state g1) (action_history g1 ++ [(pid, a)])))
    as (_ & -> & _).
Qed.

Lemma control_total_cards g me s1 c g1 :
  board_step g me s1 → run_control c (with_state s1 g) = Ok g1 →
  total_cards g1 = total_cards g.
Proof.
  intros (Ht & _) Hrun. apply run_control_board in Hrun as (_ & _ & Hp & Hd & Hdc & _).
  unfold total_cards at 1. rewrite Hp, Hd, Hdc. exact Ht.
Qed.

(** Partial correctness: a legal action that returns conserves the cards
    and the numbering. *)
Lemma exec_legal_conserves g acts a r g' res r' :
  ids_ok (players (state g)) →
  get_legal_actions g None = Ok acts → a ∈ acts →
  execute_action g a r = Ok (g', res, r') →
  total_cards g' = total_cards g ∧ ids_ok (players (state g')).
Proof.
  intros Hids Hl Hin Hex.
  destruct (exec_legal_shape g acts a r Hids Hl Hin)
    as (me & player & s1 & c & res0 & r0 & _ & _ & Hboard & Heq).
  rewrite Heq in Hex. unfold mbind, outcome_bind in Hex.
  destruct (run_control c (with_state s1 g)) as [g1| |] eqn:Hrun; [|done|done].
  simplify_eq. split.
  - rewrite finish_total. by eapply control_total_cards.
  - unfold finish.
    destruct (check_game_over_board
              (mkGame (num_players g1) (state g1) (action_history g1 ++ [(id player, a)])))
      as (_ & _ & -> & _). simpl.
    apply run_control_board in Hrun as (_ & _ & -> & _). simpl.
    destruct Hboard as (_ & Hid & _). by eapply ids_ok_fmap.
Qed.

Lemma wf_locate g me :
  wf_game g →
  Py.locate (players (state g)) (current_player_idx (state g)) = Ok me →
  me = Z.to_nat (current_player_idx (state g)).
Proof.
  intros (Hn & Hc & _) Hloc. apply locate_Ok in Hloc.
  rewrite norm_index_nonneg in Hloc by lia. by simplify_eq.
Qed.

(** Total correctness: on a well-formed game with another player alive, a
    legal action returns. *)
Lemma exec_legal_run g acts a r :
  wf_game g → other_alive g →
  get_legal_actions g None = Ok acts → a ∈ acts →
  ∃ me player s1 c g1 res r',
    players (state g) !! me = Some player
    ∧ me = Z.to_nat (current_player_idx (state g))
    ∧ board_step g me s1
    ∧ run_control c (with_state s1 g) = Ok g1
    ∧ wf_game g1
    ∧ execute_action g a r = Ok (finish (id player) a g1, res, r').
Proof.
  intros Hwf Hother Hl Hin. pose proof Hwf as (Hn & Hc & Hids).
  destruct (exec_legal_shape g acts a r Hids Hl Hin)
    as (me & player & s1 & c & res & r' & Hloc & Hme & Hboard & Heq).
  pose proof (wf_locate _ _ Hwf Hloc) as Hmeq.
  pose proof Hboard as (_ & Hid & Hal & Hcur & _).
  assert (length (players s1) = length (players (state g))) as Hlen.
  { by rewrite <- (length_fmap id (players s1)), Hid, length_fmap. }
  assert (wf_game (with_state s1 g)) as Hwf1.
  { unfold wf_game. simpl. rewrite Hlen, Hcur. split_and!; [done|lia|lia|].
    by eapply ids_ok_fmap. }
  assert (Exists (λ p, alive p = true) (players (state (with_state s1 g)))) as Hex.
  { simpl. apply Exists_exists in Hother as (q & Hq & Hqa & Hqid).
    apply list_elem_of_lookup in Hq as [j Hj].
    assert (j ≠ me) as Hjm.
    { intros ->. apply Hqid. rewrite (ids_ok_lookup _ _ _ Hids Hj). lia. }
    assert ((alive <$> players s1) !! j = Some true) as Hflag.
    { destruct Hal as [->| ->]; rewrite ?list_lookup_insert_ne by done;
        by rewrite list_lookup_fmap, Hj; simpl; rewrite Hqa. }
    rewrite list_lookup_fmap in Hflag.
    destruct (players s1 !! j) as [q1|] eqn:Hq1; [|done].
    apply Exists_exists. exists q1. split; [by eapply list_elem_of_lookup_2|].
    simpl in Hflag. congruence. }
  destruct (run_control_total c _ Hwf1 Hex) as [g1 Hrun].
  exists me, player, s1, c, g1, res, r'.
  split_and!; try done.
  - by eapply run_control_wf.
  - rewrite Heq, Hrun. reflexivity.
Qed.

(** ** Playouts *)

Lemma alive_after_step g me s1 :
  board_step g me s1 →
  length (alive_players (state g)) ≤ S (length (alive_players s1)).
Proof.
  intros (_ & _ & Hal & _). rewrite !alive_players_flags.
  destruct Hal as [->| ->]; [lia|apply flags_kill].
Qed.

Lemma playable_step g acts a r :
  playable g → game_over (state g) = false →
  get_legal_actions g None = Ok acts → a ∈ acts →
  ∃ g' res r', execute_action g a r = Ok (g', res, r')
    ∧ playable g'
    ∧ length (action_history g') = S (length (action_history g)).
Proof.
  intros [Hwf Hplay] Hgo Hl Hin. destruct (Hplay Hgo) as [H2 Hw].
  pose proof Hwf as (_ & _ & Hids).
  destruct (exec_legal_run g acts a r Hwf (two_alive_other _ Hids H2) Hl Hin)
    as (me & player & s1 & c & g1 & res & r' & Hme & _ & Hboard & Hrun & Hwf1 & Hex).
  exists (finish (id player) a g1), res, r'. split; [done|].
  pose proof (alive_after_step _ _ _ Hboard) as Hal.
  pose proof Hboard as (_ & _ & _ & _ & _ & Hgo1 & Hw1).
  apply run_control_board in Hrun as (_ & Hh & Hp & _ & _ & Hgo2 & Hw2 & _).
  simpl in *. split; [split|].
  - by apply finish_wf.
  - unfold finish.
    set (g2 := mkGame (num_players g1) (state g1) (action_history g1 ++ [(id player, a)])).
    destruct (check_game_over_board g2) as (_ & _ & Hpl & _).
    destruct (check_game_over_flag g2) as [(_ & -> & _)|(Hne & -> & ->)]; [done|].
    subst g2. simpl in *. intros _.
    unfold alive_players in *. rewrite Hpl. simpl. rewrite Hp in *.
    split; [lia|congruence].
  - rewrite finish_history, Hh, length_app. simpl. lia.
Qed.

Lemma legal_actions_playable g :
  wf_game g → ∃ acts, get_legal_actions g None = Ok acts ∧ acts ≠ [].
Proof.
  intros (Hn & Hc & _).
  destruct (get_nonneg (players (state g)) (current_player_idx (state g)))
    as (p & _ & Hp & _); [lia|].
  unfold get_legal_actions. simpl. rewrite Hp. simpl. eauto.
Qed.

Lemma random_playout_loop_spec fuel : ∀ g moves max_moves r,
  playable g → Z.to_nat (max_moves - moves) ≤ fuel →
  ∃ g' moves' r', random_playout_loop fuel g moves max_moves r = Ok (g', moves', r')
    ∧ playable g'
    ∧ (moves ≤ moves')%Z ∧ (moves' ≤ Z.max moves max_moves)%Z
    ∧ Z.of_nat (length (action_history g'))
      = (Z.of_nat (length (action_history g)) + (moves' - moves))%Z.
Proof.
  induction fuel as [|fuel IH]; intros g moves max_moves r Hplay Hfuel.
  - simpl. destruct (negb (is_over g)) eqn:Hov; simpl.
    + rewrite bool_decide_false by lia. exists g, moves, r. split_and!; auto; lia.
    + exists g, moves, r. split_and!; auto; lia.
  - cbn [random_playout_loop].
    destruct (negb (is_over g)) eqn:Hov; simpl;
      [case_bool_decide as Hlt|]; try (exists g, moves, r; split_and!; auto; lia).
    destruct (legal_actions_playable g (proj1 Hplay)) as (acts & Hl & Hne).
    rewrite Hl. simpl. destruct acts as [|a0 acts0] eqn:Ea; [done|]. rewrite <- Ea in *.
    destruct (choice_Ok acts r Hne) as (a & r1 & -> & Hin). simpl.
    destruct (playable_step g acts a r1 Hplay) as (g' & res & r2 & -> & Hplay' & Hhist);
      [by destruct (is_over g) eqn:E; unfold is_over in E|done|done|].
    simpl.
    destruct (IH g' (moves + 1)%Z max_moves r2 Hplay') as (g'' & m'' & r'' & -> & ? & ? & ? & Hh);
      [lia|].
    exists g'', m'', r''. split_and!; auto; lia.
Qed.

Lemma find_elem_of {A} (P : A → bool) (l : list A) a : find P l = Some a → a ∈ l.
Proof.
  induction l as [|x l IH]; simpl; [done|].
  destruct (P x); intros; simplify_eq; [apply elem_of_cons; by left|].
  apply elem_of_cons. right. auto.
Qed.

Lemma first_by_chance_elem_of P l r a r' :
  first_by_chance P l r = (Some a, r') → a ∈ l.
Proof.
  revert r. induction l as [|x l IH]; intros r; cbn [first_by_chance]; [done|].
  destruct (P x).
  - destruct (random_lt r) as [[] r1].
    + intros; simplify_eq. apply elem_of_cons. by left.
    + intros. apply elem_of_cons. right. eauto.
  - intros. apply elem_of_cons. right. eauto.
Qed.

(** The heuristic always picks one of the actions it was offered. *)
Lemma select_heuristic_action_Ok g acts r player :
  current_player (state g) = Ok player → acts ≠ [] →
  ∃ a r', select_heuristic_action g acts r = Ok (a, r') ∧ a ∈ acts.
Proof.
  intros Hcur Hne. unfold select_heuristic_action. rewrite Hcur. simpl.
  match goal with |- context [match ?e with Some _ => _ | None => _ end] =>
    destruct e as [a|] eqn:E1 end.
  { exists a, r. split; [done|]. repeat case_match; try done; by eapply find_elem_of. }
  match goal with |- context [match ?e with Some _ => _ | None => _ end] =>
    destruct e as [a|] eqn:E2 end.
  { exists a, r. split; [done|]. repeat case_match; try done; by eapply find_elem_of. }
  match goal with |- context [let '(_, _) := ?e in _] =>
    destruct e as [[a|] r1] eqn:E3 end.
  { exists a, r1. split; [done|].
    repeat case_match; try done; simplify_eq; by eapply first_by_chance_elem_of. }
  destruct (first_by_chance (is_play_of [ATTACK]) acts r1) as [[a|] r2] eqn:E4.
  { exists a, r2. split; [done|]. by eapply first_by_chance_elem_of. }
  destruct (first_by_chance is_cat_pair acts r2) as [[a|] r3] eqn:E5.
  { exists a, r3. split; [done|]. by eapply first_by_chance_elem_of. }
  by apply choice_Ok.
Qed.

Lemma heuristic_playout_loop_spec fuel : ∀ g moves max_moves r,
  playable g → Z.to_nat (max_moves - moves) ≤ fuel →
  ∃ g' moves' r', heuristic_playout_loop fuel g moves max_moves r = Ok (g', moves', r')
    ∧ playable g'
    ∧ (moves ≤ moves')%Z ∧ (moves' ≤ Z.max moves max_moves)%Z
    ∧ Z.of_nat (length (action_history g'))
      = (Z.of_nat (length (action_history g)) + (moves' - moves))%Z.
Proof.
  induction fuel as [|fuel IH]; intros g moves max_moves r Hplay Hfuel.
  - simpl. destruct (negb (is_over g)) eqn:Hov; simpl.
    + rewrite bool_decide_false by lia. exists g, moves, r. split_and!; auto; lia.
    + exists g, moves, r. split_and!; auto; lia.
  - cbn [heuristic_playout_loop].
    destruct (negb (is_over g)) eqn:Hov; simpl;
      [case_bool_decide as Hlt|]; try (exists g, moves, r; split_and!; auto; lia).
    destruct (legal_actions_playable g (proj1 Hplay)) as (acts & Hl & Hne).
    rewrite Hl. simpl. destruct acts as [|a0 acts0] eqn:Ea; [done|]. rewrite <- Ea in *.
    destruct (legal_cases g acts a0 Hl) as (player & Hcur & _);
      [rewrite Ea; apply elem_of_cons; by left|].
    destruct (select_heuristic_action_Ok g acts r player Hcur Hne) as (a & r1 & -> & Hin).
    simpl.
    destruct (playable_step g acts a r1 Hplay) as (g' & res & r2 & -> & Hplay' & Hhist);
      [by destruct (is_over g) eqn:E; unfold is_over in E|done|done|].
    simpl.
    destruct (IH g' (moves + 1)%Z max_moves r2 Hplay') as (g'' & m'' & r'' & -> & ? & ? & ? & Hh);
      [lia|].
    exists g'', m'', r''. split_and!; auto; lia.
Qed.

(** More fuel never changes a result. *)
Lemma random_playout_loop_more fuel : ∀ g moves max_moves r res,
  random_playout_loop fuel g moves max_moves r = Ok res →
  random_playout_loop (S fuel) g moves max_moves r = Ok res.
Proof.
  induction fuel as [|fuel IH]; intros g moves max_moves r res.
  - cbn [random_playout_loop]. destruct (_ && _); [|done].
    unfold mbind, outcome_bind.
    destruct (get_legal_actions g None) as [[|a acts]| |]; done.
  - intros H. cbn [random_playout_loop] in H. cbn [random_playout_loop].
    destruct (_ && _); [|done].
    unfold mbind, outcome_bind in *.
    destruct (get_legal_actions g None) as [[|a acts]| |]; try done.
    destruct (choice (a :: acts) r) as [[action r1]| |]; try done.
    destruct (execute_action g action r1) as [[[g' res'] r2]| |]; try done.
    by apply IH.
Qed.

Lemma random_playout_loop_fuel fuel fuel' g moves max_moves r res :
  fuel ≤ fuel' →
  random_playout_loop fuel g moves max_moves r = Ok res →
  random_playout_loop fuel' g moves max_moves r = Ok res.
Proof.
  induction 1 as [|fuel' _ IH]; [done|].
  intros H. by apply random_playout_loop_more, IH.
Qed.

Lemma heuristic_playout_loop_more fuel : ∀ g moves max_moves r res,
  heuristic_playout_loop fuel g moves max_moves r = Ok res →
  heuristic_playout_loop (S fuel) g moves max_moves r = Ok res.
Proof.
  induction fuel as [|fuel IH]; intros g moves max_moves r res.
  - cbn [heuristic_playout_loop]. destruct (_ && _); [|done].
    unfold mbind, outcome_bind.
    destruct (get_legal_actions g None) as [[|a acts]| |]; done.
  - intros H. cbn [heuristic_playout_loop] in H. cbn [heuristic_playout_loop].
    destruct (_ && _); [|done].
    unfold mbind, outcome_bind in *.
    destruct (get_legal_actions g None) as [[|a acts]| |]; try done.
    destruct (select_heuristic_action g (a :: acts) r) as [[action r1]| |]; try done.
    destruct (execute_action g action r1) as [[[g' res'] r2]| |]; try done.
    by apply IH.
Qed.

Lemma heuristic_playout_loop_fuel fuel fuel' g moves max_moves r res :
  fuel ≤ fuel' →
  heuristic_playout_loop fuel g moves max_moves r = Ok res →
  heuristic_playout_loop fuel' g moves max_moves r = Ok res.
Proof.
  induction 1 as [|fuel' _ IH]; [done|].
  intros H. by apply heuristic_playout_loop_more, IH.
Qed.

(** * The claims *)

Lemma example_game_wf : wf_game example_game.
Proof. unfold wf_game. simpl. split_and!; [done|lia|lia|reflexivity]. Qed.

Lemma example_game_playable : playable example_game.
Proof.
  split; [apply example_game_wf|]. intros _. split; [|done].
  vm_compute. lia.
Qed.

(** ** C9: playouts are bounded *)

(** C9.  From every playable state, each playout function returns one
    result (no exception, no non-termination) for every fuel that covers
    [max_moves]; it executes at most [max_moves] actions (the action
    history grows by the final value of [moves], which is at most
    [max (0, max_moves)]); and when the game is still not over at the end
    the value returned is [None]. *)
Theorem playouts_bounded (g : Game) (player_id max_moves : Z) (r : Rng) :
  playable g →
  (∃ w g' moves r',
      (∀ fuel, Z.to_nat max_moves ≤ fuel →
         simulate_random_playout fuel g max_moves r = Ok (w, g', moves, r'))
      ∧ (0 ≤ moves ≤ Z.max 0 max_moves)%Z
      ∧ length (action_history g') = length (action_history g) + Z.to_nat moves
      ∧ (is_over g' = false → w = None))
  ∧ (∃ w g' moves r',
      (∀ fuel, Z.to_nat max_moves ≤ fuel →
         simulate_with_heuristics fuel g player_id max_moves r = Ok (w, g', moves, r'))
      ∧ (0 ≤ moves ≤ Z.max 0 max_moves)%Z
      ∧ length (action_history g') = length (action_history g) + Z.to_nat moves
      ∧ (is_over g' = false → w = None)).
Proof.
  intros Hplay. split.
  - destruct (random_playout_loop_spec (Z.to_nat max_moves) g 0 max_moves r Hplay)
      as (g' & moves & r' & E & [_ Hp'] & ? & ? & ?); [by rewrite Z.sub_0_r|].
    exists (get_winner g'), g', moves, r'. split_and!; [|lia|lia|lia|].
    + intros fuel Hfuel. unfold simulate_random_playout.
      by rewrite (random_playout_loop_fuel _ fuel _ _ _ _ _ Hfuel E).
    + intros Hov. by destruct (Hp' Hov).
  - destruct (heuristic_playout_loop_spec (Z.to_nat max_moves) g 0 max_moves r Hplay)
      as (g' & moves & r' & E & [_ Hp'] & ? & ? & ?); [by rewrite Z.sub_0_r|].
    exists (get_winner g'), g', moves, r'. split_and!; [|lia|lia|lia|].
    + intros fuel Hfuel. unfold simulate_with_heuristics.
      by rewrite (heuristic_playout_loop_fuel _ fuel _ _ _ _ _ Hfuel E).
    + intros Hov. by destruct (Hp' Hov).
Qed.

Lemma playouts_bounded_witness :
  playable example_game
  ∧ ∃ w g' moves r',
      (∀ fuel, Z.to_nat 3 ≤ fuel →
         simulate_random_playout fuel example_game 3 rng_zero = Ok (w, g', moves, r'))
      ∧ (0 ≤ moves ≤ Z.max 0 3)%Z
      ∧ length (action_history g') = length (action_history example_game) + Z.to_nat moves
      ∧ (is_over g' = false → w = None).
Proof.
  split; [apply example_game_playable|].
  apply (playouts_bounded example_game 0 3 rng_zero). apply example_game_playable.
Defined.

(** ** C3: no legality check *)

Lemma insert_kitten_not_legal g acts position :
  get_legal_actions g None = Ok acts → InsertExplodingKitten position ∉ acts.
Proof.
  intros Hl Hin. destruct (legal_cases _ _ _ Hl Hin) as (p & _ & Hc).
  destruct Hc as [?|[(? & ? & _)|[(? & ? & _)|(? & ? & ? & _)]]]; done.
Qed.

Lemma insert_kitten_applied g player position r :
  current_player (state g) = Ok player →
  ∃ g' res, execute_action g (InsertExplodingKitten position) r = Ok (g', res, r)
    ∧ deck (state g') = Py.insert (deck (state g)) position (mkCard EXPLODING_KITTEN)
    ∧ players (state g') = players (state g)
    ∧ discard (state g') = discard (state g)
    ∧ top_three_known_by (state g') = top_three_known_by (state g).
Proof.
  intros Hcur. unfold execute_action. rewrite Hcur.
  pose proof Hcur as Hcur'. apply get_Ok in Hcur' as (me & Hn & _).
  apply locate_Ok in Hn as ->. simpl.
  eexists _, _. split; [reflexivity|].
  match goal with |- context [_check_game_over ?g2] =>
    destruct (check_game_over_board g2) as (_ & _ & -> & -> & -> & _ & _ & ->) end.
  done.
Qed.

Lemma legal_actions_current g acts :
  get_legal_actions g None = Ok acts →
  ∃ player, current_player (state g) = Ok player ∧ Pass ∈ acts.
Proof.
  unfold get_legal_actions, current_player. simpl.
  destruct (Py.get _ _) as [player| |]; simpl; [|done|done].
  intros; simplify_eq. exists player. split; [done|]. apply elem_of_cons. by left.
Qed.

(** C3 (amended).  [execute_action] checks nothing and knows no
    [IllegalActionError].  On a well-formed game in which a player other
    than the one to move is alive, every action of [get_legal_actions]
    returns normally; an action outside the list is applied as written:
    [InsertExplodingKitten] is never legal, yet it returns normally and
    puts a new kitten into the deck. *)
Theorem execute_action_unchecked (g : Game) (acts : list Action) (r : Rng) :
  wf_game g → other_alive g →
  get_legal_actions g None = Ok acts →
  (∀ a, a ∈ acts → ∃ g' res r', execute_action g a r = Ok (g', res, r'))
  ∧ (∀ position,
       (InsertExplodingKitten position ∉ acts)
       ∧ ∃ g' res,
           execute_action g (InsertExplodingKitten position) r = Ok (g', res, r)
           ∧ deck (state g')
             = Py.insert (deck (state g)) position (mkCard EXPLODING_KITTEN)).
Proof.
  intros Hwf Hother Hl. split.
  - intros a Hin.
    destruct (exec_legal_run g acts a r Hwf Hother Hl Hin)
      as (me & player & s1 & c & g1 & res & r' & _ & _ & _ & _ & _ & Hex).
    eauto.
  - intros position. split; [by eapply insert_kitten_not_legal|].
    destruct (legal_actions_current g acts Hl) as (player & Hcur & _).
    destruct (insert_kitten_applied g player position r Hcur) as (g' & res & E & Hd & _).
    eauto.
Qed.

Lemma example_game_other_alive : other_alive example_game.
Proof. unfold other_alive. simpl. apply Exists_cons_tl, Exists_cons_hd. by split. Qed.

Lemma execute_action_unchecked_witness :
  wf_game example_game ∧ other_alive example_game
  ∧ get_legal_actions example_game None = Ok [Pass; PlayCard ATTACK None None]
  ∧ ∀ a, a ∈ [Pass; PlayCard ATTACK None None] →
      ∃ g' res r', execute_action example_game a rng_zero = Ok (g', res, r').
Proof.
  split; [apply example_game_wf|]. split; [apply example_game_other_alive|].
  split; [reflexivity|].
  apply (execute_action_unchecked example_game [Pass; PlayCard ATTACK None None] rng_zero);
    [apply example_game_wf|apply example_game_other_alive|reflexivity].
Defined.

(** C3 as stated fails: the illegal [InsertExplodingKitten 0] is not
    rejected; it returns normally and the state has changed. *)
Lemma illegal_action_is_applied :
  get_legal_actions example_game None = Ok [Pass; PlayCard ATTACK None None]
  ∧ (InsertExplodingKitten 0 ∉ [Pass; PlayCard ATTACK None None])
  ∧ ∃ g' res r',
      execute_action example_game (InsertExplodingKitten 0) rng_zero = Ok (g', res, r')
      ∧ deck (state g') = mkCard EXPLODING_KITTEN :: deck (state example_game)
      ∧ state g' ≠ state example_game.
Proof.
  split; [reflexivity|]. split.
  { intros H. repeat (apply elem_of_cons in H as [H|H]; [done|]). by apply elem_of_nil in H. }
  eexists _, _, _. split; [reflexivity|]. split; [reflexivity|]. discriminate.
Qed.

(** ** C1: conservation of cards *)

Lemma deal_ids ps : ∀ dk ps' dk',
  deal ps dk = Ok (ps', dk') → id <$> ps' = id <$> ps.
Proof.
  induction ps as [|p ps IH]; intros dk ps' dk'; cbn [deal].
  - intros; by simplify_eq.
  - unfold mbind, outcome_bind.
    destruct (deal_hand 4 (hand p) dk) as [[h dk1]| |]; [|done|done].
    destruct (deal ps dk1) as [[ps'' dk2]| |] eqn:E; [|done|done].
    intros; simplify_eq. rewrite !fmap_cons. f_equal. by eapply IH.
Qed.

Lemma init_ids n r g r' : __init__ n r = Ok (g, r') → ids_ok (players (state g)).
Proof.
  unfold __init__, _setup_game.
  destruct (shuffle base_deck r) as [deck1 r1].
  unfold mbind, outcome_bind.
  destruct (deal _ deck1) as [[ps' deck2]| |] eqn:E; [|done|done].
  destruct (shuffle (deck2 ++ _) r1) as [deck4 r2].
  destruct (shuffle (deck4 ++ _) r2) as [deck6 r3].
  intros; simplify_eq. cbn [state players].
  apply deal_ids in E. eapply ids_ok_fmap; [exact E|].
  unfold ids_ok. rewrite <- list_fmap_compose, length_fmap, length_seq. done.
Qed.

Lemma reachable_conserves g0 g :
  ids_ok (players (state g0)) → reachable g0 g →
  ids_ok (players (state g)) ∧ total_cards g = total_cards g0.
Proof.
  intros Hids. induction 1 as [|g acts a r g' res r' _ [IHids IHt] Hl Hin Hex]; [done|].
  destruct (exec_legal_conserves g acts a r g' res r' IHids Hl Hin Hex) as [-> ?].
  done.
Qed.

(** C1 (amended).  In every state reached from a new game by LEGAL actions
    (actions offered by [get_legal_actions]) the total card count
    [len(deck) + sum of len(hand) + len(discard)] equals the count right
    after setup, and every [execute_action] call with a legal action
    leaves the count unchanged. *)
Theorem card_conservation (n : Z) (r0 r1 : Rng) (g0 g : Game) :
  __init__ n r0 = Ok (g0, r1) → reachable g0 g →
  total_cards g = total_cards g0
  ∧ ∀ acts a r g' res r',
      get_legal_actions g None = Ok acts → a ∈ acts →
      execute_action g a r = Ok (g', res, r') →
      total_cards g' = total_cards g.
Proof.
  intros Hinit Hreach. apply init_ids in Hinit.
  destruct (reachable_conserves g0 g Hinit Hreach) as [Hids Ht].
  split; [done|]. intros acts a r g' res r' Hl Hin Hex.
  by destruct (exec_legal_conserves g acts a r g' res r' Hids Hl Hin Hex).
Qed.

Lemma card_conservation_witness :
  __init__ 2 rng_zero = Ok (example_start, mkRng (λ _, 0) 124)
  ∧ reachable example_start example_after_pass
  ∧ total_cards example_after_pass = total_cards example_start.
Proof.
  assert (__init__ 2 rng_zero = Ok (example_start, mkRng (λ _, 0) 124)) as Hinit
    by (vm_compute; reflexivity).
  assert (reachable example_start example_after_pass) as Hreach.
  { eapply (reachable_step example_start example_start
              [Pass; PlayCard ATTACK None None; PlayCatPair CAT_RAINBOW_CAT 1] Pass
              (mkRng (λ _, 0) 124)).
    - apply reachable_start.
    - vm_compute; reflexivity.
    - apply elem_of_cons. by left.
    - vm_compute; reflexivity. }
  split; [exact Hinit|]. split; [exact Hreach|].
  apply (card_conservation 2 rng_zero (mkRng (λ _, 0) 124) example_start example_after_pass
           Hinit Hreach).
Defined.

(** C1 as stated fails: after setup, the call
    [execute_action(InsertExplodingKitten(0))] returns normally and the
    total has grown by one. *)
Lemma illegal_insert_adds_a_card :
  __init__ 2 rng_zero = Ok (example_start, mkRng (λ _, 0) 124)
  ∧ ∃ g' res r',
      execute_action example_start (InsertExplodingKitten 0) (mkRng (λ _, 0) 124)
      = Ok (g', res, r')
      ∧ total_cards example_start = 51
      ∧ total_cards g' = 52.
Proof.
  split; [vm_compute; reflexivity|].
  eexists _, _, _. split; [vm_compute; reflexivity|]. split; reflexivity.
Qed.

(** ** C6: setup *)

(** C6 (amended).  Setup validates nothing and raises no [ConfigError]: for
    every [num_players ≤ 11], also below 2, [__init__] succeeds; it creates
    [max(num_players, 0)] players, deals each of them four ordinary cards
    followed by one defuse, and puts exactly [max(num_players - 1, 0)]
    exploding kittens into the deck. *)
Theorem setup_without_validation (n : Z) (r : Rng) :
  (n ≤ 11)%Z →
  ∃ g r', __init__ n r = Ok (g, r')
    ∧ length (players (state g)) = Z.to_nat n
    ∧ (∀ i p, players (state g) !! i = Some p →
         ∃ h, hand p = h ++ [mkCard DEFUSE] ∧ length h = 4 ∧ Forall ordinary h)
    ∧ count_type EXPLODING_KITTEN (deck (state g)) = Z.to_nat (n - 1).
Proof.
  intros Hn.
  destruct (setup_spec n r Hn) as (g & r' & E & _ & _ & Hlen & Hhands & Hk & _).
  exists g, r'. split_and!; [done|done| |done].
  intros i p Hp. by destruct (Hhands i p Hp) as (_ & _ & ?).
Qed.

Lemma setup_without_validation_witness :
  (2 ≤ 11)%Z
  ∧ ∃ g r', __init__ 2 rng_zero = Ok (g, r')
      ∧ length (players (state g)) = Z.to_nat 2
      ∧ (∀ i p, players (state g) !! i = Some p →
           ∃ h, hand p = h ++ [mkCard DEFUSE] ∧ length h = 4 ∧ Forall ordinary h)
      ∧ count_type EXPLODING_KITTEN (deck (state g)) = Z.to_nat (2 - 1).
Proof.
  split; [lia|]. apply (setup_without_validation 2 rng_zero). lia.
Defined.

(** C6 as stated fails: with one player setup returns a game (one player,
    no kitten) instead of failing. *)
Lemma single_player_setup_succeeds :
  ∃ g r', __init__ 1 rng_zero = Ok (g, r')
    ∧ length (players (state g)) = 1
    ∧ count_type EXPLODING_KITTEN (deck (state g)) = 0.
Proof.
  eexists _, _. split; [vm_compute; reflexivity|]. split; reflexivity.
Qed.

(** Twelve players exhaust the 46 cards of the base deck: dealing pops
    from an empty list. *)
Lemma twelve_players_exhaust_deck : __init__ 12 rng_zero = Raise IndexError.
Proof. vm_compute. reflexivity. Qed.

(** ** C10: passing on an empty deck *)

Lemma end_turn_spec g :
  wf_game g → Exists (λ p, alive p = true) (players (state g)) →
  ∃ g1, _end_turn g = Ok g1
    ∧ same_board g g1
    ∧ if bool_decide (1 < turns_remaining (state g))%Z
      then turns_remaining (state g1) = (turns_remaining (state g) - 1)%Z
           ∧ current_player_idx (state g1) = current_player_idx (state g)
      else turns_remaining (state g1) = 1%Z
           ∧ next_alive_after (players (state g)) (current_player_idx (state g))
               (current_player_idx (state g1)).
Proof.
  intros Hwf Hex. destruct (next_alive_index_total g Hwf Hex) as (idx & E & Hnext).
  unfold _end_turn, _advance_player. rewrite next_alive_index_turns, E. simpl.
  repeat case_bool_decide; try lia; eexists; (split; [reflexivity|]); simpl;
    (split; [by unfold same_board|done]).
Qed.

(** C10.  On a well-formed game with a player alive, passing with an empty
    deck returns normally: nothing is drawn, the players (hands and alive
    flags), the deck and the discard pile are unchanged, and the turn ends:
    [turns_remaining] drops by one, or, when that reaches 0, is reset to 1
    with the next alive player to move. *)
Theorem empty_deck_pass (g : Game) (r : Rng) :
  wf_game g → Exists (λ p, alive p = true) (players (state g)) →
  deck (state g) = [] →
  ∃ g' res, execute_action g Pass r = Ok (g', res, r)
    ∧ ("draw", VNone) ∈ res
    ∧ players (state g') = players (state g)
    ∧ deck (state g') = []
    ∧ discard (state g') = discard (state g)
    ∧ if bool_decide (1 < turns_remaining (state g))%Z
      then turns_remaining (state g') = (turns_remaining (state g) - 1)%Z
           ∧ current_player_idx (state g') = current_player_idx (state g)
      else turns_remaining (state g') = 1%Z
           ∧ next_alive_after (players (state g)) (current_player_idx (state g))
               (current_player_idx (state g')).
Proof.
  intros Hwf Hex Hdeck. pose proof Hwf as (Hn & Hc & _).
  destruct (get_nonneg (players (state g)) (current_player_idx (state g)))
    as (player & _ & Hget & Hloc); [lia|].
  destruct (end_turn_spec g Hwf Hex) as (g1 & E & Hb & Hturn).
  destruct Hb as (_ & _ & Hp & Hd & Hdc & _).
  unfold execute_action, _do_draw, current_player. rewrite Hloc, Hget, Hdeck. simpl.
  rewrite E. simpl. eexists _, _. split; [reflexivity|].
  match goal with |- context [_check_game_over ?g2] =>
    destruct (check_game_over_board g2) as (_ & _ & -> & -> & -> & -> & -> & _) end.
  simpl. rewrite Hp, Hd, Hdc, Hdeck. split_and!; try done.
  do 3 (apply elem_of_cons; right). apply elem_of_cons. by left.
Qed.

Lemma empty_deck_game_wf : wf_game empty_deck_game.
Proof. unfold wf_game. simpl. split_and!; [done|lia|lia|reflexivity]. Qed.

Lemma empty_deck_pass_witness :
  wf_game empty_deck_game
  ∧ Exists (λ p, alive p = true) (players (state empty_deck_game))
  ∧ deck (state empty_deck_game) = []
  ∧ ∃ g' res, execute_action empty_deck_game Pass rng_zero = Ok (g', res, rng_zero)
      ∧ ("draw", VNone) ∈ res
      ∧ players (state g') = players (state empty_deck_game)
      ∧ deck (state g') = []
      ∧ discard (state g') = discard (state empty_deck_game)
      ∧ turns_remaining (state g') = 1%Z
      ∧ next_alive_after (players (state empty_deck_game)) 0 (current_player_idx (state g')).
Proof.
  assert (Exists (λ p, alive p = true) (players (state empty_deck_game))) as Hex
    by (by apply Exists_cons_hd).
  split; [apply empty_deck_game_wf|]. split; [exact Hex|]. split; [reflexivity|].
  apply (empty_deck_pass empty_deck_game rng_zero empty_deck_game_wf Hex eq_refl).
Defined.

(** ** C2: attack *)

Lemma remove_card_keeps p ct :
  id (remove_card p ct).2 = id p ∧ alive (remove_card p ct).2 = alive p.
Proof. unfold remove_card. by destruct (take_first ct (hand p)) as [[c h]|]. Qed.

Lemma do_attack_spec g :
  wf_game g → Exists (λ p, alive p = true) (players (state g)) →
  ∃ idx, _do_attack g = Ok (with_state (with_turns 2 (with_current idx (state g))) g)
    ∧ next_alive_after (players (state g)) (current_player_idx (state g)) idx.
Proof.
  intros Hwf Hex. destruct (next_alive_index_total g Hwf Hex) as (idx & E & Hnext).
  exists idx. unfold _do_attack. by rewrite E.
Qed.

(** Replacing a player by one with the same id and alive flag keeps the
    game well formed and the living alive. *)
Lemma wf_replace_player g s1 me p q :
  wf_game g → players (state g) !! me = Some p →
  id q = id p → alive q = alive p →
  players s1 = <[me:=q]> (players (state g)) →
  current_player_idx s1 = current_player_idx (state g) →
  wf_game (with_state s1 g)
  ∧ (Exists (λ p, alive p = true) (players (state g)) →
     Exists (λ p, alive p = true) (players s1)).
Proof.
  intros (Hn & Hc & Hids) Hme Hid Hal Hps Hcur. split.
  - unfold wf_game. simpl. rewrite Hps, Hcur, length_insert. split_and!; [done|lia|lia|].
    eapply ids_ok_fmap; [|exact Hids]. by apply (fmap_insert_same id _ _ p).
  - rewrite Hps. intros Hex. apply Exists_exists in Hex as (x & Hx & Hxa).
    apply list_elem_of_lookup in Hx as [j Hj]. apply Exists_exists.
    destruct (decide (j = me)) as [->|Hne].
    + exists q. split; [|congruence].
      eapply list_elem_of_lookup_2, list_lookup_insert_eq. by eapply lookup_lt_Some.
    + exists x. split; [|done].
      eapply list_elem_of_lookup_2. by rewrite list_lookup_insert_ne.
Qed.

(** C2 (amended).  Playing an Attack ends the acting player's turn without
    drawing (the deck is unchanged and the only change to the hands is the
    Attack card leaving the actor's), makes the next alive player the
    current player and sets [turns_remaining] to 2, whatever it was before:
    a second attack passes the turn on again with [turns_remaining = 2]. *)
Theorem attack_passes_turn (g : Game) (player : Player)
    (target : option Z) (steal : option CardType) (r : Rng) :
  wf_game g → Exists (λ p, alive p = true) (players (state g)) →
  current_player (state g) = Ok player →
  ∃ g' res,
    execute_action g (PlayCard ATTACK target steal) r = Ok (g', res, r)
    ∧ deck (state g') = deck (state g)
    ∧ players (state g')
      = <[Z.to_nat (current_player_idx (state g)):=(remove_card player ATTACK).2]>
          (players (state g))
    ∧ turns_remaining (state g') = 2%Z
    ∧ next_alive_after (players (state g')) (current_player_idx (state g))
        (current_player_idx (state g')).
Proof.
  intros Hwf Hex Hcur. pose proof Hwf as (Hn & Hc & _).
  destruct (get_nonneg (players (state g)) (current_player_idx (state g)))
    as (p & Hme & Hget & Hloc); [lia|].
  unfold current_player in Hcur. assert (p = player) as -> by congruence.
  set (me := Z.to_nat (current_player_idx (state g))) in *.
  destruct (remove_card_keeps player ATTACK) as [Hid Hal].
  unfold execute_action, current_player. rewrite Hloc, Hget. simpl.
  destruct (remove_card player ATTACK) as [card player'] eqn:Er. simpl in Hid, Hal.
  set (s1 := with_discard (discard (state g) ++ [card])
               (with_players (<[me:=player']> (players (state g))) (state g))).
  destruct (wf_replace_player g s1 me player player' Hwf Hme Hid Hal eq_refl eq_refl)
    as [Hwf1 Hex1].
  destruct (do_attack_spec (with_state s1 g) Hwf1 (Hex1 Hex)) as (idx & -> & Hnext).
  simpl. eexists _, _. split; [reflexivity|].
  match goal with |- context [_check_game_over ?g2] =>
    destruct (check_game_over_board g2) as (_ & _ & -> & -> & _ & -> & -> & _) end.
  simpl. split_and!; done.
Qed.

Lemma attack_passes_turn_witness :
  wf_game example_game
  ∧ Exists (λ p, alive p = true) (players (state example_game))
  ∧ current_player (state example_game)
    = Ok (mkPlayer 0 [mkCard ATTACK; mkCard DEFUSE] true)
  ∧ ∃ g' res,
      execute_action example_game (PlayCard ATTACK None None) rng_zero = Ok (g', res, rng_zero)
      ∧ deck (state g') = deck (state example_game)
      ∧ players (state g')
        = [mkPlayer 0 [mkCard DEFUSE] true; mkPlayer 1 [mkCard ATTACK; mkCard SKIP] true]
      ∧ turns_remaining (state g') = 2%Z
      ∧ next_alive_after (players (state g')) 0 (current_player_idx (state g')).
Proof.
  assert (Exists (λ p, alive p = true) (players (state example_game))) as Hex
    by (by apply Exists_cons_hd).
  split; [apply example_game_wf|]. split; [exact Hex|]. split; [reflexivity|].
  apply (attack_passes_turn example_game _ None None rng_zero example_game_wf Hex eq_refl).
Defined.

(** C2 as stated fails: player 0 attacks, player 1 then has two turns and
    attacks in turn before drawing; [turns_remaining] stays 2 and the turn
    goes back to player 0. *)
Lemma second_attack_does_not_stack :
  ∃ g1 res1 g2 res2,
    execute_action example_game (PlayCard ATTACK None None) rng_zero
    = Ok (g1, res1, rng_zero)
    ∧ current_player_idx (state g1) = 1%Z ∧ turns_remaining (state g1) = 2%Z
    ∧ execute_action g1 (PlayCard ATTACK None None) rng_zero = Ok (g2, res2, rng_zero)
    ∧ current_player_idx (state g2) = 0%Z ∧ turns_remaining (state g2) = 2%Z.
Proof.
  eexists _, _, _, _. split; [vm_compute; reflexivity|].
  split; [reflexivity|]. split; [reflexivity|].
  split; [vm_compute; reflexivity|]. split; reflexivity.
Qed.

(** ** C4: drawing an exploding kitten *)

Lemma alive_kittens_insert (ps : list Player) (i : nat) p q :
  ps !! i = Some p →
  sum_list_with (λ p, count_type EXPLODING_KITTEN (hand p))
    (filter (λ p, alive p = true) (<[i:=q]> ps))
  + (if alive p then count_type EXPLODING_KITTEN (hand p) else 0)
  = sum_list_with (λ p, count_type EXPLODING_KITTEN (hand p))
      (filter (λ p, alive p = true) ps)
    + (if alive q then count_type EXPLODING_KITTEN (hand q) else 0).
Proof.
  intros E.
  rewrite insert_take_drop by (by eapply lookup_lt_Some).
  rewrite <- (take_drop_middle ps i p E) at 3.
  rewrite !filter_app, !filter_cons, !sum_list_with_app.
  destruct (alive p), (alive q); repeat case_decide; try done; simpl; lia.
Qed.

Lemma match_snoc {A B} (l : list A) (x : A) (a b : B) :
  match l ++ [x] with [] => a | _ :: _ => b end = b.
Proof. by destruct l. Qed.

(** C4 (amended).  The current player passes and the top card is an
    exploding kitten (well-formed game, another player alive).  With a
    defuse in hand the call conserves the total card count, changes no
    alive flag, discards the defuse and reinserts the kitten into the deck,
    so the kittens in circulation are as many as before.  Without a defuse
    the player is marked not alive, the kitten goes to the discard pile,
    and the kittens in circulation (deck plus hands of alive players) drop
    by one plus the kittens the eliminated player held while alive: by
    exactly one when that hand holds none. *)
Theorem hazard_draw (g : Game) (r : Rng) (player : Player) (deck' : list Card)
    (kitten : Card) :
  wf_game g → other_alive g →
  current_player (state g) = Ok player →
  deck (state g) = deck' ++ [kitten] →
  card_type kitten = EXPLODING_KITTEN →
  ∃ g' res r', execute_action g Pass r = Ok (g', res, r') ∧
    if has_card player DEFUSE then
      total_cards g' = total_cards g
      ∧ alive <$> players (state g') = alive <$> players (state g)
      ∧ (∃ defuse, card_type defuse = DEFUSE
           ∧ discard (state g') = discard (state g) ++ [Some defuse])
      ∧ (∃ pos, deck (state g') = Py.insert deck' pos kitten)
      ∧ kittens_in_circulation g' = kittens_in_circulation g
    else
      players (state g')
      = <[Z.to_nat (current_player_idx (state g)):=set_alive false player]>
          (players (state g))
      ∧ deck (state g') = deck'
      ∧ discard (state g') = discard (state g) ++ [Some kitten]
      ∧ kittens_in_circulation g' + 1
        + (if alive player then count_type EXPLODING_KITTEN (hand player) else 0)
        = kittens_in_circulation g.
Proof.
  intros Hwf Hother Hcur Hdeck Hk. pose proof Hwf as (Hn & Hc & Hids).
  destruct (get_nonneg (players (state g)) (current_player_idx (state g)))
    as (p & Hme & Hget & Hloc); [lia|].
  pose proof Hcur as Hcur'. unfold current_player in Hcur'.
  assert (p = player) as -> by congruence. clear Hcur'.
  set (me := Z.to_nat (current_player_idx (state g))) in *.
  assert (Exists (λ p, alive p = true ∧ id p ≠ Z.of_nat me) (players (state g))) as Hother'.
  { unfold other_alive in Hother. by replace (Z.of_nat me) with (current_player_idx (state g))
      by (subst me; lia). }
  unfold execute_action, _do_draw. rewrite Hloc, Hcur. simpl.
  rewrite Hdeck, match_snoc, pop_snoc. simpl.
  unfold is_type at 1. rewrite bool_decide_true by done.
  destruct (has_card player DEFUSE) eqn:Hdef.
  - (* defused *)
    destruct (remove_card_has _ _ Hdef) as (defuse & h & -> & Hdc & Hp).
    destruct (randint_Ok 0 (Z.of_nat (length deck')) r) as (pos & r' & Er & _); [lia|].
    proj_simpl. rewrite Er. simpl.
    set (s3 := insert_card _ kitten pos).
    destruct (wf_replace_player g s3 me player (set_hand h player) Hwf Hme
                eq_refl eq_refl eq_refl eq_refl) as [Hwf3 Hex3].
    destruct (end_turn_spec (with_state s3 g) Hwf3) as (g1 & -> & Hb & _).
    { apply Hex3. eapply Exists_impl; [exact Hother|]. by intros ? [? _]. }
    simpl. eexists _, _, _. split; [reflexivity|].
    destruct Hb as (_ & _ & Hp1 & Hd1 & Hdc1 & _). simpl in Hp1, Hd1, Hdc1.
    unfold total_cards, kittens_in_circulation, alive_players.
    match goal with |- context [_check_game_over ?g2] =>
      destruct (check_game_over_board g2) as (_ & _ & -> & -> & -> & _) end.
    simpl. rewrite Hp1, Hd1, Hdc1, Hdeck.
    pose proof (hand_total_insert _ _ _ (set_hand h player) Hme) as Ht.
    pose proof (alive_kittens_insert _ _ _ (set_hand h player) Hme) as Hak.
    simpl in Ht, Hak.
    rewrite (count_type_Permutation _ _ _ Hp), count_type_cons in Hak.
    rewrite decide_False in Hak by (rewrite Hdc; discriminate).
    rewrite Hp in Ht. simpl in Ht.
    rewrite (count_type_Permutation _ _ _ (insert_Permutation deck' pos kitten)).
    rewrite (count_type_app _ deck'), !count_type_cons.
    rewrite length_py_insert, !length_app. simpl.
    split_and!.
    + lia.
    + by apply (fmap_insert_same alive _ _ player).
    + eauto.
    + eauto.
    + replace (count_type EXPLODING_KITTEN []) with 0 by done.
      destruct (alive player); lia.
  - (* exploded *)
    set (s2 := with_discard _ _).
    assert (wf_game (with_state s2 g)) as Hwf2.
    { unfold wf_game. simpl. rewrite length_insert. split_and!; [done|lia|lia|].
      eapply ids_ok_fmap; [|exact Hids]. by apply (fmap_insert_same id _ _ player). }
    destruct (end_turn_spec (with_state s2 g) Hwf2) as (g1 & -> & Hb & _).
    { simpl. apply Exists_exists in Hother' as (q & Hq & Hqa & Hqid).
      apply list_elem_of_lookup in Hq as [j Hj].
      assert (j ≠ me) by (intros ->; apply Hqid; by rewrite (ids_ok_lookup _ _ _ Hids Hj)).
      apply Exists_exists. exists q. split; [|done].
      eapply list_elem_of_lookup_2. by rewrite list_lookup_insert_ne. }
    simpl. eexists _, _, _. split; [reflexivity|].
    destruct Hb as (_ & _ & Hp1 & Hd1 & Hdc1 & _). simpl in Hp1, Hd1, Hdc1.
    unfold kittens_in_circulation, alive_players.
    match goal with |- context [_check_game_over ?g2] =>
      destruct (check_game_over_board g2) as (_ & _ & -> & -> & -> & _) end.
    simpl. rewrite Hp1, Hd1, Hdc1, Hdeck.
    pose proof (alive_kittens_insert _ _ _ (set_alive false player) Hme) as Hak.
    simpl in Hak.
    rewrite count_type_app, count_type_cons, decide_True by done.
    replace (count_type EXPLODING_KITTEN []) with 0 by done.
    split_and!; try done. destruct (alive player); simpl in Hak; lia.
Qed.

Lemma example_game_p1_wf : wf_game example_game_p1.
Proof. unfold wf_game. simpl. split_and!; [done|lia|lia|reflexivity]. Qed.

Lemma example_game_p1_other_alive : other_alive example_game_p1.
Proof. unfold other_alive. simpl. apply Exists_cons_hd. by split. Qed.

Lemma hazard_draw_witness :
  (wf_game example_game ∧ other_alive example_game
   ∧ ∃ g' res r', execute_action example_game Pass rng_zero = Ok (g', res, r')
       ∧ total_cards g' = total_cards example_game
       ∧ alive <$> players (state g') = alive <$> players (state example_game)
       ∧ (∃ defuse, card_type defuse = DEFUSE
            ∧ discard (state g') = discard (state example_game) ++ [Some defuse])
       ∧ (∃ pos, deck (state g')
                 = Py.insert [mkCard NOPE; mkCard SHUFFLE; mkCard CAT_TACOCAT] pos
                     (mkCard EXPLODING_KITTEN))
       ∧ kittens_in_circulation g' = kittens_in_circulation example_game)
  ∧ (wf_game example_game_p1 ∧ other_alive example_game_p1
     ∧ ∃ g' res r', execute_action example_game_p1 Pass rng_zero = Ok (g', res, r')
         ∧ players (state g')
           = [mkPlayer 0 [mkCard ATTACK; mkCard DEFUSE] true;
              mkPlayer 1 [mkCard ATTACK; mkCard SKIP] false]
         ∧ deck (state g') = [mkCard NOPE; mkCard SHUFFLE; mkCard CAT_TACOCAT]
         ∧ discard (state g') = [Some (mkCard EXPLODING_KITTEN)]
         ∧ kittens_in_circulation g' + 1 + 0 = kittens_in_circulation example_game_p1).
Proof.
  split.
  - split; [apply example_game_wf|]. split; [apply example_game_other_alive|].
    apply (hazard_draw example_game rng_zero _
             [mkCard NOPE; mkCard SHUFFLE; mkCard CAT_TACOCAT] (mkCard EXPLODING_KITTEN)
             example_game_wf example_game_other_alive eq_refl eq_refl eq_refl).
  - split; [apply example_game_p1_wf|]. split; [apply example_game_p1_other_alive|].
    apply (hazard_draw example_game_p1 rng_zero _
             [mkCard NOPE; mkCard SHUFFLE; mkCard CAT_TACOCAT] (mkCard EXPLODING_KITTEN)
             example_game_p1_wf example_game_p1_other_alive eq_refl eq_refl eq_refl).
Defined.

(** C4 as stated fails on a state as the determinizer deals them: player 0
    holds a kitten and no defuse and draws the kitten on top; two kittens
    were in circulation before, none is afterwards. *)
Lemma held_kitten_leaves_circulation :
  has_card (mkPlayer 0 [mkCard EXPLODING_KITTEN; mkCard SKIP] true) DEFUSE = false
  ∧ last (deck (state kitten_in_hand_game)) = Some (mkCard EXPLODING_KITTEN)
  ∧ kittens_in_circulation kitten_in_hand_game = 2
  ∧ ∃ g' res r', execute_action kitten_in_hand_game Pass rng_zero = Ok (g', res, r')
      ∧ kittens_in_circulation g' = 0.
Proof.
  split; [reflexivity|]. split; [reflexivity|]. split; [reflexivity|].
  eexists _, _, _. split; [vm_compute; reflexivity|]. reflexivity.
Qed.

(** ** C7: the known-top fact *)

(** C7.  A shuffle clears the known-top fact, but an insertion does not:
    [insert_card] at position [len(deck)] puts the card on top and leaves
    [top_three_known_by] as it was.  On
    [known_top_game], where player 0 knows the top three cards, inserting
    a kitten on top through [InsertExplodingKitten(4)] changes the top
    three cards and keeps the fact; the fact is also kept when player 0
    draws and defuses the kitten and it is reinserted on top (position 3)
    or just below the top card (position 2, which reorders the top
    three). *)
Theorem known_top_survives_insertion :
  (∀ s r, top_three_known_by (shuffle_deck s r).1 = None)
  ∧ (∀ s card,
       deck (insert_card s card (Z.of_nat (length (deck s)))) = deck s ++ [card]
       ∧ top_three_known_by (insert_card s card (Z.of_nat (length (deck s))))
         = top_three_known_by s)
  ∧ (∃ g' res,
       execute_action known_top_game (InsertExplodingKitten 4) rng_zero
       = Ok (g', res, rng_zero)
       ∧ deck (state g') = deck (state known_top_game) ++ [mkCard EXPLODING_KITTEN]
       ∧ peek_top (state known_top_game) 3
         = [mkCard SHUFFLE; mkCard CAT_TACOCAT; mkCard EXPLODING_KITTEN]
       ∧ peek_top (state g') 3
         = [mkCard CAT_TACOCAT; mkCard EXPLODING_KITTEN; mkCard EXPLODING_KITTEN]
       ∧ top_three_known_by (state g') = Some 0%Z)
  ∧ (∃ g' res r',
       execute_action known_top_game Pass rng_three = Ok (g', res, r')
       ∧ ("defused", VBool true) ∈ res
       ∧ ("insert_position", VInt 3) ∈ res
       ∧ deck (state g')
         = [mkCard NOPE; mkCard SHUFFLE; mkCard CAT_TACOCAT] ++ [mkCard EXPLODING_KITTEN]
       ∧ top_three_known_by (state g') = Some 0%Z)
  ∧ (∃ g' res r',
       execute_action known_top_game Pass rng_two = Ok (g', res, r')
       ∧ ("insert_position", VInt 2) ∈ res
       ∧ peek_top (state g') 3
         = [mkCard SHUFFLE; mkCard EXPLODING_KITTEN; mkCard CAT_TACOCAT]
       ∧ top_three_known_by (state g') = Some 0%Z).
Proof.
  split_and!.
  - intros s r. unfold shuffle_deck. by destruct (shuffle (deck s) r).
  - intros s card. split; [apply insert_top|done].
  - eexists _, _. split; [vm_compute; reflexivity|]. by split_and!.
  - eexists _, _, _. split; [vm_compute; reflexivity|]. split_and!; try reflexivity.
    + do 5 (apply elem_of_cons; right). apply elem_of_cons. by left.
    + do 6 (apply elem_of_cons; right). apply elem_of_cons. by left.
  - eexists _, _, _. split; [vm_compute; reflexivity|]. split_and!; try reflexivity.
    do 6 (apply elem_of_cons; right). apply elem_of_cons. by left.
Qed.

(** ** Playable states are the states of real games *)

Lemma board_step_wf g me s1 : wf_game g → board_step g me s1 → wf_game (with_state s1 g).
Proof.
  intros (Hn & Hc & Hids) (_ & Hid & _ & Hcur & _).
  assert (length (players s1) = length (players (state g))) as Hlen.
  { by rewrite <- (length_fmap id (players s1)), Hid, length_fmap. }
  unfold wf_game. simpl. rewrite Hlen, Hcur. split_and!; [done|lia|lia|].
  by eapply ids_ok_fmap.
Qed.

(** A legal action that returns keeps the game well formed, and a game
    that is over stays over. *)
Lemma exec_legal_wf g acts a r g' res r' :
  wf_game g →
  get_legal_actions g None = Ok acts → a ∈ acts →
  execute_action g a r = Ok (g', res, r') →
  wf_game g' ∧ (game_over (state g) = true → game_over (state g') = true).
Proof.
  intros Hwf Hl Hin Hex. pose proof Hwf as (_ & _ & Hids).
  destruct (exec_legal_shape g acts a r Hids Hl Hin)
    as (me & player & s1 & c & res0 & r0 & _ & _ & Hboard & Heq).
  rewrite Heq in Hex. unfold mbind, outcome_bind in Hex.
  destruct (run_control c (with_state s1 g)) as [g1| |] eqn:Hrun; [|done|done].
  simplify_eq. split.
  - apply finish_wf. eapply run_control_wf; [|exact Hrun]. by eapply board_step_wf.
  - intros Hov. unfold finish.
    match goal with |- context [_check_game_over ?g2] =>
      destruct (check_game_over_flag g2) as [(_ & -> & _)|(_ & -> & _)]; [done|] end.
    simpl. apply run_control_board in Hrun as (_ & _ & _ & _ & _ & -> & _). simpl.
    destruct Hboard as (_ & _ & _ & _ & _ & -> & _). done.
Qed.

Lemma reachable_playable g0 g : playable g0 → reachable g0 g → playable g.
Proof.
  intros H0. induction 1 as [|g acts a r g' res r' _ IH Hl Hin Hex]; [done|].
  destruct (game_over (state g)) eqn:Hov.
  - destruct (exec_legal_wf g acts a r g' res r' (proj1 IH) Hl Hin Hex) as [Hwf Hstay].
    split; [done|]. by rewrite (Hstay Hov).
  - destruct (playable_step g acts a r IH Hov Hl Hin) as (g'' & res'' & r'' & Hex' & Hp & _).
    rewrite Hex in Hex'. by simplify_eq.
Qed.

Lemma filter_all {A} (P : A → Prop) `{!∀ x, Decision (P x)} (l : list A) :
  Forall P l → filter P l = l.
Proof.
  induction 1 as [|x l Hx _ IH]; [done|]. by rewrite filter_cons, decide_True, IH.
Qed.

(** A new game of 2 to 11 players is playable. *)
Lemma init_playable n r g r' :
  (2 ≤ n ≤ 11)%Z → __init__ n r = Ok (g, r') → playable g.
Proof.
  intros Hn Hinit.
  destruct (setup_spec n r) as (g1 & r1 & E & Hnp & _ & Hlen & Hpl & _ & _ & _ & _
                                 & Hcur & _ & Hov & Hw & _); [lia|].
  rewrite Hinit in E. injection E as <- <-.
  assert (wf_game g) as Hwf.
  { unfold wf_game. rewrite Hlen, Hcur. split_and!; [lia|lia|lia|by eapply init_ids]. }
  split; [done|]. intros _. split; [|done].
  unfold alive_players. rewrite filter_all; [lia|].
  apply Forall_lookup. intros i p Hp. by destruct (Hpl i p Hp) as (_ & ? & _).
Qed.

(** ** C5: determinization *)

Lemma clone_card_id c : clone_card c = c.
Proof. by destruct c. Qed.

Lemma clone_discard_typed d :
  Forall (λ c : option Card, is_Some c) d → clone_discard d = Ok d.
Proof.
  induction 1 as [|c d [x ->] _ IH]; [done|].
  simpl. rewrite IH. simpl. by rewrite clone_card_id.
Qed.

Lemma clone_game_typed game : discard_typed game → clone_game game = Ok game.
Proof.
  intros Hd. unfold clone_game. rewrite (clone_discard_typed _ Hd). simpl.
  destruct game as [n [ps dk d c t o w k] h]. simpl. do 3 f_equal.
  - rewrite <- (list_fmap_id ps) at 2. apply list_fmap_ext. intros _ [i hd a] _. simpl.
    f_equal. rewrite <- (list_fmap_id hd) at 2. apply list_fmap_ext. intros. apply clone_card_id.
  - rewrite <- (list_fmap_id dk) at 2. apply list_fmap_ext. intros. apply clone_card_id.
Qed.

Lemma collect_hands_spec observer_id ps : ∀ pool,
  ∃ ps1 pool1, collect_hands observer_id ps pool = (ps1, pool1)
    ∧ Forall2 (collected observer_id) ps ps1
    ∧ length pool1 = length pool + opponent_cards observer_id ps.
Proof.
  induction ps as [|p ps IH]; intros pool.
  - exists [], pool. simpl. split_and!; [done|constructor|unfold opponent_cards; simpl; lia].
  - cbn [collect_hands]. unfold opponent_cards. cbn [sum_list_with].
    destruct (is_opponent observer_id p) eqn:Eo.
    + destruct (IH (pool ++ hand p)) as (ps1 & pool1 & -> & HF & Hl).
      eexists _, _. split; [reflexivity|]. split.
      * constructor; [|done]. unfold collected. by rewrite Eo.
      * rewrite Hl, length_app. unfold opponent_cards. lia.
    + destruct (IH pool) as (ps1 & pool1 & -> & HF & Hl).
      eexists _, _. split; [reflexivity|]. split.
      * constructor; [|done]. unfold collected. by rewrite Eo.
      * rewrite Hl. unfold opponent_cards. lia.
Qed.

Lemma deal_back_spec k : ∀ h pool,
  k ≤ length pool →
  ∃ h' pool', deal_back k h pool = (h', pool')
    ∧ length h' = length h + k ∧ length pool = length pool' + k.
Proof.
  induction k as [|k IH]; intros h pool Hk.
  - exists h, pool. simpl. split_and!; [done|lia|lia].
  - destruct (decide (pool = [])) as [->|Hne]; [simpl in Hk; lia|].
    apply (proj2 (last_is_Some pool)) in Hne as [c Hc].
    apply last_Some in Hc as [pool0 ->].
    rewrite length_app in Hk. simpl in Hk.
    cbn [deal_back]. rewrite pop_snoc.
    destruct (IH (h ++ [c]) pool0) as (h' & pool' & -> & Hh & Hp); [lia|].
    exists h', pool'. rewrite !length_app in *. simpl in *. split_and!; [done|lia|lia].
Qed.

Lemma redistribute_spec orig observer_id os : ∀ ps1 pool,
  Forall2 (collected observer_id) os ps1 →
  Forall (λ o, Py.get orig (id o) = Ok o) os →
  opponent_cards observer_id os ≤ length pool →
  ∃ ps2 pool2, redistribute orig observer_id ps1 pool = Ok (ps2, pool2)
    ∧ Forall2 (redistributed observer_id) os ps2.
Proof.
  induction os as [|o os IH]; intros ps1 pool HF Hget Hlen.
  - apply Forall2_nil_inv_l in HF as ->. exists [], pool. split; [done|constructor].
  - apply Forall2_cons_inv_l in HF as (p & ps1' & (Hid & Hal & Hh) & HF & ->).
    apply Forall_cons in Hget as [Hgo Hget].
    unfold opponent_cards in Hlen. cbn [sum_list_with] in Hlen.
    fold (opponent_cards observer_id os) in Hlen.
    assert (is_opponent observer_id p = is_opponent observer_id o) as Hopp.
    { unfold is_opponent. by rewrite Hid, Hal. }
    cbn [redistribute]. rewrite Hopp.
    destruct (is_opponent observer_id o) eqn:Eo.
    + rewrite Hid, Hgo. simpl.
      destruct (deal_back_spec (length (hand o)) (hand p) pool) as (h' & pool' & -> & Hh' & Hp');
        [lia|].
      destruct (IH ps1' pool' HF Hget) as (ps2 & pool2 & -> & HF2); [lia|].
      simpl. eexists _, _. split; [reflexivity|].
      constructor; [|done]. unfold redistributed. rewrite Eo. simpl.
      rewrite Hh in Hh'. simpl in Hh'. by split_and!.
    + destruct (IH ps1' pool HF Hget) as (ps2 & pool2 & -> & HF2); [lia|].
      simpl. eexists _, _. split; [reflexivity|].
      constructor; [|done]. unfold redistributed. by rewrite Eo.
Qed.

Lemma ids_ok_get_all ps : ids_ok ps → Forall (λ o, Py.get ps (id o) = Ok o) ps.
Proof.
  intros Hids. apply Forall_forall. intros o Ho.
  apply list_elem_of_lookup in Ho as [i Hi]. by destruct (ids_ok_get _ _ _ Hids Hi).
Qed.

Lemma last_n_app {A} (l top : list A) n :
  length top = n → Py.last_n n (l ++ top) = top.
Proof.
  intros <-. unfold Py.last_n. rewrite length_app.
  replace (length l + length top - length top) with (length l) by lia.
  by rewrite drop_app_length.
Qed.

Lemma length_last_n {A} (l : list A) n : n ≤ length l → length (Py.last_n n l) = n.
Proof. intros. unfold Py.last_n. rewrite length_drop. lia. Qed.

(** What [determinize_game] returns, field by field. *)
Lemma determinize_spec (game : Game) (observer_id : Z) (r : Rng) :
  ids_ok (players (state game)) → discard_typed game →
  ∃ det r', determinize_game game observer_id r = Ok (det, r')
    ∧ Forall2 (redistributed observer_id) (players (state game)) (players (state det))
    ∧ (top_three_known_by (state game) = Some observer_id →
       3 ≤ length (deck (state game)) →
       Py.last_n 3 (deck (state det)) = Py.last_n 3 (deck (state game)))
    ∧ num_players det = num_players game
    ∧ current_player_idx (state det) = current_player_idx (state game)
    ∧ game_over (state det) = game_over (state game)
    ∧ winner (state det) = winner (state game)
    ∧ discard (state det) = discard (state game).
Proof.
  intros Hids Hd. unfold determinize_game. rewrite (clone_game_typed _ Hd). simpl.
  destruct (collect_hands_spec observer_id (players (state game)) [])
    as (ps1 & pool1 & -> & HF1 & Hl1). simpl in Hl1.
  set (keep := bool_decide (top_three_known_by (state game) = Some observer_id)
               && bool_decide (3 ≤ length (deck (state game)))).
  set (pool := if keep then pool1 ++ Py.but_last_n 3 (deck (state game))
               else pool1 ++ deck (state game)).
  destruct (shuffle pool r) as [pool' r'] eqn:Es.
  apply shuffle_eq_Permutation in Es.
  destruct (redistribute_spec (players (state game)) observer_id (players (state game))
              ps1 pool' HF1 (ids_ok_get_all _ Hids)) as (ps2 & pool2 & -> & HF2).
  { rewrite Es. subst pool. destruct keep; rewrite length_app; lia. }
  simpl. eexists _, _. split; [reflexivity|]. simpl. split_and!; try done.
  intros Hk H3. fold keep. subst keep.
  rewrite !bool_decide_true by done. simpl.
  apply last_n_app, length_last_n. done.
Qed.

(** Determinizing a playable game gives a playable game. *)
Lemma determinize_playable (game : Game) (observer_id : Z) (r : Rng) :
  playable game → discard_typed game →
  ∃ det r', determinize_game game observer_id r = Ok (det, r') ∧ playable det.
Proof.
  intros [(Hn & Hc & Hids) Hplay] Hd.
  destruct (determinize_spec game observer_id r Hids Hd)
    as (det & r' & E & HF & _ & Hnp & Hcur & Hov & Hw & _).
  exists det, r'. split; [done|].
  assert (id <$> players (state det) = id <$> players (state game)) as Hid.
  { symmetry. apply list_eq_Forall2, Forall2_fmap.
    eapply Forall2_impl; [exact HF|]. by intros o p (-> & _). }
  assert (alive <$> players (state det) = alive <$> players (state game)) as Hal.
  { symmetry. apply list_eq_Forall2, Forall2_fmap.
    eapply Forall2_impl; [exact HF|]. by intros o p (_ & -> & _). }
  assert (length (players (state det)) = length (players (state game))) as Hlen.
  { by rewrite <- (Forall2_length _ _ _ HF). }
  split.
  - unfold wf_game. rewrite Hnp, Hcur, Hlen. split_and!; [done|lia|lia|].
    by eapply ids_ok_fmap.
  - rewrite Hov, Hw, alive_players_flags, Hal, <- alive_players_flags. exact Hplay.
Qed.

(** C5.  On a game whose players are numbered in order and whose discard
    pile holds cards only, [determinize_game] returns a game in which,
    player by player, ids and alive flags are those of the true state, the
    observer's own hand is exactly the true hand, and every alive opponent
    holds as many cards as in the true state; and if the observer holds the
    known-top fact on a deck of at least three cards, the top three cards
    of the deck are the true ones in the true order. *)
Theorem determinization_fidelity (game : Game) (observer_id : Z) (r : Rng) :
  ids_ok (players (state game)) → discard_typed game →
  ∃ det r', determinize_game game observer_id r = Ok (det, r')
    ∧ Forall2 (λ p p', id p' = id p ∧ alive p' = alive p
                 ∧ (id p = observer_id → hand p' = hand p)
                 ∧ (alive p = true → id p ≠ observer_id →
                    length (hand p') = length (hand p)))
        (players (state game)) (players (state det))
    ∧ (top_three_known_by (state game) = Some observer_id →
       3 ≤ length (deck (state game)) →
       Py.last_n 3 (deck (state det)) = Py.last_n 3 (deck (state game))).
Proof.
  intros Hids Hd.
  destruct (determinize_spec game observer_id r Hids Hd)
    as (det & r' & E & HF & Htop & _).
  exists det, r'. split_and!; [done| |done].
  eapply Forall2_impl; [exact HF|]. intros o p (Hid & Hal & Hh).
  split_and!; [done|done| |].
  - intros Ho. unfold is_opponent in Hh. rewrite bool_decide_false in Hh by tauto. done.
  - intros Ha Ho. unfold is_opponent in Hh. rewrite bool_decide_true, Ha in Hh by done. done.
Qed.

Lemma determinization_fidelity_witness :
  ids_ok (players (state known_top_game)) ∧ discard_typed known_top_game
  ∧ ∃ det r', determinize_game known_top_game 0 rng_zero = Ok (det, r')
      ∧ Forall2 (λ p p', id p' = id p ∧ alive p' = alive p
                   ∧ (id p = 0%Z → hand p' = hand p)
                   ∧ (alive p = true → id p ≠ 0%Z →
                      length (hand p') = length (hand p)))
          (players (state known_top_game)) (players (state det))
      ∧ Py.last_n 3 (deck (state det)) = Py.last_n 3 (deck (state known_top_game)).
Proof.
  split; [reflexivity|]. split; [apply Forall_nil_2|].
  destruct (determinization_fidelity known_top_game 0 rng_zero eq_refl (Forall_nil_2 _))
    as (det & r' & E & HF & Htop).
  exists det, r'. split; [exact E|]. split; [exact HF|].
  apply Htop; [reflexivity|simpl; lia].
Defined.

(** ** C8: UCB1 selection *)

(** Comparison of floats. *)

Lemma SFltb_irrefl x : SFltb x x = false.
Proof.
  unfold SFltb, SFcompare. destruct x as [[]|[]| |[] m e]; try reflexivity.
  - rewrite Z.compare_refl. change (Pos.compare_cont Eq m m) with (Pos.compare m m).
    by rewrite Pos.compare_refl.
  - rewrite Z.compare_refl. change (Pos.compare_cont Eq m m) with (Pos.compare m m).
    by rewrite Pos.compare_refl.
Qed.

Lemma SFltb_trans x y z : SFltb x y = true → SFltb y z = true → SFltb x z = true.
Proof.
  unfold SFltb, SFcompare.
  destruct x as [[]|[]| |[] mx ex], y as [[]|[]| |[] my ey], z as [[]|[]| |[] mz ez];
    try done;
    change (Pos.compare_cont Eq) with Pos.compare;
    destruct (Z.compare_spec ex ey), (Z.compare_spec ey ez), (Z.compare_spec ex ez);
    try done; try lia; subst;
    destruct (Pos.compare_spec mx my), (Pos.compare_spec my mz), (Pos.compare_spec mx mz);
    try done; try lia.
Qed.

Lemma ltb_irrefl (x : float) : (x <? x)%float = false.
Proof. rewrite FloatAxioms.ltb_spec. apply SFltb_irrefl. Qed.

Lemma ltb_trans (x y z : float) :
  (x <? y)%float = true → (y <? z)%float = true → (x <? z)%float = true.
Proof. rewrite !FloatAxioms.ltb_spec. apply SFltb_trans. Qed.

Lemma ltb_asym (x y : float) : (x <? y)%float = true → (y <? x)%float = false.
Proof.
  intros Hxy. destruct (y <? x)%float eqn:Hyx; [|done].
  pose proof (ltb_trans x y x Hxy Hyx) as H. by rewrite ltb_irrefl in H.
Qed.

(** Nothing is above [+infinity]. *)
Lemma ltb_infinity_l (x : float) : (infinity <? x)%float = false.
Proof.
  rewrite FloatAxioms.ltb_spec. change (Prim2SF infinity) with (S754_infinity false).
  unfold SFltb, SFcompare. by destruct (Prim2SF x) as [[]|[]| |[] m e].
Qed.

Lemma is_nan_false (x : float) : is_nan x = false → Prim2SF x ≠ S754_nan.
Proof.
  unfold is_nan. rewrite FloatAxioms.eqb_spec. intros H E. rewrite E in H. discriminate H.
Qed.

(** Adding [0 * y] to [x] gives NaN (when [y] is infinite or NaN) or a
    number that compares as [x] does. *)
Lemma SFadd_zero_mul x y :
  let s := SFadd prec emax x (SFmul prec emax (S754_zero false) y) in
  s = S754_nan ∨ ∀ z, SFcompare s z = SFcompare x z ∧ SFcompare z s = SFcompare z x.
Proof.
  destruct x as [[]|[]| |[] mx ex], y as [[]|[]| |[] my ey]; simpl; auto;
    right; intros z; by destruct z as [[]|[]| |[] mz ez].
Qed.

Lemma add_zero_mul_ltb (x y : float) :
  is_nan (x + 0 * y)%float = false →
  ∀ z, ((x + 0 * y) <? z)%float = (x <? z)%float
       ∧ (z <? (x + 0 * y))%float = (z <? x)%float.
Proof.
  intros Hnan z. apply is_nan_false in Hnan.
  rewrite !FloatAxioms.ltb_spec. rewrite FloatAxioms.add_spec, FloatAxioms.mul_spec in Hnan |- *.
  change (Prim2SF 0) with (S754_zero false) in Hnan |- *.
  destruct (SFadd_zero_mul (Prim2SF x) (Prim2SF y)) as [E|E]; [done|].
  unfold SFltb, SF64add, SF64mul. destruct (E (Prim2SF z)) as [-> ->]. done.
Qed.

(** Python's [max] with a key. *)

Section py_max_facts.
Context {A : Type} (key : A → outcome float).

(** Once the best key is [+infinity] the best item stays. *)
Lemma max_loop_infinity (m : A) (l : list A) :
  Forall (λ c, ∃ k, key c = Ok k) l → max_loop key m infinity l = Ok m.
Proof.
  induction 1 as [|c l [k Hk] _ IH]; [done|].
  cbn [max_loop]. rewrite Hk. cbn. by rewrite ltb_infinity_l.
Qed.

Lemma max_loop_first_infinity (l1 l2 : list A) (u : A) :
  key u = Ok infinity →
  Forall (λ c, ∃ k, key c = Ok k ∧ (k <? infinity)%float = true) l1 →
  Forall (λ c, ∃ k, key c = Ok k) l2 →
  ∀ m km, (km <? infinity)%float = true →
    max_loop key m km (l1 ++ u :: l2) = Ok u.
Proof.
  intros Hu H1 H2. induction H1 as [|c l1 (k & Hk & Hlt) _ IH]; intros m km Hkm.
  - cbn [app max_loop]. rewrite Hu. cbn. rewrite Hkm. by apply max_loop_infinity.
  - cbn [app max_loop]. rewrite Hk. cbn. destruct (km <? k)%float; by apply IH.
Qed.

Lemma py_max_first_infinity (l1 l2 : list A) (u : A) :
  key u = Ok infinity →
  Forall (λ c, ∃ k, key c = Ok k ∧ (k <? infinity)%float = true) l1 →
  Forall (λ c, ∃ k, key c = Ok k) l2 →
  py_max key (l1 ++ u :: l2) = Ok u.
Proof.
  intros Hu H1 H2. destruct H1 as [|c l1 (k & Hk & Hlt) H1].
  - cbn [app py_max]. rewrite Hu. cbn. by apply max_loop_infinity.
  - cbn [app py_max]. rewrite Hk. cbn. by apply max_loop_first_infinity.
Qed.

(** The item returned has a key that no key of the list exceeds. *)
Lemma max_loop_spec (l : list A) :
  ∀ m km c, key m = Ok km → max_loop key m km l = Ok c →
    ∃ kc, key c = Ok kc
      ∧ (c = m ∨ c ∈ l)
      ∧ (kc = km ∨ (km <? kc)%float = true)
      ∧ ∀ x kx, x ∈ l → key x = Ok kx → (kc <? kx)%float = false.
Proof.
  induction l as [|item l IH]; intros m km c Hm Hc.
  - injection Hc as <-. exists km. split; [done|]. split; [by left|].
    split; [by left|]. intros x kx Hx. by apply elem_of_nil in Hx.
  - cbn [max_loop] in Hc. destruct (key item) as [val| |] eqn:Hval; try discriminate Hc.
    cbn in Hc. destruct (km <? val)%float eqn:Hlt.
    + destruct (IH item val c Hval Hc) as (kc & Hkc & Hin & Hge & Hall).
      exists kc. split; [done|].
      split; [right; destruct Hin as [->|Hin]; [left|by right]|].
      assert ((km <? kc)%float = true) as Hkm.
      { destruct Hge as [->|Hge]; [done|]. by apply (ltb_trans km val kc). }
      split; [by right|]. intros x kx Hx Hkx.
      apply elem_of_cons in Hx as [->|Hx]; [|by apply (Hall x)].
      rewrite Hval in Hkx. injection Hkx as <-.
      destruct Hge as [->|Hge]; [apply ltb_irrefl|by apply ltb_asym].
    + destruct (IH m km c Hm Hc) as (kc & Hkc & Hin & Hge & Hall).
      exists kc. split; [done|].
      split; [destruct Hin as [->|Hin]; [by left|right; by right]|].
      split; [done|]. intros x kx Hx Hkx.
      apply elem_of_cons in Hx as [->|Hx]; [|by apply (Hall x)].
      rewrite Hval in Hkx. injection Hkx as <-.
      destruct Hge as [->|Hge]; [done|].
      destruct (kc <? val)%float eqn:E; [|done].
      by rewrite (ltb_trans km kc val) in Hlt.
Qed.

Lemma py_max_spec (l : list A) (c : A) :
  py_max key l = Ok c →
  c ∈ l ∧ ∃ kc, key c = Ok kc
    ∧ ∀ x kx, x ∈ l → key x = Ok kx → (kc <? kx)%float = false.
Proof.
  destruct l as [|item l]; [done|]. cbn [py_max].
  destruct (key item) as [val| |] eqn:Hval; try done. cbn. intros Hc.
  destruct (max_loop_spec l item val c Hval Hc) as (kc & Hkc & Hin & Hge & Hall).
  split; [destruct Hin as [->|Hin]; [left|by right]|].
  exists kc. split; [done|]. intros x kx Hx Hkx.
  apply elem_of_cons in Hx as [->|Hx]; [|by apply (Hall x)].
  rewrite Hval in Hkx. injection Hkx as <-.
  destruct Hge as [->|Hge]; [apply ltb_irrefl|by apply ltb_asym].
Qed.
End py_max_facts.

Lemma ucb1_unvisited log parent self exploration :
  visits self = 0%Z → ucb1 log parent self exploration = Ok infinity.
Proof. intros H. unfold ucb1. by rewrite bool_decide_true. Qed.

(** With exploration constant 0 the value of a visited node, unless it is
    NaN, compares as its ratio [wins / visits] does. *)
Lemma ucb1_no_exploration log parent self r k :
  float_div_int (wins self) (visits self) = Ok r →
  ucb1 log parent self 0 = Ok k → is_nan k = false →
  ∀ z, (k <? z)%float = (r <? z)%float ∧ (z <? k)%float = (z <? r)%float.
Proof.
  intros Hr Hk Hnan. unfold ucb1 in Hk.
  destruct (bool_decide (visits self = 0%Z)) eqn:Hv.
  { apply bool_decide_eq_true in Hv. rewrite Hv in Hr.
    unfold float_div_int in Hr. discriminate Hr. }
  rewrite Hr in Hk. cbn in Hk.
  destruct parent as [p|]; [|discriminate Hk]. cbn in Hk.
  destruct (math_log log (visits p)) as [lg| |]; try discriminate Hk. cbn in Hk.
  destruct (float_div_int lg (visits self)) as [q| |]; try discriminate Hk. cbn in Hk.
  destruct (math_sqrt q) as [root| |]; try discriminate Hk. cbn in Hk.
  injection Hk as <-. by apply add_zero_mul_ltb.
Qed.

(** The better ratio gives the better value. *)
Lemma ucb1_no_exploration_lt log parent a b ra rb ka kb :
  float_div_int (wins a) (visits a) = Ok ra →
  float_div_int (wins b) (visits b) = Ok rb →
  (rb <? ra)%float = true →
  ucb1 log parent a 0 = Ok ka → is_nan ka = false →
  ucb1 log parent b 0 = Ok kb → is_nan kb = false →
  (kb <? ka)%float = true.
Proof.
  intros Hra Hrb Hlt Hka Hna Hkb Hnb.
  destruct (ucb1_no_exploration log parent b rb kb Hrb Hkb Hnb ka) as [-> _].
  by destruct (ucb1_no_exploration log parent a ra ka Hra Hka Hna rb) as [_ ->].
Qed.

(** C8.  UCB1 selection.  A node without visits has the value [+infinity],
    and [best_child] returns the first such child when the value of every
    child listed before it is computed and below [+infinity] and the value
    of every child listed after it is computed.  With exploration constant
    0, of two visited children whose values are computed and are not NaN,
    the one with the strictly higher ratio [wins / visits] has the strictly
    higher value (the visit counts need not be equal): [best_child] returns
    it when the two are the only children, and never returns the other one
    whatever the further children are. *)
Theorem ucb1_selection (log : Z → float) (self : MCTSNode) (exploration : float) :
  (∀ parent c, visits c = 0%Z → ucb1 log parent c exploration = Ok infinity)
  ∧ (∀ l1 u l2,
       snd <$> children self = l1 ++ u :: l2 →
       visits u = 0%Z →
       Forall (λ c, ∃ k, ucb1 log (Some self) c exploration = Ok k
                         ∧ (k <? infinity)%float = true) l1 →
       Forall (λ c, ∃ k, ucb1 log (Some self) c exploration = Ok k) l2 →
       best_child log self exploration = Ok u)
  ∧ (∀ a b ra rb ka kb,
       float_div_int (wins a) (visits a) = Ok ra →
       float_div_int (wins b) (visits b) = Ok rb →
       (rb <? ra)%float = true →
       ucb1 log (Some self) a 0 = Ok ka → is_nan ka = false →
       ucb1 log (Some self) b 0 = Ok kb → is_nan kb = false →
       (kb <? ka)%float = true
       ∧ (snd <$> children self = [a; b] ∨ snd <$> children self = [b; a] →
          best_child log self 0 = Ok a)
       ∧ (∀ c, a ∈ snd <$> children self → best_child log self 0 = Ok c →
            c ≠ b ∧ ∃ kc, ucb1 log (Some self) c 0 = Ok kc ∧ (kc <? ka)%float = false)).
Proof.
  split; [intros parent c; apply ucb1_unvisited|]. split.
  - intros l1 u l2 Hl Hu H1 H2. unfold best_child. rewrite Hl.
    apply py_max_first_infinity; [by apply ucb1_unvisited|done|done].
  - intros a b ra rb ka kb Hra Hrb Hlt Hka Hna Hkb Hnb.
    pose proof (ucb1_no_exploration_lt log (Some self) a b ra rb ka kb
                  Hra Hrb Hlt Hka Hna Hkb Hnb) as Hk.
    split; [exact Hk|]. split.
    + intros [Hl|Hl]; unfold best_child; rewrite Hl; cbn [py_max max_loop];
        rewrite Hka, Hkb; cbn.
      * by rewrite (ltb_asym kb ka Hk).
      * by rewrite Hk.
    + intros c Ha Hc. unfold best_child in Hc.
      apply py_max_spec in Hc as (_ & kc & Hkc & Hall).
      pose proof (Hall a ka Ha Hka) as Hge.
      split; [|by exists kc]. intros ->.
      rewrite Hkb in Hkc. injection Hkc as <-. by rewrite Hk in Hge.
Qed.

Lemma ucb1_selection_witness :
  best_child log_table young_tree default_exploration
  = Ok (leaf "play_SKIP_None" (PlayCard SKIP None None) 0 0)
  ∧ best_child log_table rated_tree 0
    = Ok (leaf "play_SKIP_None" (PlayCard SKIP None None) 2 2).
Proof.
  split.
  - apply (proj1 (proj2 (ucb1_selection log_table young_tree default_exploration))
             [leaf "pass" Pass 1 1] _
             [leaf "play_ATTACK_None" (PlayCard ATTACK None None) 0 0]).
    + reflexivity.
    + reflexivity.
    + apply Forall_cons_2; [|apply Forall_nil_2].
      eexists. split; [vm_compute; reflexivity|vm_compute; reflexivity].
    + apply Forall_cons_2; [|apply Forall_nil_2].
      eexists. vm_compute; reflexivity.
  - refine (proj1 (proj2 (proj2 (proj2 (ucb1_selection log_table rated_tree 0))
             (leaf "play_SKIP_None" (PlayCard SKIP None None) 2 2)
             (leaf "pass" Pass 2 1) 1%float 0.5%float 1%float 0.5%float
             _ _ _ _ _ _ _)) _);
      [vm_compute; reflexivity..|right; reflexivity].
Defined.

(** C8 as stated fails: with exploration constant [float('inf')] the value
    of the visited first child is [+infinity] as well, and with the largest
    finite constant it overflows to [+infinity]; the unvisited child, listed
    later, does not exceed it and [best_child] returns the visited one. *)
Lemma visited_child_selected_first :
  snd <$> children lost_once_tree
  = [leaf "pass" Pass 1 0; leaf "play_SKIP_None" (PlayCard SKIP None None) 0 0]
  ∧ ucb1 log_table (Some lost_once_tree) (leaf "pass" Pass 1 0) infinity = Ok infinity
  ∧ best_child log_table lost_once_tree infinity = Ok (leaf "pass" Pass 1 0)
  ∧ snd <$> children wide_tree
    = [leaf "pass" Pass 1 0; leaf "play_SKIP_None" (PlayCard SKIP None None) 1 1;
       leaf "play_ATTACK_None" (PlayCard ATTACK None None) 0 0]
  ∧ ucb1 log_table (Some wide_tree) (leaf "pass" Pass 1 0) float_max = Ok infinity
  ∧ best_child log_table wide_tree float_max = Ok (leaf "pass" Pass 1 0).
Proof. repeat split; vm_compute; reflexivity. Qed.

(** * Further properties of the code *)

(** ** The other single-card plays *)

Lemma locate_current g player :
  current_player (state g) = Ok player →
  ∃ me, Py.locate (players (state g)) (current_player_idx (state g)) = Ok me
    ∧ players (state g) !! me = Some player.
Proof.
  unfold current_player. intros H. apply get_Ok in H as (me & Hn & Hme).
  exists me. split; [by apply locate_Ok|done].
Qed.

(** X1.  Skip, whether or not the player holds the card: nothing is drawn,
    the deck stays as it is, what [remove_card] returns goes to the discard
    pile, and one pending turn is consumed: [turns_remaining] drops by one, or,
    when that reaches 0, is reset to 1 with the next alive player to move. *)
Theorem skip_ends_turn (g : Game) (player : Player)
    (target : option Z) (steal : option CardType) (r : Rng) :
  wf_game g → Exists (λ p, alive p = true) (players (state g)) →
  current_player (state g) = Ok player →
  ∃ g' res,
    execute_action g (PlayCard SKIP target steal) r = Ok (g', res, r)
    ∧ deck (state g') = deck (state g)
    ∧ players (state g')
      = <[Z.to_nat (current_player_idx (state g)):=(remove_card player SKIP).2]>
          (players (state g))
    ∧ discard (state g') = discard (state g) ++ [(remove_card player SKIP).1]
    ∧ if bool_decide (1 < turns_remaining (state g))%Z
      then turns_remaining (state g') = (turns_remaining (state g) - 1)%Z
           ∧ current_player_idx (state g') = current_player_idx (state g)
      else turns_remaining (state g') = 1%Z
           ∧ next_alive_after (players (state g')) (current_player_idx (state g))
               (current_player_idx (state g')).
Proof.
  intros Hwf Hex Hcur. pose proof Hwf as (Hn & Hc & _).
  destruct (get_nonneg (players (state g)) (current_player_idx (state g)))
    as (p & Hme & Hget & Hloc); [lia|].
  unfold current_player in Hcur. assert (p = player) as -> by congruence.
  set (me := Z.to_nat (current_player_idx (state g))) in *.
  destruct (remove_card_keeps player SKIP) as [Hid Hal].
  unfold execute_action, current_player. rewrite Hloc, Hget. simpl.
  destruct (remove_card player SKIP) as [card player'] eqn:Er. simpl in Hid, Hal.
  set (s1 := with_discard (discard (state g) ++ [card])
               (with_players (<[me:=player']> (players (state g))) (state g))).
  destruct (wf_replace_player g s1 me player player' Hwf Hme Hid Hal eq_refl eq_refl)
    as [Hwf1 Hex1].
  change (_do_skip (with_state s1 g)) with (_end_turn (with_state s1 g)).
  destruct (end_turn_spec (with_state s1 g) Hwf1 (Hex1 Hex)) as (g1 & -> & Hb & Hturn).
  destruct Hb as (_ & _ & Hp & Hd & Hdc & _).
  simpl. eexists _, _. split; [reflexivity|].
  match goal with |- context [_check_game_over ?g2] =>
    destruct (check_game_over_board g2) as (_ & _ & -> & -> & -> & -> & -> & _) end.
  simpl in *. rewrite Hp, Hd, Hdc. split_and!; try done.
Qed.

Lemma skip_ends_turn_witness :
  wf_game example_game_p1
  ∧ Exists (λ p, alive p = true) (players (state example_game_p1))
  ∧ ∃ g' res,
      execute_action example_game_p1 (PlayCard SKIP None None) rng_zero
      = Ok (g', res, rng_zero)
      ∧ deck (state g') = deck (state example_game_p1)
      ∧ players (state g')
        = [mkPlayer 0 [mkCard ATTACK; mkCard DEFUSE] true;
           mkPlayer 1 [mkCard ATTACK] true]
      ∧ discard (state g') = [Some (mkCard SKIP)]
      ∧ turns_remaining (state g') = 1%Z
      ∧ next_alive_after (players (state g')) 1 (current_player_idx (state g')).
Proof.
  assert (Exists (λ p, alive p = true) (players (state example_game_p1))) as Hex
    by (by apply Exists_cons_hd).
  split; [apply example_game_p1_wf|]. split; [exact Hex|].
  apply (skip_ends_turn example_game_p1 _ None None rng_zero example_game_p1_wf Hex eq_refl).
Defined.

Lemma peek_top_suffix s n : ∃ below, deck s = below ++ peek_top s n.
Proof.
  unfold peek_top, Py.last_n. case_bool_decide.
  - exists (take (length (deck s) - n) (deck s)). by rewrite take_drop.
  - by exists [].
Qed.

Lemma length_peek_top s n : length (peek_top s n) = n `min` length (deck s).
Proof.
  unfold peek_top, Py.last_n. case_bool_decide; [rewrite length_drop|]; lia.
Qed.

(** X2.  See the Future: the player learns the cards the next draws will give.
    The seen cards are the top [min(3, len(deck))] cards, the next one to
    be drawn last; nothing else moves and the turn goes on. *)
Theorem see_the_future_reveals_top (g : Game) (player : Player)
    (target : option Z) (steal : option CardType) (r : Rng) :
  current_player (state g) = Ok player →
  ∃ g' res below seen,
    execute_action g (PlayCard SEE_THE_FUTURE target steal) r = Ok (g', res, r)
    ∧ ("seen_cards", VTypes (card_type <$> seen)) ∈ res
    ∧ deck (state g) = below ++ seen
    ∧ length seen = 3 `min` length (deck (state g))
    ∧ top_three_known_by (state g') = Some (id player)
    ∧ deck (state g') = deck (state g)
    ∧ current_player_idx (state g') = current_player_idx (state g)
    ∧ turns_remaining (state g') = turns_remaining (state g).
Proof.
  intros Hcur. destruct (locate_current g player Hcur) as (me & Hloc & Hme).
  unfold execute_action. rewrite Hloc, Hcur. simpl.
  destruct (remove_card player SEE_THE_FUTURE) as [card player'] eqn:Er.
  set (s1 := with_discard _ _).
  destruct (peek_top_suffix s1 3) as [below Hbelow].
  eexists _, _, below, (peek_top s1 3). split; [reflexivity|].
  match goal with |- context [_check_game_over ?g2] =>
    destruct (check_game_over_board g2) as (_ & _ & _ & -> & _ & -> & -> & ->) end.
  simpl. split_and!; try done.
  - do 5 (apply elem_of_cons; right). apply elem_of_cons. by left.
  - apply length_peek_top.
Qed.

Lemma see_the_future_reveals_top_witness :
  current_player (state example_game) = Ok (mkPlayer 0 [mkCard ATTACK; mkCard DEFUSE] true)
  ∧ ∃ g' res below seen,
      execute_action example_game (PlayCard SEE_THE_FUTURE None None) rng_zero
      = Ok (g', res, rng_zero)
      ∧ ("seen_cards", VTypes (card_type <$> seen)) ∈ res
      ∧ deck (state example_game) = below ++ seen
      ∧ length seen = 3 `min` length (deck (state example_game))
      ∧ top_three_known_by (state g') = Some 0%Z
      ∧ deck (state g') = deck (state example_game)
      ∧ current_player_idx (state g') = current_player_idx (state example_game)
      ∧ turns_remaining (state g') = turns_remaining (state example_game).
Proof.
  split; [reflexivity|].
  apply (see_the_future_reveals_top example_game _ None None rng_zero eq_refl).
Defined.

(** X3.  Shuffle: the deck is rearranged, never changed in content; the
    known-top fact is cleared and the turn goes on. *)
Theorem shuffle_permutes_deck (g : Game) (player : Player)
    (target : option Z) (steal : option CardType) (r : Rng) :
  current_player (state g) = Ok player →
  ∃ g' res r',
    execute_action g (PlayCard SHUFFLE target steal) r = Ok (g', res, r')
    ∧ deck (state g') ≡ₚ deck (state g)
    ∧ top_three_known_by (state g') = None
    ∧ current_player_idx (state g') = current_player_idx (state g)
    ∧ turns_remaining (state g') = turns_remaining (state g).
Proof.
  intros Hcur. destruct (locate_current g player Hcur) as (me & Hloc & Hme).
  unfold execute_action. rewrite Hloc, Hcur. simpl.
  destruct (remove_card player SHUFFLE) as [card player'] eqn:Er.
  unfold shuffle_deck. proj_simpl.
  destruct (shuffle (deck (state g)) r) as [d r'] eqn:Es.
  apply shuffle_eq_Permutation in Es.
  eexists _, _, _. split; [reflexivity|].
  match goal with |- context [_check_game_over ?g2] =>
    destruct (check_game_over_board g2) as (_ & _ & _ & -> & _ & -> & -> & ->) end.
  simpl. by split_and!.
Qed.

Lemma shuffle_permutes_deck_witness :
  current_player (state example_game) = Ok (mkPlayer 0 [mkCard ATTACK; mkCard DEFUSE] true)
  ∧ ∃ g' res r',
      execute_action example_game (PlayCard SHUFFLE None None) rng_three = Ok (g', res, r')
      ∧ deck (state g') ≡ₚ deck (state example_game)
      ∧ top_three_known_by (state g') = None
      ∧ current_player_idx (state g') = current_player_idx (state example_game)
      ∧ turns_remaining (state g') = turns_remaining (state example_game).
Proof.
  split; [reflexivity|].
  apply (shuffle_permutes_deck example_game _ None None rng_three eq_refl).
Defined.

(** ** Drawing *)

(** X4.  Drawing a card that is no kitten: it moves from the top of the deck to
    the end of the drawer's hand, and the turn ends. *)
Theorem safe_draw (g : Game) (r : Rng) (player : Player) (deck' : list Card)
    (card : Card) :
  wf_game g → Exists (λ p, alive p = true) (players (state g)) →
  current_player (state g) = Ok player →
  deck (state g) = deck' ++ [card] →
  card_type card ≠ EXPLODING_KITTEN →
  ∃ g' res,
    execute_action g Pass r = Ok (g', res, r)
    ∧ ("draw", VType (card_type card)) ∈ res
    ∧ deck (state g') = deck'
    ∧ players (state g')
      = <[Z.to_nat (current_player_idx (state g)):=set_hand (hand player ++ [card]) player]>
          (players (state g))
    ∧ discard (state g') = discard (state g)
    ∧ if bool_decide (1 < turns_remaining (state g))%Z
      then turns_remaining (state g') = (turns_remaining (state g) - 1)%Z
           ∧ current_player_idx (state g') = current_player_idx (state g)
      else turns_remaining (state g') = 1%Z
           ∧ next_alive_after (players (state g')) (current_player_idx (state g))
               (current_player_idx (state g')).
Proof.
  intros Hwf Hex Hcur Hdeck Hk. pose proof Hwf as (Hn & Hc & Hids).
  destruct (get_nonneg (players (state g)) (current_player_idx (state g)))
    as (p & Hme & Hget & Hloc); [lia|].
  pose proof Hcur as Hcur'. unfold current_player in Hcur'.
  assert (p = player) as -> by congruence. clear Hcur'.
  set (me := Z.to_nat (current_player_idx (state g))) in *.
  unfold execute_action, _do_draw. rewrite Hloc, Hcur. simpl.
  rewrite Hdeck, match_snoc, pop_snoc. simpl.
  unfold is_type at 1. rewrite bool_decide_false by done.
  set (s2 := with_players _ _).
  destruct (wf_replace_player g s2 me player (set_hand (hand player ++ [card]) player)
              Hwf Hme eq_refl eq_refl eq_refl eq_refl) as [Hwf2 Hex2].
  destruct (end_turn_spec (with_state s2 g) Hwf2 (Hex2 Hex)) as (g1 & -> & Hb & Hturn).
  destruct Hb as (_ & _ & Hp & Hd & Hdc & _).
  simpl. eexists _, _. split; [reflexivity|].
  match goal with |- context [_check_game_over ?g2] =>
    destruct (check_game_over_board g2) as (_ & _ & -> & -> & -> & -> & -> & _) end.
  simpl in *. rewrite Hp, Hd, Hdc. split_and!; try done.
  do 3 (apply elem_of_cons; right). apply elem_of_cons. by left.
Qed.

Lemma safe_top_game_wf : wf_game safe_top_game.
Proof. unfold wf_game. simpl. split_and!; [done|lia|lia|reflexivity]. Qed.

Lemma safe_draw_witness :
  wf_game safe_top_game
  ∧ Exists (λ p, alive p = true) (players (state safe_top_game))
  ∧ ∃ g' res,
      execute_action safe_top_game Pass rng_zero = Ok (g', res, rng_zero)
      ∧ ("draw", VType SHUFFLE) ∈ res
      ∧ deck (state g') = [mkCard NOPE]
      ∧ players (state g')
        = [mkPlayer 0 [mkCard ATTACK; mkCard DEFUSE; mkCard SHUFFLE] true;
           mkPlayer 1 [mkCard ATTACK; mkCard SKIP] true]
      ∧ discard (state g') = []
      ∧ turns_remaining (state g') = 1%Z
      ∧ next_alive_after (players (state g')) 0 (current_player_idx (state g')).
Proof.
  assert (Exists (λ p, alive p = true) (players (state safe_top_game))) as Hex
    by (by apply Exists_cons_hd).
  split; [apply safe_top_game_wf|]. split; [exact Hex|].
  apply (safe_draw safe_top_game rng_zero _ [mkCard NOPE] (mkCard SHUFFLE)
           safe_top_game_wf Hex eq_refl eq_refl).
  discriminate.
Defined.

(** X5.  Who moves after an elimination.  When the player to move explodes with
    a single turn to take, the next alive player moves: the first alive
    seat met from the eliminated player's seat on, cyclically, which is
    another seat.  When the player was under attack (more than one turn to
    take), the turn is NOT handed on: the eliminated player stays the
    current player, with one turn less, and is offered actions again. *)
Theorem turn_after_elimination (g : Game) (r : Rng) (player : Player)
    (deck' : list Card) (kitten : Card) :
  wf_game g → other_alive g →
  current_player (state g) = Ok player →
  deck (state g) = deck' ++ [kitten] →
  card_type kitten = EXPLODING_KITTEN →
  has_card player DEFUSE = false →
  ∃ g' res,
    execute_action g Pass r = Ok (g', res, r)
    ∧ ("defused", VBool false) ∈ res
    ∧ if bool_decide (1 < turns_remaining (state g))%Z
      then current_player_idx (state g') = current_player_idx (state g)
           ∧ turns_remaining (state g') = (turns_remaining (state g) - 1)%Z
           ∧ (∃ p, current_player (state g') = Ok p ∧ alive p = false)
           ∧ (∃ acts, get_legal_actions g' None = Ok acts ∧ Pass ∈ acts)
      else turns_remaining (state g') = 1%Z
           ∧ next_alive_after (players (state g')) (current_player_idx (state g))
               (current_player_idx (state g'))
           ∧ current_player_idx (state g') ≠ current_player_idx (state g)
           ∧ (∃ p, current_player (state g') = Ok p ∧ alive p = true).
Proof.
  intros Hwf Hother Hcur Hdeck Hk Hdef.
  pose proof Hwf as (Hn & Hc & Hids).
  destruct (get_nonneg (players (state g)) (current_player_idx (state g)))
    as (p & Hme & Hget & Hloc); [lia|].
  pose proof Hcur as Hcur'. unfold current_player in Hcur'.
  assert (p = player) as -> by congruence. clear Hcur'.
  set (me := Z.to_nat (current_player_idx (state g))) in *.
  assert (Exists (λ p, alive p = true ∧ id p ≠ Z.of_nat me) (players (state g))) as Hother'.
  { unfold other_alive in Hother. by replace (Z.of_nat me) with (current_player_idx (state g))
      by (subst me; lia). }
  assert (me < length (players (state g))) as Hlt by (by eapply lookup_lt_Some).
  unfold execute_action, _do_draw. rewrite Hloc, Hcur. simpl.
  rewrite Hdeck, match_snoc, pop_snoc. simpl.
  unfold is_type at 1. rewrite bool_decide_true by done. rewrite Hdef.
  set (s2 := with_discard _ _).
  assert (wf_game (with_state s2 g)) as Hwf2.
  { unfold wf_game. simpl. rewrite length_insert. split_and!; [done|lia|lia|].
    eapply ids_ok_fmap; [|exact Hids]. by apply (fmap_insert_same id _ _ player). }
  destruct (end_turn_spec (with_state s2 g) Hwf2) as (g1 & -> & Hb & Hturn).
  { simpl. apply Exists_exists in Hother' as (q & Hq & Hqa & Hqid).
    apply list_elem_of_lookup in Hq as [j Hj].
    assert (j ≠ me) by (intros ->; apply Hqid; by rewrite (ids_ok_lookup _ _ _ Hids Hj)).
    apply Exists_exists. exists q. split; [|done].
    eapply list_elem_of_lookup_2. by rewrite list_lookup_insert_ne. }
  destruct Hb as (_ & _ & Hp & _).
  simpl. eexists _, _. split; [reflexivity|]. split.
  { do 5 (apply elem_of_cons; right). apply elem_of_cons. by left. }
  unfold get_legal_actions, current_player.
  match goal with |- context [_check_game_over ?g2] =>
    destruct (check_game_over_board g2) as (_ & _ & -> & _ & _ & -> & -> & _) end.
  simpl in *. rewrite Hp.
  assert (Py.get (<[me:=set_alive false player]> (players (state g)))
            (current_player_idx (state g)) = Ok (set_alive false player)) as Hdead.
  { apply get_Ok. exists me. split; [by apply locate_Ok in Hloc; rewrite length_insert|].
    by apply list_lookup_insert_eq. }
  case_bool_decide as Hturns.
  - destruct Hturn as [-> ->]. rewrite Hdead. split_and!; [done|done| |].
    + by exists (set_alive false player).
    + simpl. eexists. split; [reflexivity|]. apply elem_of_cons. by left.
  - destruct Hturn as [-> Hnext]. split; [done|]. split; [exact Hnext|].
    destruct Hnext as (k & Hk1 & Hidx & (q & Hq & Hqa) & _).
    rewrite length_insert in *.
    assert (0 ≤ current_player_idx (state g1) < Z.of_nat (length (players (state g))))%Z
      as Hrange by (rewrite Hidx; apply Z.mod_pos_bound; lia).
    split.
    + intros Heq. rewrite Heq in Hq. fold me in Hq.
      rewrite list_lookup_insert_eq in Hq by done.
      by simplify_eq.
    + exists q. split; [|done]. apply get_Ok. exists (Z.to_nat (current_player_idx (state g1))).
      split; [|done]. rewrite length_insert. by apply norm_index_nonneg.
Qed.

Lemma attacked_game_p1_wf : wf_game attacked_game_p1.
Proof. unfold wf_game. simpl. split_and!; [done|lia|lia|reflexivity]. Qed.

Lemma turn_after_elimination_witness :
  wf_game attacked_game_p1 ∧ other_alive attacked_game_p1
  ∧ ∃ g' res,
      execute_action attacked_game_p1 Pass rng_zero = Ok (g', res, rng_zero)
      ∧ ("defused", VBool false) ∈ res
      ∧ current_player_idx (state g') = 1%Z
      ∧ turns_remaining (state g') = 1%Z
      ∧ (∃ p, current_player (state g') = Ok p ∧ alive p = false)
      ∧ (∃ acts, get_legal_actions g' None = Ok acts ∧ Pass ∈ acts).
Proof.
  assert (other_alive attacked_game_p1) as Hother
    by (unfold other_alive; simpl; apply Exists_cons_hd; by split).
  split; [apply attacked_game_p1_wf|]. split; [exact Hother|].
  apply (turn_after_elimination attacked_game_p1 rng_zero _
           [mkCard NOPE; mkCard SHUFFLE; mkCard CAT_TACOCAT] (mkCard EXPLODING_KITTEN)
           attacked_game_p1_wf Hother eq_refl eq_refl eq_refl eq_refl).
Defined.

(** ** agents.py : what the agents choose *)

Lemma first_found_elem_of tests l a : first_found tests l = Some a → a ∈ l.
Proof.
  induction tests as [|t tests IH]; simpl; [done|].
  destruct (find t l) eqn:E; [|done]. intros; simplify_eq. by eapply find_elem_of.
Qed.

Lemma first_found_sat tests l a :
  first_found tests l = Some a → ∃ t, t ∈ tests ∧ t a = true.
Proof.
  induction tests as [|t tests IH]; simpl; [done|].
  destruct (find t l) eqn:E.
  - intros; simplify_eq. exists t. split; [by left|]. by apply find_some in E as [_ ?].
  - intros H. destruct (IH H) as (t' & ? & ?). exists t'. split; [by right|done].
Qed.

Lemma find_is_Some {A} (P : A → bool) l a : a ∈ l → P a = true → is_Some (find P l).
Proof.
  intros Hin HP. destruct (find P l) eqn:E; [done|].
  apply list_elem_of_In in Hin. pose proof (find_none _ _ E _ Hin). congruence.
Qed.

Lemma first_found_pass tests l :
  Pass ∈ l → is_Some (first_found (tests ++ [is_pass]) l).
Proof.
  intros Hin. induction tests as [|t tests IH]; simpl.
  - destruct (find_is_Some is_pass l Pass Hin eq_refl) as [a ->]. done.
  - by destruct (find t l).
Qed.

Lemma first_found_head t tests l a :
  a ∈ l → t a = true → ∃ b, first_found (t :: tests) l = Some b ∧ t b = true.
Proof.
  intros Hin Ht. simpl. destruct (find_is_Some t l a Hin Ht) as [b Hb].
  rewrite Hb. exists b. split; [done|]. by apply find_some in Hb as [_ ?].
Qed.

Lemma legal_actions_pass g acts : get_legal_actions g None = Ok acts → Pass ∈ acts.
Proof.
  unfold get_legal_actions. destruct (Py.get _ _); simpl; [|done..].
  intros; simplify_eq. by left.
Qed.

(** The scripted part of each agent: the actions its loops look for, in
    order. *)
Lemma choose_action_scripted self game acts r :
  (agent_class self = DefensiveAgent →
     (0 ≤ player_id self < Z.of_nat (length (players (state game))))%Z) →
  agent_class self = RandomAgent
  ∨ ∃ tests, choose_action self game acts r
             = match first_found (tests ++ [is_pass]) acts with
               | Some a => Ok (a, r)
               | None => choice acts r
               end.
Proof.
  intros Hpid. unfold choose_action. destruct (agent_class self) eqn:Ec; [by left|right..].
  - exists []. unfold PassiveAgent_choose_action. simpl. by destruct (find is_pass acts).
  - unfold AggressiveAgent_choose_action.
    eexists ([_; _; _] ++ _). rewrite <- app_assoc. reflexivity.
  - unfold DefensiveAgent_choose_action.
    destruct (get_nonneg (players (state game)) (player_id self)) as (p & _ & -> & _); [auto|].
    unfold mbind, outcome_bind. cbn zeta.
    match goal with
    | |- context [first_found (?e ++ ?l ++ ?d ++ [is_pass])] => exists (e ++ l ++ d)
    end.
    by rewrite <- !app_assoc.
Qed.

Lemma choose_action_legal (self : Agent) (game : Game) (legal_actions : list Action)
    (r : Rng) :
  legal_actions ≠ [] →
  (agent_class self = DefensiveAgent →
     (0 ≤ player_id self < Z.of_nat (length (players (state game))))%Z) →
  ∃ a r', choose_action self game legal_actions r = Ok (a, r') ∧ a ∈ legal_actions.
Proof.
  intros Hne Hpid.
  destruct (choose_action_scripted self game legal_actions r Hpid) as [Hc|[tests ->]].
  - unfold choose_action. rewrite Hc. by apply choice_Ok.
  - destruct (first_found _ _) as [a|] eqn:E.
    + exists a, r. split; [done|]. by eapply first_found_elem_of.
    + by apply choice_Ok.
Qed.

(** X6.  Every agent of agents.py answers with one of the actions it was
    offered, whatever the list, as long as the list is not empty (a
    [DefensiveAgent] must in addition sit at a seat of the game, since it
    looks up its own hand). *)
Theorem agents_choose_legal (self : Agent) (game : Game) (legal_actions : list Action)
    (r : Rng) :
  legal_actions ≠ [] →
  (agent_class self = DefensiveAgent →
     (0 ≤ player_id self < Z.of_nat (length (players (state game))))%Z) →
  ∃ a r', choose_action self game legal_actions r = Ok (a, r') ∧ a ∈ legal_actions.
Proof. apply choose_action_legal. Qed.

Lemma agents_choose_legal_witness :
  ∃ a r', choose_action (mkAgent DefensiveAgent 1) example_game
            [Pass; PlayCard SKIP None None] rng_three = Ok (a, r')
          ∧ a ∈ [Pass; PlayCard SKIP None None].
Proof.
  apply (agents_choose_legal (mkAgent DefensiveAgent 1) example_game).
  - discriminate.
  - intros _. simpl. lia.
Defined.

(** X7.  On the actions the engine offers, the three scripted agents never reach
    their [random.choice] fallback: they answer without consuming the
    random generator, and a [PassiveAgent] always passes. *)
Theorem scripted_agents_use_no_randomness (self : Agent) (game : Game)
    (acts : list Action) (r : Rng) :
  agent_class self ≠ RandomAgent →
  (agent_class self = DefensiveAgent →
     (0 ≤ player_id self < Z.of_nat (length (players (state game))))%Z) →
  get_legal_actions game None = Ok acts →
  ∃ a, choose_action self game acts r = Ok (a, r) ∧ a ∈ acts
       ∧ (agent_class self = PassiveAgent → a = Pass).
Proof.
  intros Hc Hpid Hl. pose proof (legal_actions_pass _ _ Hl) as Hpass.
  destruct (choose_action_scripted self game acts r Hpid) as [?|[tests Hch]]; [done|].
  destruct (first_found_pass tests acts Hpass) as [a Ha]. rewrite Ha in Hch.
  exists a. split; [done|]. split; [by eapply first_found_elem_of|].
  intros Hp. revert Hch. unfold choose_action, PassiveAgent_choose_action. rewrite Hp.
  destruct (find_is_Some is_pass acts Pass Hpass eq_refl) as [b Hb]. rewrite Hb.
  intros [= ->]. apply find_some in Hb as [_ Hb]. by destruct a.
Qed.

Lemma scripted_agents_use_no_randomness_witness :
  ∃ a, choose_action (mkAgent PassiveAgent 0) example_game
         [Pass; PlayCard ATTACK None None] rng_three = Ok (a, rng_three)
       ∧ a ∈ [Pass; PlayCard ATTACK None None]
       ∧ (PassiveAgent = PassiveAgent → a = Pass).
Proof.
  apply (scripted_agents_use_no_randomness (mkAgent PassiveAgent 0) example_game).
  - discriminate.
  - discriminate.
  - reflexivity.
Defined.

(** X8.  An [AggressiveAgent] offered the engine's legal actions plays Attack
    whenever the player to move holds one.  Whatever it holds, it never
    plays Shuffle or See the Future, and it plays Skip only when more than
    one turn remains. *)
Theorem aggressive_agent_priorities (self : Agent) (game : Game) (player : Player)
    (acts : list Action) (r : Rng) :
  agent_class self = AggressiveAgent →
  current_player (state game) = Ok player →
  get_legal_actions game None = Ok acts →
  ∃ a, choose_action self game acts r = Ok (a, r)
    ∧ (has_card player ATTACK = true → a = PlayCard ATTACK None None)
    ∧ a ≠ PlayCard SHUFFLE None None
    ∧ a ≠ PlayCard SEE_THE_FUTURE None None
    ∧ (a = PlayCard SKIP None None → (1 < turns_remaining (state game))%Z).
Proof.
  intros Hc Hcur Hl. pose proof (legal_actions_pass _ _ Hl) as Hpass.
  unfold choose_action, AggressiveAgent_choose_action. rewrite Hc.
  set (burn := if bool_decide _ then _ else _).
  set (tests := [is_play_of [ATTACK]; is_cat_pair; is_play_of [FAVOR]] ++ burn).
  replace (_ ++ burn ++ [is_pass]) with (tests ++ [is_pass])
    by (unfold tests; by rewrite <- app_assoc).
  destruct (first_found_pass tests acts Hpass) as [a Ha]. rewrite Ha.
  exists a. split; [done|]. split.
  - intros Hatk.
    assert (PlayCard ATTACK None None ∈ acts) as Hin.
    { revert Hl. unfold get_legal_actions. unfold current_player in Hcur.
      cbn zeta. cbn [default]. rewrite Hcur. unfold mbind, outcome_bind.
      intros [= <-]. apply elem_of_cons. right. apply elem_of_app. left.
      rewrite filter_cons, decide_True by done. rewrite fmap_cons.
      apply elem_of_cons. by left. }
    assert (is_play_of [ATTACK] (PlayCard ATTACK None None) = true) as Hp.
    { cbn [is_play_of]. apply bool_decide_eq_true. apply elem_of_cons. by left. }
    destruct (find_is_Some (is_play_of [ATTACK]) acts _ Hin Hp) as [b Hb].
    assert (first_found (tests ++ [is_pass]) acts = Some b) as Hb'.
    { subst tests. cbn [app first_found]. by rewrite Hb. }
    rewrite Hb' in Ha. injection Ha as <-.
    pose proof (find_elem_of _ _ _ Hb) as Hbin.
    apply find_some in Hb as [_ Hplay].
    destruct (legal_cases _ _ _ Hl Hbin)
      as (pl & _ & [->|[(ct & -> & _)|[(o & -> & _)|(c & o & -> & _)]]]);
      cbn [is_play_of] in Hplay; try discriminate Hplay.
    apply bool_decide_eq_true in Hplay.
    apply elem_of_cons in Hplay as [->|Hplay]; [done|].
    by apply elem_of_nil in Hplay.
  - apply first_found_sat in Ha as (t & Ht & Hta).
    subst tests. apply elem_of_app in Ht as [Ht|Ht];
      [apply elem_of_app in Ht as [Ht|Ht]|].
    + repeat (apply elem_of_cons in Ht as [->|Ht]); [..|by apply elem_of_nil in Ht];
        split_and!; intros ->; refute_test Hta.
    + subst burn. case_bool_decide as Hturn; [|by apply elem_of_nil in Ht].
      apply elem_of_cons in Ht as [->|Ht]; [|by apply elem_of_nil in Ht].
      split_and!; [intros ->; refute_test Hta..|done].
    + apply elem_of_cons in Ht as [->|Ht]; [|by apply elem_of_nil in Ht].
      split_and!; intros ->; refute_test Hta.
Qed.

Lemma aggressive_agent_priorities_witness :
  ∃ a, choose_action (mkAgent AggressiveAgent 0) example_game
         [Pass; PlayCard ATTACK None None] rng_three = Ok (a, rng_three)
    ∧ (has_card (mkPlayer 0 [mkCard ATTACK; mkCard DEFUSE] true) ATTACK = true
       → a = PlayCard ATTACK None None)
    ∧ a ≠ PlayCard SHUFFLE None None
    ∧ a ≠ PlayCard SEE_THE_FUTURE None None
    ∧ (a = PlayCard SKIP None None → (1 < turns_remaining (state example_game))%Z).
Proof.
  apply (aggressive_agent_priorities (mkAgent AggressiveAgent 0) example_game).
  - reflexivity.
  - reflexivity.
  - reflexivity.
Defined.

(** X9.  A [DefensiveAgent] offered the engine's legal actions never steals: it
    plays neither Favor nor a cat pair; and it attacks only in danger, that
    is with at most five cards in the deck and no defuse in hand. *)
Theorem defensive_agent_never_steals (self : Agent) (game : Game) (me : Player)
    (acts : list Action) (r : Rng) :
  agent_class self = DefensiveAgent →
  Py.get (players (state game)) (player_id self) = Ok me →
  get_legal_actions game None = Ok acts →
  ∃ a, choose_action self game acts r = Ok (a, r)
    ∧ is_cat_pair a = false
    ∧ is_play_of [FAVOR] a = false
    ∧ (is_play_of [ATTACK] a = true →
         length (deck (state game)) ≤ 5 ∧ has_card me DEFUSE = false).
Proof.
  intros Hc Hme Hl. pose proof (legal_actions_pass _ _ Hl) as Hpass.
  unfold choose_action, DefensiveAgent_choose_action. rewrite Hc, Hme.
  unfold mbind, outcome_bind. cbn zeta.
  set (escape := if _ && negb _ then _ else _).
  set (look := if negb _ then _ else _).
  set (dodge := if _ && existsb _ _ then _ else _).
  replace (escape ++ look ++ dodge ++ [is_pass]) with ((escape ++ look ++ dodge) ++ [is_pass])
    by (by rewrite <- !app_assoc).
  destruct (first_found_pass (escape ++ look ++ dodge) acts Hpass) as [a Ha]. rewrite Ha.
  exists a. split; [done|].
  apply first_found_sat in Ha as (t & Ht & Hta).
  assert (∀ b, t b = true → is_cat_pair b = false ∧ is_play_of [FAVOR] b = false) as Hno.
  { clear Hta. intros b Hb. rewrite !elem_of_app in Ht.
    destruct Ht as [[Ht|[Ht|Ht]]|Ht].
    - subst escape. case_if_in Ht; [|by apply elem_of_nil in Ht].
      repeat (apply elem_of_cons in Ht as [->|Ht]); [..|by apply elem_of_nil in Ht];
        destruct b as [ct ? ?| | | |]; try discriminate Hb; (split; [done|]);
        cbn [is_play_of] in *; apply bool_decide_eq_true in Hb;
        apply list_elem_of_singleton in Hb as ->; apply bool_decide_eq_false_2;
        intros Hx; by apply list_elem_of_singleton in Hx.
    - subst look. case_if_in Ht; [|by apply elem_of_nil in Ht].
      repeat (apply elem_of_cons in Ht as [->|Ht]); [..|by apply elem_of_nil in Ht];
        destruct b as [ct ? ?| | | |]; try discriminate Hb; (split; [done|]);
        cbn [is_play_of] in *; apply bool_decide_eq_true in Hb;
        apply list_elem_of_singleton in Hb as ->; apply bool_decide_eq_false_2;
        intros Hx; by apply list_elem_of_singleton in Hx.
    - subst dodge. case_if_in Ht; [|by apply elem_of_nil in Ht].
      repeat (apply elem_of_cons in Ht as [->|Ht]); [..|by apply elem_of_nil in Ht];
        destruct b as [ct ? ?| | | |]; try discriminate Hb; (split; [done|]);
        cbn [is_play_of] in *; apply bool_decide_eq_true in Hb;
        apply list_elem_of_singleton in Hb as ->; apply bool_decide_eq_false_2;
        intros Hx; by apply list_elem_of_singleton in Hx.
    - apply list_elem_of_singleton in Ht as ->. by destruct b. }
  destruct (Hno a Hta) as [? ?]. split_and!; [done|done|].
  intros Hatk.
  destruct (bool_decide (length (deck (state game)) ≤ 5) && negb (has_card me DEFUSE))
    eqn:Hdanger.
  { apply andb_true_iff in Hdanger as [Hd Hn]. apply bool_decide_eq_true in Hd.
    apply negb_true_iff in Hn. done. }
  exfalso. rewrite !elem_of_app in Ht. subst escape. try rewrite Hdanger in Ht. cbv iota in Ht.
  destruct Ht as [[Ht|[Ht|Ht]]|Ht].
  - by apply elem_of_nil in Ht.
  - subst look. case_if_in Ht; [|by apply elem_of_nil in Ht].
    apply list_elem_of_singleton in Ht as ->.
    destruct a as [ct ? ?| | | |]; try discriminate Hta.
    cbn [is_play_of] in *. apply bool_decide_eq_true, list_elem_of_singleton in Hta as ->.
    by apply bool_decide_eq_true, list_elem_of_singleton in Hatk.
  - subst dodge. case_if_in Ht; [|by apply elem_of_nil in Ht].
    repeat (apply elem_of_cons in Ht as [->|Ht]); [..|by apply elem_of_nil in Ht];
      destruct a as [ct ? ?| | | |]; try discriminate Hta;
      cbn [is_play_of] in *; apply bool_decide_eq_true, list_elem_of_singleton in Hta as ->;
      by apply bool_decide_eq_true, list_elem_of_singleton in Hatk.
  - apply list_elem_of_singleton in Ht as ->. by destruct a.
Qed.

Lemma defensive_agent_never_steals_witness :
  ∃ a, choose_action (mkAgent DefensiveAgent 0) example_game
         [Pass; PlayCard ATTACK None None] rng_three = Ok (a, rng_three)
    ∧ is_cat_pair a = false
    ∧ is_play_of [FAVOR] a = false
    ∧ (is_play_of [ATTACK] a = true →
         length (deck (state example_game)) ≤ 5
         ∧ has_card (mkPlayer 0 [mkCard ATTACK; mkCard DEFUSE] true) DEFUSE = false).
Proof.
  apply (defensive_agent_never_steals (mkAgent DefensiveAgent 0) example_game).
  - reflexivity.
  - reflexivity.
  - reflexivity.
Defined.

(** ** Where a defused kitten goes *)

Lemma elem_of_insert_positions g pos :
  pos ∈ get_insert_positions g ↔ (0 ≤ pos ≤ Z.of_nat (length (deck (state g))))%Z.
Proof.
  unfold get_insert_positions. rewrite list_elem_of_fmap. split.
  - intros (k & -> & Hk). apply elem_of_seq in Hk. lia.
  - intros H. exists (Z.to_nat pos). split; [lia|]. apply elem_of_seq. lia.
Qed.

(** X10.  Asked for a position in a deck of [max_position] cards, every agent of
    agents.py answers with one of the positions [get_insert_positions]
    lists, and the three scripted agents answer without consuming the random
    generator. *)
Theorem agents_insert_position_legal (self : Agent) (game : Game) (r : Rng) :
  ∃ pos r',
    choose_insert_position self game (Z.of_nat (length (deck (state game)))) r = Ok (pos, r')
    ∧ pos ∈ get_insert_positions game
    ∧ (agent_class self ≠ RandomAgent → r' = r).
Proof.
  unfold choose_insert_position. destruct (agent_class self).
  - destruct (randint_Ok 0 (Z.of_nat (length (deck (state game)))) r) as (k & r' & -> & Hk);
      [lia|].
    exists k, r'. split; [done|]. split; [by apply elem_of_insert_positions|done].
  - eexists _, _. split; [done|]. split; [apply elem_of_insert_positions; lia|done].
  - case_bool_decide; eexists _, _; (split; [done|]);
      (split; [apply elem_of_insert_positions; lia|done]).
  - eexists _, _. split; [done|]. split; [apply elem_of_insert_positions; lia|done].
Qed.

(** X11.  The two search agents of mcts_agent.py also answer with a listed
    position, and never with the top of the deck once the deck holds two
    cards ([MCTSAgent]) or three cards ([FastMCTSAgent]). *)
Theorem search_agents_insert_position_legal (game : Game) (r : Rng) :
  let n := Z.of_nat (length (deck (state game))) in
  (∃ pos r', MCTSAgent_choose_insert_position n r = Ok (pos, r')
     ∧ pos ∈ get_insert_positions game ∧ ((2 ≤ n)%Z → (pos < n)%Z))
  ∧ (∃ pos r', FastMCTSAgent_choose_insert_position n r = Ok (pos, r')
       ∧ pos ∈ get_insert_positions game ∧ ((3 ≤ n)%Z → (pos < n)%Z)).
Proof.
  intros n. split.
  - unfold MCTSAgent_choose_insert_position. repeat case_bool_decide.
    + eexists _, _. split; [done|]. split; [apply elem_of_insert_positions; lia|lia].
    + eexists _, _. split; [done|]. split; [apply elem_of_insert_positions; lia|lia].
    + destruct (randint_Ok 2 (Z.min 4 n) r) as (k & r' & -> & Hk); [lia|].
      simpl. eexists _, _. split; [done|].
      split; [apply elem_of_insert_positions; lia|lia].
  - unfold FastMCTSAgent_choose_insert_position. case_bool_decide.
    + eexists _, _. split; [done|]. split; [apply elem_of_insert_positions; lia|lia].
    + destruct (randint_Ok 1 3 r) as (k & r' & -> & Hk); [lia|].
      simpl. eexists _, _. split; [done|].
      split; [apply elem_of_insert_positions; lia|lia].
Qed.

(** ** Inserting and drawing *)

(** X12.  [insert_card] never fails, and a card inserted at a listed position
    [pos] lies exactly [pos] cards above the bottom, with the cards that were
    there before in their order around it.  In particular a card inserted at
    position [len(deck)] is the next card drawn, and drawing it restores the
    deck.  A position beyond the top is clamped to the top. *)
Theorem insert_card_position (g : Game) (card : Card) (pos : Z) :
  let s := state g in
  (pos ∈ get_insert_positions g →
     deck (insert_card s card pos)
     = take (Z.to_nat pos) (deck s) ++ card :: drop (Z.to_nat pos) (deck s))
  ∧ ((Z.of_nat (length (deck s)) ≤ pos)%Z →
       draw_card (insert_card s card pos) = Ok (card, s)).
Proof.
  intros s. subst s. split.
  - intros Hpos%elem_of_insert_positions.
    unfold insert_card, Py.insert. proj_simpl. cbv zeta.
    rewrite !(bool_decide_false (pos < 0)%Z) by lia.
    rewrite (bool_decide_false (Z.of_nat (length (deck (state g))) < pos)%Z) by lia. done.
  - intros Hpos. unfold draw_card, insert_card, Py.insert. proj_simpl.
    cbv zeta. rewrite !(bool_decide_false (pos < 0)%Z) by lia.
    destruct (bool_decide _) eqn:E.
    + rewrite Nat2Z.id, take_ge, drop_ge by lia. rewrite pop_snoc. simpl.
      by destruct (state g).
    + apply bool_decide_eq_false in E.
      assert (pos = Z.of_nat (length (deck (state g)))) as -> by lia.
      rewrite Nat2Z.id, take_ge, drop_ge by lia. rewrite pop_snoc. simpl.
      by destruct (state g).
Qed.

Lemma insert_card_position_witness :
  deck (insert_card (state example_game) (mkCard DEFUSE) 1)
  = take 1 (deck (state example_game)) ++ mkCard DEFUSE :: drop 1 (deck (state example_game)).
Proof.
  apply (proj1 (insert_card_position example_game (mkCard DEFUSE) 1)).
  apply elem_of_insert_positions. simpl. lia.
Defined.

(** ** mcts_agent.py : cloning *)

(** X13.  [clone_game] returns an equal copy exactly when the discard pile holds
    cards only; on a pile holding a [None] (left there by a [PlayCard] of a
    card the player did not hold) it raises [AttributeError]. *)
Theorem clone_game_needs_typed_discard (game : Game) :
  (discard_typed game → clone_game game = Ok game)
  ∧ (¬ discard_typed game → clone_game game = Raise AttributeError).
Proof.
  split; [apply clone_game_typed|].
  unfold discard_typed, clone_game. intros Hn.
  assert (clone_discard (discard (state game)) = Raise AttributeError) as ->; [|done].
  induction (discard (state game)) as [|[c|] d IH]; simpl.
  - by destruct Hn.
  - rewrite IH; [done|]. intros Hd. apply Hn. by constructor.
  - done.
Qed.

(** ** game.py : the opponent of a two-player game *)

(** X14.  In a game of two players [other_player] is the player who is not to
    move.  With more players it is not: from seat 2 on the index
    [1 - current_player_idx] is negative and counts from the end of the
    list, so that at seat 2 of three players it is the player to move. *)
Theorem other_player_two_players (s : GameState) :
  ids_ok (players s) →
  (0 ≤ current_player_idx s < Z.of_nat (length (players s)))%Z →
  (length (players s) = 2 →
     ∃ p, other_player s = Ok p ∧ id p = (1 - current_player_idx s)%Z)
  ∧ (length (players s) = 3 → current_player_idx s = 2%Z →
       other_player s = current_player s).
Proof.
  intros Hids Hc. split.
  - intros Hlen. rewrite Hlen in Hc.
    destruct (get_nonneg (players s) (1 - current_player_idx s)) as (p & Hp & Hget & _);
      [lia|].
    exists p. split; [done|]. rewrite (ids_ok_lookup _ _ _ Hids Hp). lia.
  - intros Hlen Hcur. unfold other_player, current_player. rewrite Hcur.
    by destruct (players s) as [|p0 [|p1 [|p2 [|]]]].
Qed.

Lemma other_player_two_players_witness :
  (length (players example_state) = 2 →
     ∃ p, other_player example_state = Ok p
          ∧ id p = (1 - current_player_idx example_state)%Z)
  ∧ (length (players example_state) = 3 → current_player_idx example_state = 2%Z →
       other_player example_state = current_player example_state).
Proof.
  apply (other_player_two_players example_state).
  - reflexivity.
  - simpl. lia.
Defined.

(** ** game.py : cat pairs and legal actions *)

Lemma counter_keys_acc l : ∀ acc,
  NoDup acc →
  NoDup (foldl (λ ks x, if bool_decide (x ∈ ks) then ks else ks ++ [x]) acc l)
  ∧ ∀ x : CardType,
      x ∈ foldl (λ ks x, if bool_decide (x ∈ ks) then ks else ks ++ [x]) acc l
      ↔ x ∈ acc ∨ x ∈ l.
Proof.
  induction l as [|y l IH]; intros acc Hnd; simpl.
  - split; [done|]. intros x. rewrite elem_of_nil. tauto.
  - case_bool_decide as Hy.
    + destruct (IH acc Hnd) as [? Hin]. split; [done|]. intros x.
      rewrite Hin, elem_of_cons. split; [tauto|]. intros [?|[->|?]]; tauto.
    + destruct (IH (acc ++ [y])) as [? Hin].
      { apply NoDup_app. split_and!; [done| |apply NoDup_singleton].
        intros x Hx ->%list_elem_of_singleton. done. }
      split; [done|]. intros x.
      rewrite Hin, elem_of_app, list_elem_of_singleton, elem_of_cons. tauto.
Qed.

Lemma counter_keys_spec l :
  NoDup (counter_keys l) ∧ ∀ x, x ∈ counter_keys l ↔ x ∈ l.
Proof.
  destruct (counter_keys_acc l [] (NoDup_nil_2)) as [? Hin]. split; [done|].
  intros x. unfold counter_keys. rewrite Hin, elem_of_nil. tauto.
Qed.

Lemma filter_filter_eq {A} (P Q : A → Prop) `{!∀ x, Decision (P x)}
    `{!∀ x, Decision (Q x)} (l : list A) :
  (∀ x, P x → Q x) → filter P (filter Q l) = filter P l.
Proof.
  intros HPQ. induction l as [|x l IH]; [done|].
  rewrite (filter_cons Q). destruct (decide (Q x)).
  - rewrite !filter_cons. destruct (decide (P x)); by rewrite IH.
  - rewrite (filter_cons P). destruct (decide (P x)); [naive_solver|done].
Qed.

Lemma matching_cat_pairs_iff p ct :
  ct ∈ get_matching_cat_pairs p ↔ ct ∈ CAT_CARDS ∧ 2 ≤ count_card p ct.
Proof.
  unfold get_matching_cat_pairs.
  set (cats := filter (λ ct, ct ∈ CAT_CARDS) (card_type <$> hand p)).
  destruct (counter_keys_spec cats) as [Hnd Hkeys].
  rewrite list_elem_of_filter, Hkeys.
  assert (ct ∈ CAT_CARDS →
          length (filter (λ x, x = ct) cats) = count_card p ct) as Hcount.
  { intros Hcat. unfold cats. rewrite filter_filter_eq by (by intros ? ->).
    unfold count_card. fold (count_type ct (hand p)). by rewrite count_type_fmap. }
  split.
  - intros [H2 Hin]. unfold cats in Hin. apply list_elem_of_filter in Hin as [Hcat _].
    split; [done|]. by rewrite <- Hcount.
  - intros [Hcat H2]. rewrite Hcount by done. split; [done|].
    unfold cats. apply list_elem_of_filter. split; [done|].
    unfold count_card in H2.
    destruct (filter (λ c, card_type c = ct) (hand p)) as [|c l] eqn:E; [simpl in H2; lia|].
    assert (c ∈ filter (λ c, card_type c = ct) (hand p)) as Hc by (rewrite E; by left).
    apply list_elem_of_filter in Hc as [<- Hc]. by apply list_elem_of_fmap_2.
Qed.

(** X15.  [get_matching_cat_pairs] lists, each once, exactly the cat types of
    which the hand holds at least two cards. *)
Theorem matching_cat_pairs_spec (p : Player) :
  NoDup (get_matching_cat_pairs p)
  ∧ ∀ ct, ct ∈ get_matching_cat_pairs p ↔ ct ∈ CAT_CARDS ∧ 2 ≤ count_card p ct.
Proof.
  split; [|intros ct; apply matching_cat_pairs_iff].
  unfold get_matching_cat_pairs. apply NoDup_filter, counter_keys_spec.
Qed.

(** X16.  The legal actions, soundly and completely: Pass; one of Attack, Skip,
    Shuffle, See the Future when held; Favor when held, once per target; a
    pair of a cat type held at least twice, once per target, where the
    targets are the other players who are alive and hold a card.  Hence the
    engine never offers Nope, Defuse, [PlayNope] or [InsertExplodingKitten],
    and never a steal from the player to move, from an eliminated player or
    from an empty hand. *)
Theorem legal_actions_spec (g : Game) (player : Player) :
  current_player (state g) = Ok player →
  ∃ acts, get_legal_actions g None = Ok acts ∧
    ∀ a, a ∈ acts ↔
      a = Pass
      ∨ (∃ ct, a = PlayCard ct None None
           ∧ ct ∈ [ATTACK; SKIP; SHUFFLE; SEE_THE_FUTURE]
           ∧ has_card player ct = true)
      ∨ (∃ other, a = PlayCard FAVOR (Some (id other)) None
           ∧ has_card player FAVOR = true
           ∧ other ∈ players (state g)
           ∧ id other ≠ current_player_idx (state g)
           ∧ alive other = true ∧ hand other ≠ [])
      ∨ (∃ cat_type other, a = PlayCatPair cat_type (id other)
           ∧ cat_type ∈ CAT_CARDS ∧ 2 ≤ count_card player cat_type
           ∧ other ∈ players (state g)
           ∧ id other ≠ current_player_idx (state g)
           ∧ alive other = true ∧ hand other ≠ []).
Proof.
  intros Hcur. unfold current_player in Hcur.
  unfold get_legal_actions. cbn zeta. cbn [default]. rewrite Hcur.
  unfold mbind, outcome_bind. eexists. split; [reflexivity|]. intros a.
  rewrite !elem_of_app, list_elem_of_singleton.
  f_equiv. f_equiv; [|f_equiv].
  - rewrite list_elem_of_fmap. split.
    + intros (ct & -> & Hct). apply list_elem_of_filter in Hct as [? ?]. eauto.
    + intros (ct & -> & ? & ?). exists ct. split; [done|]. by apply list_elem_of_filter.
  - split.
    + destruct (has_card player FAVOR); [|by intros ?%elem_of_nil].
      intros (other & -> & Ho)%list_elem_of_fmap.
      apply list_elem_of_filter in Ho as [(? & ? & ?) ?]. exists other. by split_and!.
    + intros (other & -> & -> & ? & ? & ? & ?). apply list_elem_of_fmap.
      exists other. split; [done|]. apply list_elem_of_filter. by split_and!.
  - rewrite list_elem_of_bind. split.
    + intros (cat & Hin & Hcat). apply list_elem_of_fmap in Hin as (other & -> & Ho).
      apply list_elem_of_filter in Ho as [(? & ? & ?) ?].
      apply matching_cat_pairs_iff in Hcat as [? ?].
      exists cat, other. by split_and!.
    + intros (cat & other & -> & ? & ? & ? & ? & ? & ?). exists cat. split.
      * apply list_elem_of_fmap. exists other. split; [done|].
        apply list_elem_of_filter. by split_and!.
      * by apply matching_cat_pairs_iff.
Qed.

Lemma legal_actions_spec_witness :
  ∃ acts, get_legal_actions example_game None = Ok acts ∧
    ∀ a, a ∈ acts ↔
      a = Pass
      ∨ (∃ ct, a = PlayCard ct None None
           ∧ ct ∈ [ATTACK; SKIP; SHUFFLE; SEE_THE_FUTURE]
           ∧ has_card (mkPlayer 0 [mkCard ATTACK; mkCard DEFUSE] true) ct = true)
      ∨ (∃ other, a = PlayCard FAVOR (Some (id other)) None
           ∧ has_card (mkPlayer 0 [mkCard ATTACK; mkCard DEFUSE] true) FAVOR = true
           ∧ other ∈ players (state example_game)
           ∧ id other ≠ current_player_idx (state example_game)
           ∧ alive other = true ∧ hand other ≠ [])
      ∨ (∃ cat_type other, a = PlayCatPair cat_type (id other)
           ∧ cat_type ∈ CAT_CARDS
           ∧ 2 ≤ count_card (mkPlayer 0 [mkCard ATTACK; mkCard DEFUSE] true) cat_type
           ∧ other ∈ players (state example_game)
           ∧ id other ≠ current_player_idx (state example_game)
           ∧ alive other = true ∧ hand other ≠ []).
Proof.
  apply (legal_actions_spec example_game (mkPlayer 0 [mkCard ATTACK; mkCard DEFUSE] true)).
  reflexivity.
Defined.

(** ** Cards are moved, not made *)

Lemma bind_hand_insert (ps : list Player) (i : nat) p q (l1 l2 : list Card) :
  ps !! i = Some p → l1 ++ hand q ≡ₚ l2 ++ hand p →
  l1 ++ (<[i:=q]> ps ≫= hand) ≡ₚ l2 ++ (ps ≫= hand).
Proof.
  revert i. induction ps as [|p0 ps IH]; intros [|i] Hi Hp; simpl in *; try done.
  - simplify_eq. by rewrite !app_assoc, Hp.
  - rewrite !(Permutation_app_swap_app _ (hand p0)). by rewrite (IH i).
Qed.

Lemma bind_hand_remove (ps : list Player) (i : nat) p c h :
  ps !! i = Some p → hand p ≡ₚ c :: h →
  ps ≫= hand ≡ₚ c :: (<[i:=set_hand h p]> ps ≫= hand).
Proof.
  intros Hi Hp. symmetry.
  apply (bind_hand_insert ps i p (set_hand h p) [c] [] Hi). simpl. by rewrite Hp.
Qed.

Lemma bind_hand_add (ps : list Player) (i : nat) p c :
  ps !! i = Some p →
  <[i:=set_hand (hand p ++ [c]) p]> ps ≫= hand ≡ₚ c :: (ps ≫= hand).
Proof.
  intros Hi.
  apply (bind_hand_insert ps i p (set_hand (hand p ++ [c]) p) [] [c] Hi). simpl.
  by rewrite Permutation_app_comm.
Qed.

Lemma bind_hand_same (ps : list Player) (i : nat) p q :
  ps !! i = Some p → hand q = hand p → <[i:=q]> ps ≫= hand ≡ₚ ps ≫= hand.
Proof.
  intros Hi Hq. apply (bind_hand_insert ps i p q [] [] Hi). simpl. by rewrite Hq.
Qed.

Lemma has_card_count p ct : has_card p ct = false ↔ count_type ct (hand p) = 0.
Proof.
  unfold has_card. destruct (existsb _ _) eqn:E.
  - apply existsb_count in E. split; [done|lia].
  - split; [|done]. intros _.
    destruct (decide (0 < count_type ct (hand p))) as [H|H]; [|lia].
    apply existsb_count in H. congruence.
Qed.

Lemma no_kitten_insert (ps : list Player) (i : nat) q :
  no_kitten_in_hand ps → has_card q EXPLODING_KITTEN = false →
  no_kitten_in_hand (<[i:=q]> ps).
Proof.
  intros Hps Hq. unfold no_kitten_in_hand in *.
  destruct (decide (i < length ps)); [by apply Forall_insert|by rewrite list_insert_ge by lia].
Qed.

Lemma no_kitten_lookup (ps : list Player) (i : nat) p :
  no_kitten_in_hand ps → ps !! i = Some p → count_type EXPLODING_KITTEN (hand p) = 0.
Proof.
  intros Hps Hp. apply has_card_count. by eapply (Forall_lookup_1 _ _ _ _ Hps).
Qed.

Lemma omap_snoc (d : list (option Card)) c :
  omap (λ c, c) (d ++ [Some c]) = omap (λ c, c) d ++ [c].
Proof. by rewrite omap_app. Qed.

Lemma card_eta (c : Card) : c = mkCard (card_type c).
Proof. by destruct c. Qed.

Lemma count_type_zero_sub ct (l l' : list Card) c :
  l ≡ₚ c :: l' → count_type ct l = 0 → count_type ct l' = 0 ∧ card_type c ≠ ct.
Proof.
  intros Hp H. rewrite (count_type_Permutation _ _ _ Hp), count_type_cons in H.
  case_decide; [lia|]. split; [lia|done].
Qed.

Lemma steal_from_cards s me tid r t target s2 stolen r' :
  Py.locate (players s) tid = Ok t →
  players s !! t = Some target →
  me < length (players s) →
  steal_from s me tid r = Ok (s2, stolen, r') →
  players s2 ≫= hand ≡ₚ players s ≫= hand
  ∧ (no_kitten_in_hand (players s) → no_kitten_in_hand (players s2)).
Proof.
  intros Hloc Ht Hme. unfold steal_from. rewrite Hloc.
  assert (Py.get (players s) tid = Ok target) as ->.
  { apply get_Ok. exists t. split; [by apply locate_Ok|done]. }
  unfold mbind, outcome_bind. destruct (hand target) as [|c0 h0] eqn:Eh.
  { intros [= <- <- <-]. done. }
  cbn iota. rewrite <- Eh. clear c0 h0 Eh.
  destruct (randint _ _ r) as [[k r1]| |]; [|done..].
  destruct (Py.pop_at (hand target) k) as [[st h']| |] eqn:Ep; [|done..].
  apply pop_at_Ok in Ep as [Hperm _].
  set (ps1 := <[t:=set_hand h' target]> (players s)).
  assert (me < length ps1) as Hme1 by (subst ps1; by rewrite length_insert).
  destruct (lookup_lt_is_Some_2 ps1 me Hme1) as [pm Hpm].
  rewrite (alter_as_insert _ _ _ _ Hpm).
  intros [= <- <- <-]. proj_simpl. split.
  - rewrite (bind_hand_add ps1 me pm st Hpm). subst ps1.
    by rewrite <- (bind_hand_remove (players s) t target st h' Ht Hperm).
  - intros Hnk.
    destruct (count_type_zero_sub EXPLODING_KITTEN _ _ _ Hperm
                (no_kitten_lookup _ _ _ Hnk Ht)) as [Hh' Hst].
    assert (no_kitten_in_hand ps1) as Hnk1.
    { apply no_kitten_insert; [done|]. by apply has_card_count. }
    apply no_kitten_insert; [done|]. apply has_card_count. simpl.
    rewrite count_type_app, (no_kitten_lookup _ _ _ Hnk1 Hpm), count_type_cons.
    by rewrite decide_False.
Qed.

Lemma remove_pair_cards p ct :
  2 ≤ count_type ct (hand p) →
  ∃ c1 c2 h,
    remove_card p ct = (Some c1, (remove_card p ct).2)
    ∧ remove_card (remove_card p ct).2 ct = (Some c2, set_hand h p)
    ∧ hand p ≡ₚ mkCard ct :: mkCard ct :: h.
Proof.
  intros H.
  destruct (remove_card_has p ct) as (c1 & h1 & E1 & Hc1 & Hp1).
  { apply existsb_count. lia. }
  destruct (remove_card_has (set_hand h1 p) ct) as (c2 & h2 & E2 & Hc2 & Hp2).
  { apply existsb_count. simpl.
    rewrite (count_type_Permutation _ _ _ Hp1), count_type_cons, decide_True in H by done.
    lia. }
  exists c1, c2, h2. rewrite E1. simpl. split_and!; [done|done|].
  simpl in Hp2. rewrite Hp1, Hp2, (card_eta c1), (card_eta c2), Hc1, Hc2. done.
Qed.

Lemma is_type_true ct c : is_type ct c = true ↔ card_type c = ct.
Proof. unfold is_type. apply bool_decide_eq_true. Qed.

Lemma is_type_false ct c : is_type ct c = false ↔ card_type c ≠ ct.
Proof. unfold is_type. apply bool_decide_eq_false. Qed.

(** The anatomy of a legal action once more, now following the cards. *)
Lemma exec_legal_shape_cards g acts a r :
  ids_ok (players (state g)) →
  get_legal_actions g None = Ok acts → a ∈ acts →
  ∃ me player s1 c res r',
    Py.locate (players (state g)) (current_player_idx (state g)) = Ok me
    ∧ players (state g) !! me = Some player
    ∧ card_step g me s1
    ∧ execute_action g a r
      = (g1 ← run_control c (with_state s1 g); Ok (finish (id player) a g1, res, r')).
Proof.
  intros Hids Hl Hin.
  destruct (legal_cases _ _ _ Hl Hin) as (player & Hcur & Hcase).
  pose proof Hcur as Hcur'. unfold current_player in Hcur'.
  apply get_Ok in Hcur' as (me & Hnorm & Hme).
  apply locate_Ok in Hnorm as Hloc.
  exists me, player.
  unfold execute_action. rewrite Hloc, Hcur.
  destruct Hcase as [->|[(ct & -> & Hct & Hhas)|[(other & -> & Hhas & Ho)|(cat & other & -> & Hcat & Ho)]]].
  - (* Pass *)
    unfold _do_draw. rewrite Hloc, Hcur. unfold mbind, outcome_bind.
    destruct (deck (state g)) as [|c0 d0] eqn:Ed.
    { exists (state g), CEnd. eexists _, _. split_and!; [done|done| |].
      - unfold card_step. split_and!; auto.
      - rewrite with_state_id. simpl. destruct (_end_turn g); reflexivity. }
    destruct (pop_nonempty c0 d0) as (card & deck' & -> & Edk).
    cbn iota beta. rewrite Edk in Ed. clear Edk c0 d0.
    destruct (is_type EXPLODING_KITTEN card) eqn:Ek.
    + apply is_type_true in Ek.
      destruct (has_card player DEFUSE) eqn:Edf.
      * destruct (remove_card_has _ _ Edf) as (c & h & -> & Hc & Hp).
        proj_simpl.
        destruct (randint_Ok 0 (Z.of_nat (length deck')) r) as (pos & r' & -> & _); [lia|].
        shape_with _end_turn CEnd.
        unfold card_step, all_cards. proj_simpl. rewrite Ed.
        split_and!.
        -- rewrite insert_Permutation, omap_snoc, (bind_hand_remove _ _ _ _ _ Hme Hp).
           solve_Permutation.
        -- intros Hd. apply Forall_app. split; [done|]. by repeat constructor.
        -- intros Hnk. apply no_kitten_insert; [done|]. apply has_card_count. simpl.
           by destruct (count_type_zero_sub EXPLODING_KITTEN _ _ _ Hp
                          (no_kitten_lookup _ _ _ Hnk Hme)).
        -- left. rewrite (fmap_insert_same alive _ _ _ _ Hme) by done. split; [|done].
           rewrite (count_type_Permutation _ _ _ (insert_Permutation deck' pos card)).
           rewrite count_type_app, !count_type_cons. simpl.
           replace (count_type EXPLODING_KITTEN []) with 0 by done. lia.
      * shape_with _end_turn CEnd.
        unfold card_step, all_cards. proj_simpl. rewrite Ed.
        split_and!.
        -- rewrite omap_snoc, (bind_hand_same _ _ _ (set_alive false player) Hme) by done.
           solve_Permutation.
        -- intros Hd. apply Forall_app. split; [done|]. by repeat constructor.
        -- intros Hnk. apply no_kitten_insert; [done|].
           by apply (Forall_lookup_1 _ _ _ _ Hnk Hme).
        -- right. rewrite (list_fmap_insert alive). simpl. split; [|done].
           rewrite count_type_app, count_type_cons, decide_True by done.
           replace (count_type EXPLODING_KITTEN []) with 0 by done. lia.
    + apply is_type_false in Ek.
      shape_with _end_turn CEnd.
      unfold card_step, all_cards. proj_simpl. rewrite Ed.
      split_and!.
      * rewrite (bind_hand_add _ _ _ card Hme). solve_Permutation.
      * done.
      * intros Hnk. apply no_kitten_insert; [done|]. apply has_card_count. simpl.
        rewrite count_type_app, (no_kitten_lookup _ _ _ Hnk Hme), count_type_cons.
        by rewrite decide_False.
      * left. rewrite (fmap_insert_same alive _ _ _ _ Hme) by done. split; [|done].
        rewrite count_type_app, count_type_cons, decide_False by done.
        replace (count_type EXPLODING_KITTEN []) with 0 by done. lia.
  - (* a single card: Attack, Skip, Shuffle, See the Future *)
    unfold mbind, outcome_bind.
    destruct (remove_card_has _ _ Hhas) as (c & h & -> & Hc & Hp).
    assert (card_step g me
              (with_discard (discard (state g) ++ [Some c])
                 (with_players (<[me:=set_hand h player]> (players (state g))) (state g))))
      as Hstep.
    { unfold card_step, all_cards. proj_simpl. split_and!.
      - rewrite omap_snoc, (bind_hand_remove _ _ _ _ _ Hme Hp). solve_Permutation.
      - intros Hd. apply Forall_app. split; [done|]. by repeat constructor.
      - intros Hnk. apply no_kitten_insert; [done|]. apply has_card_count. simpl.
        by destruct (count_type_zero_sub EXPLODING_KITTEN _ _ _ Hp
                       (no_kitten_lookup _ _ _ Hnk Hme)).
      - left. by rewrite (fmap_insert_same alive _ _ _ _ Hme). }
    repeat (apply elem_of_cons in Hct as [->|Hct]); [..|by apply elem_of_nil in Hct].
    + shape_with _do_attack CAttack. exact Hstep.
    + shape_with _do_skip CSkip. exact Hstep.
    + unfold shuffle_deck. proj_simpl.
      destruct (shuffle (deck (state g)) r) as [d r'] eqn:Es.
      apply shuffle_eq_Permutation in Es.
      eexists _, CStay, _, _. split_and!; [done|done| |reflexivity].
      unfold card_step, all_cards in *. proj_simpl.
      rewrite (count_type_Permutation _ _ _ Es). rewrite Es.
      exact Hstep.
    + eexists _, CStay, _, _. split_and!; [done|done| |reflexivity].
      exact Hstep.
  - (* Favor *)
    unfold mbind, outcome_bind.
    destruct (remove_card_has _ _ Hhas) as (c & h & -> & Hc & Hp).
    set (s1 := with_discard (discard (state g) ++ [Some c])
                 (with_players (<[me:=set_hand h player]> (players (state g))) (state g))).
    assert (id <$> players s1 = id <$> players (state g)) as Hid1.
    { subst s1. proj_simpl. by rewrite (fmap_insert_same _ _ _ _ _ Hme). }
    pose proof (ids_ok_fmap _ _ Hid1 Hids) as Hids1.
    apply list_elem_of_lookup in Ho as [t Hto].
    assert (length (players s1) = length (players (state g))) as Hlen1.
    { subst s1. proj_simpl. by rewrite length_insert. }
    pose proof (lookup_lt_Some _ _ _ Hto) as Hlt.
    pose proof (lookup_lt_Some _ _ _ Hme) as Hmelt.
    destruct (lookup_lt_is_Some_2 (players s1) t) as [tg Htg]; [lia|].
    destruct (ids_ok_get _ _ _ Hids1 Htg) as [_ Hloct].
    rewrite (ids_ok_lookup _ _ _ Hids1 Htg), <- (ids_ok_lookup _ _ _ Hids Hto) in Hloct.
    destruct (steal_from_spec s1 me (id other) r t tg Hloct Htg)
      as (s2 & stolen & r' & Hsteal & _ & _ & Hal2 & Hdk & Hdc & _); [lia|].
    destruct (steal_from_cards s1 me (id other) r t tg s2 stolen r' Hloct Htg)
      as [Hhands Hnk2]; [lia|done|].
    rewrite Hsteal.
    assert (card_step g me s2) as Hstep.
    { unfold card_step, all_cards. rewrite Hhands, Hal2, Hdk, Hdc. subst s1. proj_simpl.
      split_and!.
      - rewrite omap_snoc, (bind_hand_remove _ _ _ _ _ Hme Hp). solve_Permutation.
      - intros Hd. apply Forall_app. split; [done|]. by repeat constructor.
      - intros Hnk. apply Hnk2. proj_simpl.
        apply no_kitten_insert; [done|]. apply has_card_count. simpl.
        by destruct (count_type_zero_sub EXPLODING_KITTEN _ _ _ Hp
                       (no_kitten_lookup _ _ _ Hnk Hme)).
      - left. by rewrite (fmap_insert_same alive _ _ _ _ Hme). }
    destruct stolen; eexists s2, CStay, _, _; (split_and!; [done|done|done|reflexivity]).
  - (* cat pair *)
    unfold mbind, outcome_bind.
    destruct (remove_pair_cards player cat (matching_pair_count _ _ Hcat))
      as (c1 & c2 & h & E1 & E2 & Hp).
    destruct (remove_card player cat) as [o1 p1]. simpl in E2. rewrite E2.
    set (s1 := with_discard
                 (discard (state g) ++ [Some (mkCard cat); Some (mkCard cat)])
                 (with_players (<[me:=set_hand h player]> (players (state g))) (state g))).
    assert (id <$> players s1 = id <$> players (state g)) as Hid1.
    { subst s1. proj_simpl. by rewrite (fmap_insert_same _ _ _ _ _ Hme). }
    pose proof (ids_ok_fmap _ _ Hid1 Hids) as Hids1.
    apply list_elem_of_lookup in Ho as [t Hto].
    assert (length (players s1) = length (players (state g))) as Hlen1.
    { subst s1. proj_simpl. by rewrite length_insert. }
    pose proof (lookup_lt_Some _ _ _ Hto) as Hlt.
    pose proof (lookup_lt_Some _ _ _ Hme) as Hmelt.
    destruct (lookup_lt_is_Some_2 (players s1) t) as [tg Htg]; [lia|].
    destruct (ids_ok_get _ _ _ Hids1 Htg) as [_ Hloct].
    rewrite (ids_ok_lookup _ _ _ Hids1 Htg), <- (ids_ok_lookup _ _ _ Hids Hto) in Hloct.
    destruct (steal_from_spec s1 me (id other) r t tg Hloct Htg)
      as (s2 & stolen & r' & Hsteal & _ & _ & Hal2 & Hdk & Hdc & _); [lia|].
    destruct (steal_from_cards s1 me (id other) r t tg s2 stolen r' Hloct Htg)
      as [Hhands Hnk2]; [lia|done|].
    rewrite Hsteal.
    assert (hand player ≡ₚ mkCard cat :: (mkCard cat :: h)) as Hp' by done.
    assert (card_step g me s2) as Hstep.
    { unfold card_step, all_cards. rewrite Hhands, Hal2, Hdk, Hdc. subst s1. proj_simpl.
      split_and!.
      - rewrite omap_app. simpl.
        assert (players (state g) ≫= hand
                ≡ₚ mkCard cat :: mkCard cat
                   :: (<[me:=set_hand h player]> (players (state g)) ≫= hand)) as ->.
        { symmetry.
          apply (bind_hand_insert _ me player (set_hand h player)
                   [mkCard cat; mkCard cat] [] Hme). simpl. by rewrite Hp. }
        solve_Permutation.
      - intros Hd. apply Forall_app. split; [done|]. by repeat constructor.
      - intros Hnk. apply Hnk2. proj_simpl.
        apply no_kitten_insert; [done|]. apply has_card_count. simpl.
        pose proof (no_kitten_lookup _ _ _ Hnk Hme) as H0.
        rewrite (count_type_Permutation _ _ _ Hp), !count_type_cons in H0.
        repeat case_decide; lia.
      - left. by rewrite (fmap_insert_same alive _ _ _ _ Hme). }
    destruct stolen; eexists s2, CStay, _, _; (split_and!; [done|done|done|reflexivity]).
Qed.

Lemma run_control_turns c g g1 :
  run_control c g = Ok g1 → (1 ≤ turns_remaining (state g) ≤ 2)%Z →
  (1 ≤ turns_remaining (state g1) ≤ 2)%Z.
Proof.
  destruct c; simpl; unfold _end_turn, _do_attack, _do_skip, _advance_player;
    unfold mbind, outcome_bind; simpl;
    repeat case_bool_decide;
    try (destruct (next_alive_index _) as [idx| |]; try done);
    intros; simplify_eq; simpl in *; lia.
Qed.

Lemma check_game_over_winner g :
  (∃ p, alive_players (state g) = [p]
        ∧ game_over (state (_check_game_over g)) = true
        ∧ winner (state (_check_game_over g)) = Some (id p))
  ∨ (length (alive_players (state g)) ≠ 1
     ∧ game_over (state (_check_game_over g)) = game_over (state g)
     ∧ winner (state (_check_game_over g)) = winner (state g)).
Proof.
  unfold _check_game_over. destruct (alive_players (state g)) as [|p [|q l]]; simpl.
  - right. by split_and!.
  - left. exists p. by split_and!.
  - right. by split_and!.
Qed.

(** One legal action, seen from the game it returns. *)
Lemma exec_legal_game g acts a r g' res r' :
  ids_ok (players (state g)) →
  get_legal_actions g None = Ok acts → a ∈ acts →
  execute_action g a r = Ok (g', res, r') →
  ∃ me,
    Py.locate (players (state g)) (current_player_idx (state g)) = Ok me
    ∧ card_step g me (state g')
    ∧ num_players g' = num_players g
    ∧ ((1 ≤ turns_remaining (state g) ≤ 2)%Z → (1 ≤ turns_remaining (state g') ≤ 2)%Z)
    ∧ ((∃ p, alive_players (state g') = [p]
             ∧ game_over (state g') = true ∧ winner (state g') = Some (id p))
       ∨ (length (alive_players (state g')) ≠ 1
          ∧ game_over (state g') = game_over (state g)
          ∧ winner (state g') = winner (state g))).
Proof.
  intros Hids Hl Hin Hex.
  destruct (exec_legal_shape_cards g acts a r Hids Hl Hin)
    as (me & player & s1 & c & res1 & r1 & Hloc & Hme & Hcards & Heq).
  destruct (exec_legal_shape g acts a r Hids Hl Hin)
    as (me' & player' & s1' & c' & res1' & r1' & Hloc' & Hme' & Hboard & Heq').
  assert (me' = me) as -> by congruence.
  assert (player' = player) as -> by congruence.
  exists me. split; [done|].
  (* the game returned, along either description *)
  rewrite Heq in Hex. rewrite Heq in Heq'. unfold mbind, outcome_bind in Hex, Heq'.
  destruct (run_control c (with_state s1 g)) as [g1| |] eqn:Hrun; [|done..].
  destruct (run_control c' (with_state s1' g)) as [g1'| |] eqn:Hrun'; [|done..].
  injection Hex as <- <- <-. injection Heq' as Hfin _ _.
  pose proof (run_control_board _ _ _ Hrun) as (Hn1 & _ & Hp1 & Hd1 & Hdc1 & _).
  pose proof (run_control_board _ _ _ Hrun') as (_ & _ & Hp1' & _ & _ & Hgo1' & Hw1' & _).
  pose proof Hboard as (_ & _ & _ & _ & Hturns & Hgo & Hw).
  simpl in *.
  unfold finish in *.
  set (g2 := mkGame (num_players g1) (state g1) (action_history g1 ++ [(id player, a)])) in *.
  set (g2' := mkGame (num_players g1') (state g1')
                (action_history g1' ++ [(id player, a)])) in *.
  destruct (check_game_over_board g2) as (Hn2 & _ & Hp2 & Hd2 & Hdc2 & _ & _ & _).
  split_and!.
  - destruct Hcards as (Hall & Hty & Hnk & Hkit).
    unfold card_step, all_cards. rewrite Hp2, Hd2, Hdc2. subst g2. simpl.
    rewrite Hp1, Hd1, Hdc1. done.
  - rewrite Hn2. subst g2. simpl. by rewrite Hn1.
  - intros Ht. rewrite Hfin.
    destruct (check_game_over_board g2') as (_ & _ & _ & _ & _ & _ & -> & _).
    subst g2'. simpl. eapply run_control_turns; [exact Hrun'|]. simpl. by rewrite Hturns.
  - rewrite Hfin.
    destruct (check_game_over_winner g2') as [(p & Hal & Hov & Hwin)|(Hne & Hov & Hwin)].
    + left. exists p. split_and!; [|done|done].
      destruct (check_game_over_board g2') as (_ & _ & Hp2' & _).
      unfold alive_players in *. by rewrite Hp2'.
    + right. destruct (check_game_over_board g2') as (_ & _ & Hp2' & _).
      unfold alive_players in *. rewrite Hp2'. split; [done|].
      rewrite Hov, Hwin. subst g2'. simpl. by rewrite Hgo1', Hw1', Hgo, Hw.
Qed.

Lemma reachable_trans g0 g g' : reachable g0 g → reachable g g' → reachable g0 g'.
Proof.
  intros H0. induction 1 as [|g1 acts a r g2 res r' _ IH Hl Hin Hex]; [done|].
  by eapply reachable_step.
Qed.

Lemma reachable_ids g0 g :
  ids_ok (players (state g0)) → reachable g0 g → ids_ok (players (state g)).
Proof. intros Hids Hr. by destruct (reachable_conserves g0 g Hids Hr). Qed.

Lemma count_type_hands ct k (ps : list Player) :
  Forall (λ p, count_type ct (hand p) = k) ps →
  count_type ct (ps ≫= hand) = length ps * k.
Proof.
  induction 1 as [|p ps Hp _ IH]; [done|].
  rewrite bind_cons, count_type_app, IH, Hp. simpl. lia.
Qed.

(** The card invariants of a game in progress. *)
Lemma reachable_cards g0 g :
  ids_ok (players (state g0)) → reachable g0 g →
  all_cards (state g) ≡ₚ all_cards (state g0)
  ∧ (discard_typed g0 → discard_typed g)
  ∧ (no_kitten_in_hand (players (state g0)) → no_kitten_in_hand (players (state g)))
  ∧ ((1 ≤ turns_remaining (state g0) ≤ 2)%Z → (1 ≤ turns_remaining (state g) ≤ 2)%Z)
  ∧ (count_type EXPLODING_KITTEN (deck (state g0)) + 1 ≤ length (alive_players (state g0)) →
     count_type EXPLODING_KITTEN (deck (state g)) + 1 ≤ length (alive_players (state g))).
Proof.
  intros Hids. induction 1 as [|g acts a r g' res r' Hr IH Hl Hin Hex]; [done|].
  destruct IH as (IHall & IHty & IHnk & IHt & IHk).
  pose proof (reachable_ids _ _ Hids Hr) as Hidsg.
  destruct (exec_legal_game g acts a r g' res r' Hidsg Hl Hin Hex)
    as (me & _ & (Hall & Hty & Hnk & Hkit) & _ & Ht & _).
  split_and!.
  - by rewrite Hall.
  - intros H. apply Hty, IHty, H.
  - auto.
  - auto.
  - intros H. specialize (IHk H). rewrite !alive_players_flags in *.
    destruct Hkit as [[-> ->]|[Hk ->]]; [done|].
    pose proof (flags_kill (alive <$> players (state g)) me). lia.
Qed.

Lemma init_cards n r g r' :
  (1 ≤ n ≤ 11)%Z → __init__ n r = Ok (g, r') →
  count_type EXPLODING_KITTEN (all_cards (state g)) = Z.to_nat (n - 1)
  ∧ count_type DEFUSE (all_cards (state g)) = Z.to_nat n + DEFUSE_IN_DECK
  ∧ discard_typed g
  ∧ no_kitten_in_hand (players (state g))
  ∧ turns_remaining (state g) = 1%Z
  ∧ count_type EXPLODING_KITTEN (deck (state g)) + 1 = length (alive_players (state g))
  ∧ length (players (state g)) = Z.to_nat n
  ∧ length (deck (state g)) + 4 * Z.to_nat n = 48 + Z.to_nat (n - 1).
Proof.
  intros Hn Hinit.
  destruct (setup_spec n r) as (g1 & r1 & E & _ & _ & Hlen & Hpl & Hk & Hdf & Hdk & Hdc
                                 & _ & Ht & _); [lia|].
  rewrite Hinit in E. injection E as <- <-.
  assert (Forall (λ p, count_type EXPLODING_KITTEN (hand p) = 0) (players (state g))) as Hek.
  { apply Forall_lookup. intros i p Hp. destruct (Hpl i p Hp) as (_ & _ & h & -> & _ & Hord).
    rewrite count_type_app, count_type_cons, decide_False by done.
    destruct (count_type_ordinary h Hord) as [-> _]. done. }
  assert (Forall (λ p, count_type DEFUSE (hand p) = 1) (players (state g))) as Hdef.
  { apply Forall_lookup. intros i p Hp. destruct (Hpl i p Hp) as (_ & _ & h & -> & _ & Hord).
    rewrite count_type_app, count_type_cons, decide_True by done.
    destruct (count_type_ordinary h Hord) as [_ ->]. done. }
  unfold all_cards, discard_typed. rewrite Hdc. simpl. rewrite !app_nil_r, !count_type_app.
  rewrite (count_type_hands _ _ _ Hek), (count_type_hands _ _ _ Hdef), Hk, Hdf, Hlen.
  split; [lia|]. split; [lia|]. split; [done|]. split.
  { eapply Forall_impl; [exact Hek|]. intros p Hp. by apply has_card_count. }
  split; [done|]. split; [|by split].
  unfold alive_players. rewrite filter_all; [lia|].
  apply Forall_lookup. intros i p Hp. by destruct (Hpl i p Hp) as (_ & ? & _).
Qed.

(** X17.  A legal action moves cards, it neither makes nor loses one: deck, hands
    and discard pile together hold the same cards after it as before, type
    by type; and what it discards is a card, so a discard pile of cards
    stays one. *)
Theorem legal_action_moves_cards (g : Game) (acts : list Action) (a : Action)
    (r : Rng) (g' : Game) (res : dict) (r' : Rng) :
  ids_ok (players (state g)) →
  get_legal_actions g None = Ok acts → a ∈ acts →
  execute_action g a r = Ok (g', res, r') →
  all_cards (state g') ≡ₚ all_cards (state g)
  ∧ (∀ ct, count_type ct (all_cards (state g')) = count_type ct (all_cards (state g)))
  ∧ (discard_typed g → discard_typed g').
Proof.
  intros Hids Hl Hin Hex.
  destruct (exec_legal_game g acts a r g' res r' Hids Hl Hin Hex)
    as (me & _ & (Hall & Hty & _) & _).
  split_and!; [done| |done].
  intros ct. by apply count_type_Permutation.
Qed.

Lemma legal_action_moves_cards_witness :
  all_cards (state safe_top_after_pass) ≡ₚ all_cards (state safe_top_game)
  ∧ (∀ ct, count_type ct (all_cards (state safe_top_after_pass))
           = count_type ct (all_cards (state safe_top_game)))
  ∧ (discard_typed safe_top_game → discard_typed safe_top_after_pass).
Proof.
  apply (legal_action_moves_cards safe_top_game [Pass; PlayCard ATTACK None None] Pass
           rng_zero safe_top_after_pass
           [("action", VAction Pass); ("player", VInt 0); ("type", VStr "pass");
            ("draw", VType SHUFFLE); ("exploded", VBool false)] rng_zero).
  - reflexivity.
  - vm_compute; reflexivity.
  - apply elem_of_cons. by left.
  - vm_compute; reflexivity.
Defined.

(** X18.  In every state of a game of 1 to 11 players that [__init__] set up and
    legal actions moved on: the cards are those dealt, among them exactly
    [num_players - 1] exploding kittens and [num_players + 2] defuses; the
    discard pile holds cards only; no hand holds an exploding kitten; one or
    two turns remain; and the deck holds fewer kittens than players are
    alive. *)
Theorem fresh_game_invariants (n : Z) (r0 r1 : Rng) (g0 g : Game) :
  (1 ≤ n ≤ 11)%Z →
  __init__ n r0 = Ok (g0, r1) → reachable g0 g →
  all_cards (state g) ≡ₚ all_cards (state g0)
  ∧ count_type EXPLODING_KITTEN (all_cards (state g)) = Z.to_nat (n - 1)
  ∧ count_type DEFUSE (all_cards (state g)) = Z.to_nat n + DEFUSE_IN_DECK
  ∧ discard_typed g
  ∧ no_kitten_in_hand (players (state g))
  ∧ (1 ≤ turns_remaining (state g) ≤ 2)%Z
  ∧ count_type EXPLODING_KITTEN (deck (state g)) < length (alive_players (state g)).
Proof.
  intros Hn Hinit Hreach.
  destruct (init_cards n r0 g0 r1 Hn Hinit) as (Hk & Hd & Hty & Hnk & Ht & Hal & _).
  destruct (reachable_cards g0 g (init_ids _ _ _ _ Hinit) Hreach)
    as (Hall & Hty' & Hnk' & Ht' & Hal').
  split; [done|].
  split; [by rewrite (count_type_Permutation _ _ _ Hall)|].
  split; [by rewrite (count_type_Permutation _ _ _ Hall)|].
  split; [auto|]. split; [auto|]. split; [apply Ht'; lia|].
  specialize (Hal' ltac:(lia)). lia.
Qed.

Lemma fresh_game_invariants_witness :
  all_cards (state example_after_pass) ≡ₚ all_cards (state example_start)
  ∧ count_type EXPLODING_KITTEN (all_cards (state example_after_pass)) = Z.to_nat (2 - 1)
  ∧ count_type DEFUSE (all_cards (state example_after_pass)) = Z.to_nat 2 + DEFUSE_IN_DECK
  ∧ discard_typed example_after_pass
  ∧ no_kitten_in_hand (players (state example_after_pass))
  ∧ (1 ≤ turns_remaining (state example_after_pass) ≤ 2)%Z
  ∧ count_type EXPLODING_KITTEN (deck (state example_after_pass))
    < length (alive_players (state example_after_pass)).
Proof.
  assert (__init__ 2 rng_zero = Ok (example_start, mkRng (λ _, 0) 124)) as Hinit
    by (vm_compute; reflexivity).
  assert (reachable example_start example_after_pass) as Hreach.
  { eapply (reachable_step example_start example_start
              [Pass; PlayCard ATTACK None None; PlayCatPair CAT_RAINBOW_CAT 1] Pass
              (mkRng (λ _, 0) 124)).
    - apply reachable_start.
    - vm_compute; reflexivity.
    - apply elem_of_cons. by left.
    - vm_compute; reflexivity. }
  apply (fresh_game_invariants 2 rng_zero (mkRng (λ _, 0) 124) example_start
           example_after_pass ltac:(lia) Hinit Hreach).
Defined.

(** Who has won.  From a playable start that is not over and whose deck holds
    fewer kittens than players are alive: a state is over exactly when one
    player is left alive, and then that player is the recorded winner;
    otherwise at least two players are alive and no winner is recorded. *)
Lemma reachable_over g0 g :
  playable g0 → game_over (state g0) = false →
  count_type EXPLODING_KITTEN (deck (state g0)) + 1 ≤ length (alive_players (state g0)) →
  reachable g0 g →
  if game_over (state g)
  then ∃ p, alive_players (state g) = [p] ∧ winner (state g) = Some (id p)
  else 2 ≤ length (alive_players (state g)) ∧ winner (state g) = None.
Proof.
  intros Hplay Hgo Hk. induction 1 as [|g acts a r g' res r' Hr IH Hl Hin Hex].
  { rewrite Hgo. by apply Hplay. }
  pose proof (reachable_playable _ _ Hplay Hr) as Hpg.
  pose proof (reachable_playable _ _ Hplay
                (reachable_step _ _ _ _ _ _ _ _ Hr Hl Hin Hex)) as Hpg'.
  pose proof Hplay as ((_ & _ & Hids0) & _).
  pose proof Hpg as ((_ & _ & Hids) & _).
  destruct (reachable_cards g0 g Hids0 Hr) as (_ & _ & _ & _ & Hkg).
  specialize (Hkg Hk).
  destruct (exec_legal_game g acts a r g' res r' Hids Hl Hin Hex)
    as (me & _ & (_ & _ & _ & Hkit) & _ & _ & [(p & Hal & Hov & Hw)|(Hne & Hov & Hw)]).
  { rewrite Hov. eauto. }
  rewrite Hov. destruct (game_over (state g)) eqn:Hgg.
  - exfalso. destruct IH as (p & Hal & _). rewrite Hal in Hkg. simpl in Hkg.
    apply Hne. rewrite alive_players_flags.
    destruct Hkit as [[_ ->]|[? _]]; [|lia].
    by rewrite <- alive_players_flags, Hal.
  - apply Hpg'. by rewrite Hov.
Qed.

(** X19.  In a game of 2 to 11 players set up by [__init__] and moved on by legal
    actions, the game is over exactly when one player is left alive, and
    that player is the recorded winner; while it is not over, at least two
    players are alive and no winner is recorded. *)
Theorem winner_is_sole_survivor (n : Z) (r0 r1 : Rng) (g0 g : Game) :
  (2 ≤ n ≤ 11)%Z →
  __init__ n r0 = Ok (g0, r1) → reachable g0 g →
  if is_over g
  then ∃ p, alive_players (state g) = [p] ∧ get_winner g = Some (id p)
  else 2 ≤ length (alive_players (state g)) ∧ get_winner g = None.
Proof.
  intros Hn Hinit Hreach.
  destruct (init_cards n r0 g0 r1 ltac:(lia) Hinit) as (_ & _ & _ & _ & _ & Hal & _).
  destruct (setup_spec n r0) as (g1 & r' & E & _ & _ & _ & _ & _ & _ & _ & _ & _ & _ & Hgo & _);
    [lia|].
  rewrite Hinit in E. injection E as <- <-.
  apply (reachable_over g0 g); [by eapply init_playable|done|lia|done].
Qed.

Lemma winner_is_sole_survivor_witness :
  if is_over example_after_pass
  then ∃ p, alive_players (state example_after_pass) = [p]
            ∧ get_winner example_after_pass = Some (id p)
  else 2 ≤ length (alive_players (state example_after_pass))
       ∧ get_winner example_after_pass = None.
Proof.
  assert (__init__ 2 rng_zero = Ok (example_start, mkRng (λ _, 0) 124)) as Hinit
    by (vm_compute; reflexivity).
  assert (reachable example_start example_after_pass) as Hreach.
  { eapply (reachable_step example_start example_start
              [Pass; PlayCard ATTACK None None; PlayCatPair CAT_RAINBOW_CAT 1] Pass
              (mkRng (λ _, 0) 124)).
    - apply reachable_start.
    - vm_compute; reflexivity.
    - apply elem_of_cons. by left.
    - vm_compute; reflexivity. }
  apply (winner_is_sole_survivor 2 rng_zero (mkRng (λ _, 0) 124) example_start
           example_after_pass ltac:(lia) Hinit Hreach).
Defined.

(** X20.  A deck without exploding kittens never gets one back, so nobody is
    eliminated any more: from a playable state that is not over and whose
    deck holds no kitten, legal actions only lead to states that are not
    over, with the same players alive and still no kitten in the deck. *)
Theorem kittenless_deck_never_ends (g g' : Game) :
  playable g → is_over g = false →
  count_type EXPLODING_KITTEN (deck (state g)) = 0 →
  reachable g g' →
  is_over g' = false
  ∧ alive <$> players (state g') = alive <$> players (state g)
  ∧ count_type EXPLODING_KITTEN (deck (state g')) = 0.
Proof.
  intros Hplay Hgo Hk. unfold is_over in *.
  induction 1 as [|g1 acts a r g2 res r' Hr IH Hl Hin Hex]; [done|].
  destruct IH as (IHgo & IHal & IHk).
  pose proof (reachable_playable _ _ Hplay Hr) as ((_ & _ & Hids) & _).
  destruct (exec_legal_game g1 acts a r g2 res r' Hids Hl Hin Hex)
    as (me & _ & (_ & _ & _ & Hkit) & _ & _ & Hover).
  destruct Hkit as [[Hk2 Hal2]|[? _]]; [|lia].
  split_and!; [|congruence|congruence].
  destruct Hover as [(p & Hp & _)|(_ & -> & _)]; [|done].
  exfalso. destruct Hplay as [_ Hplay]. destruct (Hplay Hgo) as [H2 _].
  rewrite alive_players_flags, <- IHal, <- Hal2, <- alive_players_flags, Hp in H2.
  simpl in H2. lia.
Qed.

Lemma kittenless_deck_never_ends_witness :
  is_over safe_top_after_pass = false
  ∧ alive <$> players (state safe_top_after_pass) = alive <$> players (state safe_top_game)
  ∧ count_type EXPLODING_KITTEN (deck (state safe_top_after_pass)) = 0.
Proof.
  assert (playable safe_top_game) as Hplay.
  { split; [unfold wf_game; simpl; split_and!; [done|lia|lia|reflexivity]|].
    intros _. split; [vm_compute; lia|reflexivity]. }
  assert (reachable safe_top_game safe_top_after_pass) as Hreach.
  { eapply (reachable_step safe_top_game safe_top_game
              [Pass; PlayCard ATTACK None None] Pass rng_zero).
    - apply reachable_start.
    - vm_compute; reflexivity.
    - apply elem_of_cons. by left.
    - vm_compute; reflexivity. }
  apply (kittenless_deck_never_ends safe_top_game safe_top_after_pass Hplay eq_refl
           eq_refl Hreach).
Defined.

(** ** simulate.py : a game between agents *)

Lemma sum_list_fmap_with {A} (f : A → nat) (l : list A) :
  sum_list (f <$> l) = sum_list_with f l.
Proof. induction l as [|x l IH]; [done|]. rewrite fmap_cons. simpl. by rewrite <- IH. Qed.

Lemma reachable_num_players g0 g :
  ids_ok (players (state g0)) → reachable g0 g → num_players g = num_players g0.
Proof.
  intros Hids. induction 1 as [|g acts a r g' res r' Hr IH Hl Hin Hex]; [done|].
  destruct (exec_legal_game g acts a r g' res r' (reachable_ids _ _ Hids Hr) Hl Hin Hex)
    as (_ & _ & _ & -> & _). done.
Qed.

Lemma run_single_game_loop_spec fuel : ∀ agents game turn_count max_turns r,
  playable game →
  num_players game = Z.of_nat (length agents) →
  Forall (λ a, agent_class a = DefensiveAgent →
               (0 ≤ player_id a < Z.of_nat (length agents))%Z) agents →
  Z.to_nat (max_turns - turn_count) ≤ fuel →
  ∃ game' turn' r',
    run_single_game_loop fuel agents game turn_count max_turns r = Ok (game', turn', r')
    ∧ reachable game game'
    ∧ (turn_count ≤ turn' ≤ Z.max turn_count max_turns)%Z
    ∧ (is_over game' = false → (max_turns ≤ turn')%Z).
Proof.
  induction fuel as [|fuel IH]; intros agents game turn_count max_turns r Hplay Hnum Hag Hfuel.
  - simpl. destruct (is_over game) eqn:Hov; simpl.
    + exists game, turn_count, r. split_and!; [done|apply reachable_start|lia|lia|congruence].
    + rewrite bool_decide_false by lia.
      exists game, turn_count, r. split_and!; [done|apply reachable_start|lia|lia|lia].
  - cbn [run_single_game_loop].
    destruct (is_over game) eqn:Hov; simpl.
    { exists game, turn_count, r. split_and!; [done|apply reachable_start|lia|lia|congruence]. }
    case_bool_decide as Hlt;
      [|exists game, turn_count, r; split_and!; [done|apply reachable_start|lia|lia|lia]].
    pose proof Hplay as [Hwf _]. pose proof Hwf as (Hn & Hc & Hids).
    destruct (get_nonneg agents (current_player_idx (state game)))
      as (agent & Hagent & -> & _); [lia|].
    destruct (legal_actions_playable game Hwf) as (acts & Hl & Hne).
    rewrite Hl. unfold mbind at 1, outcome_bind at 1. unfold mbind at 1, outcome_bind at 1.
    destruct (choose_action_legal agent game acts r Hne) as (a & r1 & -> & Hin).
    { intros Hd. rewrite <- Hn, Hnum. by apply (Forall_lookup_1 _ _ _ _ Hag Hagent). }
    unfold mbind at 1, outcome_bind at 1.
    destruct (playable_step game acts a r1 Hplay Hov Hl Hin)
      as (g' & res & r2 & Hex & Hplay' & _).
    rewrite Hex. unfold mbind at 1, outcome_bind at 1.
    destruct (exec_legal_game game acts a r1 g' res r2 Hids Hl Hin Hex)
      as (_ & _ & _ & Hnum' & _).
    destruct (IH agents g' (turn_count + 1)%Z max_turns r2 Hplay')
      as (g'' & t'' & r'' & -> & Hreach & Ht & Hend); [congruence|done|lia|].
    exists g'', t'', r''. split_and!; [done| |lia|lia|done].
    eapply reachable_trans; [|exact Hreach].
    eapply reachable_step; [apply reachable_start|exact Hl|exact Hin|exact Hex].
Qed.

(** X21.  [run_single_game] with 2 to 11 agents (each [DefensiveAgent] seated at
    a valid [player_id]) always returns, after at most 1000 turns: no
    exception, no endless loop.  All [47 + 2 * len(agents)] cards are
    accounted for in the result.  Either the game is over, one player is
    left alive and [winner] is that player's id; or the game is not over,
    the turn limit of 1000 was hit and [winner] is [-1]. *)
Theorem run_single_game_returns (agents : list Agent) (r : Rng) :
  2 ≤ length agents ≤ 11 →
  Forall (λ a, agent_class a = DefensiveAgent →
               (0 ≤ player_id a < Z.of_nat (length agents))%Z) agents →
  ∃ res game r',
    run_single_game 1000 agents r = Ok (res, game, r')
    ∧ (0 ≤ num_turns res ≤ 1000)%Z
    ∧ final_deck_size res + sum_list (player_hands res) + length (discard (state game))
      = 47 + 2 * length agents
    ∧ if is_over game
      then ∃ p, alive_players (state game) = [p]
                ∧ result_winner res = id p
                ∧ (0 ≤ id p < Z.of_nat (length agents))%Z
      else result_winner res = (-1)%Z
           ∧ num_turns res = 1000%Z
           ∧ 2 ≤ length (alive_players (state game)).
Proof.
  intros Hlen Hag. unfold run_single_game.
  set (n := Z.of_nat (length agents)).
  destruct (setup_spec n r) as (g0 & r0 & Hinit & Hnum & _ & Hpl & Hhands & _ & _ & Hdk
                                 & Hdc & _ & _ & Hgo & _); [lia|].
  rewrite Hinit. unfold mbind at 1, outcome_bind at 1.
  pose proof (init_playable n r g0 r0 ltac:(lia) Hinit) as Hplay.
  destruct (init_cards n r g0 r0 ltac:(lia) Hinit) as (_ & _ & _ & _ & _ & Hk & _).
  destruct (run_single_game_loop_spec 1000 agents g0 0 1000 r0 Hplay Hnum Hag)
    as (game & turns & r' & -> & Hreach & Ht & Hend); [lia|].
  unfold mbind, outcome_bind.
  eexists _, game, r'. split; [reflexivity|]. cbn [num_turns final_deck_size player_hands
                                                    result_winner].
  pose proof (init_ids _ _ _ _ Hinit) as Hids0.
  destruct (reachable_conserves g0 game Hids0 Hreach) as [Hids Htot].
  split; [lia|]. split.
  - rewrite sum_list_fmap_with. fold (hand_total (players (state game))).
    fold (total_cards game). rewrite Htot. unfold total_cards. rewrite Hdc. simpl.
    assert (hand_total (players (state g0)) = 5 * length (players (state g0))) as ->.
    { unfold hand_total. rewrite <- sum_list_fmap_with.
      rewrite (sum_list_fmap_same 5); [lia|].
      apply Forall_lookup. intros i p Hp. destruct (Hhands i p Hp) as (_ & _ & h & -> & Hh & _).
      rewrite length_app. simpl. lia. }
    subst n. lia.
  - pose proof (reachable_over g0 game Hplay Hgo ltac:(lia) Hreach) as Hover.
    unfold is_over, get_winner in *. destruct (game_over (state game)).
    + destruct Hover as (p & Hal & ->). exists p. split_and!; [done|done| |].
      * assert (p ∈ players (state game)) as Hp.
        { eapply (list_elem_of_filter (λ p, alive p = true)). unfold alive_players in Hal.
          rewrite Hal. by left. }
        apply list_elem_of_lookup in Hp as [i Hi].
        rewrite (ids_ok_lookup _ _ _ Hids Hi). lia.
      * assert (p ∈ players (state game)) as Hp.
        { eapply (list_elem_of_filter (λ p, alive p = true)). unfold alive_players in Hal.
          rewrite Hal. by left. }
        apply list_elem_of_lookup in Hp as [i Hi].
        rewrite (ids_ok_lookup _ _ _ Hids Hi).
        pose proof (lookup_lt_Some _ _ _ Hi) as Hlt.
        destruct (reachable_playable _ _ Hplay Hreach) as [(Hn2 & _) _].
        rewrite (reachable_num_players _ _ Hids0 Hreach), Hnum in Hn2.
        lia.
    + destruct Hover as [H2 ->]. simpl. split_and!; [done| |done].
      specialize (Hend eq_refl). lia.
Qed.

Lemma run_single_game_returns_witness :
  ∃ res game r',
    run_single_game 1000 [mkAgent DefensiveAgent 0; mkAgent AggressiveAgent 1] rng_zero = Ok (res, game, r')
    ∧ (0 ≤ num_turns res ≤ 1000)%Z
    ∧ final_deck_size res + sum_list (player_hands res) + length (discard (state game))
      = 47 + 2 * length [mkAgent DefensiveAgent 0; mkAgent AggressiveAgent 1]
    ∧ if is_over game
      then ∃ p, alive_players (state game) = [p]
                ∧ result_winner res = id p
                ∧ (0 ≤ id p < Z.of_nat (length [mkAgent DefensiveAgent 0; mkAgent AggressiveAgent 1]))%Z
      else result_winner res = (-1)%Z
           ∧ num_turns res = 1000%Z
           ∧ 2 ≤ length (alive_players (state game)).
Proof.
  apply (run_single_game_returns [mkAgent DefensiveAgent 0; mkAgent AggressiveAgent 1] rng_zero).
  - simpl. lia.
  - constructor; [intros _; simpl; lia|]. constructor; [discriminate|]. constructor.
Defined.

(** ** mcts_agent.py : the determinizer keeps the cards *)

Lemma collect_hands_cards observer_id ps : ∀ pool ps1 pool1,
  collect_hands observer_id ps pool = (ps1, pool1) →
  pool1 ++ (ps1 ≫= hand) ≡ₚ pool ++ (ps ≫= hand).
Proof.
  induction ps as [|p ps IH]; intros pool ps1 pool1; cbn [collect_hands].
  - by intros [= <- <-].
  - destruct (is_opponent observer_id p).
    + destruct (collect_hands observer_id ps (pool ++ hand p)) as [ps' pool'] eqn:E.
      intros [= <- <-]. rewrite !bind_cons. simpl.
      rewrite (IH _ _ _ E). by rewrite <- app_assoc.
    + destruct (collect_hands observer_id ps pool) as [ps' pool'] eqn:E.
      intros [= <- <-]. rewrite !bind_cons.
      rewrite !(Permutation_app_swap_app _ (hand p)). by rewrite (IH _ _ _ E).
Qed.

Lemma deal_back_cards k : ∀ h pool h' pool',
  deal_back k h pool = (h', pool') → h' ++ pool' ≡ₚ h ++ pool.
Proof.
  induction k as [|k IH]; intros h pool h' pool'; cbn [deal_back].
  - by intros [= <- <-].
  - destruct (Py.pop pool) as [[c pool0]| |] eqn:E; [|apply IH..].
    apply pop_Ok in E as ->. intros H. rewrite (IH _ _ _ _ H).
    rewrite <- app_assoc. f_equiv. apply Permutation_app_comm.
Qed.

Lemma redistribute_cards orig observer_id ps : ∀ pool ps2 pool2,
  redistribute orig observer_id ps pool = Ok (ps2, pool2) →
  (ps2 ≫= hand) ++ pool2 ≡ₚ (ps ≫= hand) ++ pool.
Proof.
  induction ps as [|p ps IH]; intros pool ps2 pool2; cbn [redistribute].
  - by intros [= <- <-].
  - unfold mbind, outcome_bind. destruct (is_opponent observer_id p).
    + destruct (Py.get orig (id p)) as [o| |]; [|done..].
      destruct (deal_back (length (hand o)) (hand p) pool) as [h pool'] eqn:Ed.
      destruct (redistribute orig observer_id ps pool') as [[ps' pool'']| |] eqn:E; [|done..].
      intros [= <- <-]. rewrite !bind_cons. simpl.
      rewrite <- !app_assoc, (IH _ _ _ E).
      rewrite (Permutation_app_swap_app (hand p)), (Permutation_app_swap_app h).
      f_equiv. by apply deal_back_cards in Ed.
    + destruct (redistribute orig observer_id ps pool) as [[ps' pool'']| |] eqn:E; [|done..].
      intros [= <- <-]. rewrite !bind_cons, <- !app_assoc. f_equiv. by apply IH.
Qed.

Lemma determinize_cards game observer_id r det r' :
  discard_typed game →
  determinize_game game observer_id r = Ok (det, r') →
  all_cards (state det) ≡ₚ all_cards (state game)
  ∧ turns_remaining (state det) = turns_remaining (state game)
  ∧ top_three_known_by (state det) = top_three_known_by (state game).
Proof.
  intros Hd. unfold determinize_game. rewrite (clone_game_typed _ Hd).
  unfold mbind at 1, outcome_bind at 1. cbn zeta.
  destruct (collect_hands observer_id (players (state game)) []) as [ps1 pool1] eqn:Ec.
  apply collect_hands_cards in Ec. simpl in Ec.
  set (keep := bool_decide (top_three_known_by (state game) = Some observer_id)
               && bool_decide (3 ≤ length (deck (state game)))).
  set (pool := if keep then pool1 ++ Py.but_last_n 3 (deck (state game))
               else pool1 ++ deck (state game)).
  destruct (shuffle pool r) as [pool' r1] eqn:Es.
  apply shuffle_eq_Permutation in Es.
  unfold mbind, outcome_bind.
  destruct (redistribute _ _ ps1 pool') as [[ps2 pool2]| |] eqn:Er; [|done..].
  apply redistribute_cards in Er.
  intros [= <- <-]. unfold all_cards. proj_simpl. split; [|done].
  assert (deck (state game)
          = Py.but_last_n 3 (deck (state game)) ++ Py.last_n 3 (deck (state game))) as Hdeck.
  { unfold Py.but_last_n, Py.last_n. by rewrite take_drop. }
  rewrite !app_assoc. f_equiv.
  transitivity ((ps2 ≫= hand) ++ pool2 ++ (if keep then Py.last_n 3 (deck (state game)) else [])).
  { destruct keep; [solve_Permutation|]. rewrite app_nil_r. apply Permutation_app_comm. }
  rewrite app_assoc, Er, Es. subst pool.
  rewrite <- Ec.
  destruct keep.
  - rewrite Hdeck at 3. solve_Permutation.
  - rewrite app_nil_r. solve_Permutation.
Qed.

(** X22.  Determinizing moves cards between the deck and the hands of the alive
    opponents and nothing else: the determinized game holds the same cards
    as the true one, type by type, and the turn counter and the known-top
    fact are kept.  When no hand of the true game holds a kitten, the
    determinized deck holds at most as many kittens as the true deck. *)
Theorem determinize_conserves_cards (game : Game) (observer_id : Z) (r : Rng) :
  ids_ok (players (state game)) → discard_typed game →
  ∃ det r', determinize_game game observer_id r = Ok (det, r')
    ∧ all_cards (state det) ≡ₚ all_cards (state game)
    ∧ discard (state det) = discard (state game)
    ∧ turns_remaining (state det) = turns_remaining (state game)
    ∧ top_three_known_by (state det) = top_three_known_by (state game)
    ∧ (no_kitten_in_hand (players (state game)) →
       count_type EXPLODING_KITTEN (deck (state det))
       ≤ count_type EXPLODING_KITTEN (deck (state game))).
Proof.
  intros Hids Hd.
  destruct (determinize_spec game observer_id r Hids Hd)
    as (det & r' & E & _ & _ & _ & _ & _ & _ & Hdc).
  destruct (determinize_cards game observer_id r det r' Hd E) as (Hall & Ht & Hk).
  exists det, r'. split_and!; [done..|].
  intros Hnk.
  pose proof (count_type_Permutation EXPLODING_KITTEN _ _ Hall) as Hc.
  unfold all_cards in Hc. rewrite !count_type_app, Hdc in Hc.
  assert (count_type EXPLODING_KITTEN (players (state game) ≫= hand) = 0) as H0.
  { rewrite (count_type_hands EXPLODING_KITTEN 0); [lia|].
    eapply Forall_impl; [exact Hnk|]. intros p Hp. by apply has_card_count. }
  lia.
Qed.

Lemma determinize_conserves_cards_witness :
  ∃ det r', determinize_game example_game 0 rng_three = Ok (det, r')
    ∧ all_cards (state det) ≡ₚ all_cards (state example_game)
    ∧ discard (state det) = discard (state example_game)
    ∧ turns_remaining (state det) = turns_remaining (state example_game)
    ∧ top_three_known_by (state det) = top_three_known_by (state example_game)
    ∧ (no_kitten_in_hand (players (state example_game)) →
       count_type EXPLODING_KITTEN (deck (state det))
       ≤ count_type EXPLODING_KITTEN (deck (state example_game))).
Proof.
  apply (determinize_conserves_cards example_game 0 rng_three).
  - reflexivity.
  - constructor.
Defined.

(** ** mcts_agent.py : what a playout returns *)

Lemma random_playout_loop_reach fuel : ∀ g moves max_moves r,
  playable g → Z.to_nat (max_moves - moves) ≤ fuel →
  ∃ g' moves' r', random_playout_loop fuel g moves max_moves r = Ok (g', moves', r')
    ∧ reachable g g'
    ∧ (moves ≤ moves' ≤ Z.max moves max_moves)%Z
    ∧ (is_over g' = false → (max_moves ≤ moves')%Z).
Proof.
  induction fuel as [|fuel IH]; intros g moves max_moves r Hplay Hfuel.
  - simpl. destruct (is_over g) eqn:Hov; simpl.
    + exists g, moves, r. split_and!; [done|apply reachable_start|lia|lia|congruence].
    + rewrite bool_decide_false by lia.
      exists g, moves, r. split_and!; [done|apply reachable_start|lia|lia|lia].
  - cbn [random_playout_loop].
    destruct (is_over g) eqn:Hov; simpl.
    { exists g, moves, r. split_and!; [done|apply reachable_start|lia|lia|congruence]. }
    case_bool_decide as Hlt;
      [|exists g, moves, r; split_and!; [done|apply reachable_start|lia|lia|lia]].
    destruct (legal_actions_playable g (proj1 Hplay)) as (acts & Hl & Hne).
    rewrite Hl. simpl. destruct acts as [|a0 acts0] eqn:Ea; [done|]. rewrite <- Ea in *.
    destruct (choice_Ok acts r Hne) as (a & r1 & -> & Hin). simpl.
    destruct (playable_step g acts a r1 Hplay Hov Hl Hin) as (g' & res & r2 & Hex & Hplay' & _).
    rewrite Hex. simpl.
    destruct (IH g' (moves + 1)%Z max_moves r2 Hplay')
      as (g'' & m'' & r'' & -> & Hreach & ? & ?); [lia|].
    exists g'', m'', r''. split_and!; [done| |lia|lia|done].
    eapply reachable_trans; [|exact Hreach].
    eapply reachable_step; [apply reachable_start|exact Hl|exact Hin|exact Hex].
Qed.

Lemma heuristic_playout_loop_reach fuel : ∀ g moves max_moves r,
  playable g → Z.to_nat (max_moves - moves) ≤ fuel →
  ∃ g' moves' r', heuristic_playout_loop fuel g moves max_moves r = Ok (g', moves', r')
    ∧ reachable g g'
    ∧ (moves ≤ moves' ≤ Z.max moves max_moves)%Z
    ∧ (is_over g' = false → (max_moves ≤ moves')%Z).
Proof.
  induction fuel as [|fuel IH]; intros g moves max_moves r Hplay Hfuel.
  - simpl. destruct (is_over g) eqn:Hov; simpl.
    + exists g, moves, r. split_and!; [done|apply reachable_start|lia|lia|congruence].
    + rewrite bool_decide_false by lia.
      exists g, moves, r. split_and!; [done|apply reachable_start|lia|lia|lia].
  - cbn [heuristic_playout_loop].
    destruct (is_over g) eqn:Hov; simpl.
    { exists g, moves, r. split_and!; [done|apply reachable_start|lia|lia|congruence]. }
    case_bool_decide as Hlt;
      [|exists g, moves, r; split_and!; [done|apply reachable_start|lia|lia|lia]].
    destruct (legal_actions_playable g (proj1 Hplay)) as (acts & Hl & Hne).
    rewrite Hl. simpl. destruct acts as [|a0 acts0] eqn:Ea; [done|]. rewrite <- Ea in *.
    destruct (legal_cases g acts a0 Hl) as (player & Hcur & _);
      [rewrite Ea; apply elem_of_cons; by left|].
    destruct (select_heuristic_action_Ok g acts r player Hcur Hne) as (a & r1 & -> & Hin).
    simpl.
    destruct (playable_step g acts a r1 Hplay Hov Hl Hin) as (g' & res & r2 & Hex & Hplay' & _).
    rewrite Hex. simpl.
    destruct (IH g' (moves + 1)%Z max_moves r2 Hplay')
      as (g'' & m'' & r'' & -> & Hreach & ? & ?); [lia|].
    exists g'', m'', r''. split_and!; [done| |lia|lia|done].
    eapply reachable_trans; [|exact Hreach].
    eapply reachable_step; [apply reachable_start|exact Hl|exact Hin|exact Hex].
Qed.

(** X23.  What a playout returns.  From a playable state that is not over and
    whose deck holds fewer kittens than players are alive, both playout
    functions play legal actions only, and stop either with the game over,
    returning the id of the one player left alive, or after exactly
    [max(0, max_moves)] moves with the game not over, returning [None]. *)
Theorem playout_winner_is_sole_survivor (g : Game) (player_id max_moves : Z) (r : Rng) :
  playable g → is_over g = false →
  count_type EXPLODING_KITTEN (deck (state g)) < length (alive_players (state g)) →
  (∃ w g' moves r',
      (∀ fuel, Z.to_nat max_moves ≤ fuel →
         simulate_random_playout fuel g max_moves r = Ok (w, g', moves, r'))
      ∧ reachable g g'
      ∧ if is_over g'
        then ∃ p, alive_players (state g') = [p] ∧ w = Some (id p)
        else w = None ∧ moves = Z.max 0 max_moves)
  ∧ (∃ w g' moves r',
      (∀ fuel, Z.to_nat max_moves ≤ fuel →
         simulate_with_heuristics fuel g player_id max_moves r = Ok (w, g', moves, r'))
      ∧ reachable g g'
      ∧ if is_over g'
        then ∃ p, alive_players (state g') = [p] ∧ w = Some (id p)
        else w = None ∧ moves = Z.max 0 max_moves).
Proof.
  intros Hplay Hgo Hk. split.
  - destruct (random_playout_loop_reach (Z.to_nat max_moves) g 0 max_moves r Hplay)
      as (g' & moves & r' & E & Hreach & Hm & Hend); [by rewrite Z.sub_0_r|].
    exists (get_winner g'), g', moves, r'. split_and!; [|done|].
    + intros fuel Hfuel. unfold simulate_random_playout.
      by rewrite (random_playout_loop_fuel _ fuel _ _ _ _ _ Hfuel E).
    + pose proof (reachable_over g g' Hplay Hgo ltac:(lia) Hreach) as Hover.
      unfold is_over, get_winner in *. destruct (game_over (state g')).
      * done.
      * destruct Hover as [_ ->]. split; [done|]. specialize (Hend eq_refl). lia.
  - destruct (heuristic_playout_loop_reach (Z.to_nat max_moves) g 0 max_moves r Hplay)
      as (g' & moves & r' & E & Hreach & Hm & Hend); [by rewrite Z.sub_0_r|].
    exists (get_winner g'), g', moves, r'. split_and!; [|done|].
    + intros fuel Hfuel. unfold simulate_with_heuristics.
      by rewrite (heuristic_playout_loop_fuel _ fuel _ _ _ _ _ Hfuel E).
    + pose proof (reachable_over g g' Hplay Hgo ltac:(lia) Hreach) as Hover.
      unfold is_over, get_winner in *. destruct (game_over (state g')).
      * done.
      * destruct Hover as [_ ->]. split; [done|]. specialize (Hend eq_refl). lia.
Qed.

Lemma playout_winner_is_sole_survivor_witness :
  playable example_game
  ∧ ∃ w g' moves r',
      (∀ fuel, Z.to_nat 3 ≤ fuel →
         simulate_random_playout fuel example_game 3 rng_three = Ok (w, g', moves, r'))
      ∧ reachable example_game g'
      ∧ if is_over g'
        then ∃ p, alive_players (state g') = [p] ∧ w = Some (id p)
        else w = None ∧ moves = Z.max 0 3.
Proof.
  split; [apply example_game_playable|].
  apply (playout_winner_is_sole_survivor example_game 0 3 rng_three).
  - apply example_game_playable.
  - reflexivity.
  - vm_compute. lia.
Defined.

(** ** Favor and cat pairs *)

Lemma steal_from_exact s me tid r t target player :
  Py.locate (players s) tid = Ok t →
  players s !! t = Some target →
  players s !! me = Some player →
  t ≠ me → hand target ≠ [] →
  ∃ stolen rest r',
    steal_from s me tid r
    = Ok (with_players
            (<[me:=set_hand (hand player ++ [stolen]) player]>
               (<[t:=set_hand rest target]> (players s))) s,
          Some stolen, r')
    ∧ hand target ≡ₚ stolen :: rest.
Proof.
  intros Hloc Ht Hme Hne Hh. unfold steal_from. rewrite Hloc.
  assert (Py.get (players s) tid = Ok target) as ->.
  { apply get_Ok. exists t. split; [by apply locate_Ok|done]. }
  unfold mbind, outcome_bind. destruct (hand target) as [|c0 h0] eqn:Eh; [done|].
  cbn iota. rewrite <- Eh. clear Hh.
  assert (0 < length (hand target)) as Hlen by (rewrite Eh; simpl; lia).
  destruct (randint_Ok 0 (Z.of_nat (length (hand target)) - 1) r) as (k & r' & -> & Hk);
    [lia|].
  destruct (pop_at_total (hand target) k) as (stolen & rest & Ep); [lia|].
  rewrite Ep. apply pop_at_Ok in Ep as [Hperm _].
  exists stolen, rest, r'. split; [|done].
  rewrite (alter_as_insert _ _ me player); [done|].
  by rewrite list_lookup_insert_ne.
Qed.

(** X24.  Favor, played on a player other than oneself who holds a card: the
    Favor card goes to the discard pile, one card of the target's hand
    (picked by [random.randint], not by the target) moves to the end of the
    player's hand, the deck is untouched, and the turn goes on: the same
    player is to move with the same number of turns. *)
Theorem favor_takes_one_card (g : Game) (r : Rng) (player other : Player)
    (steal : option CardType) :
  wf_game g →
  current_player (state g) = Ok player →
  has_card player FAVOR = true →
  other ∈ players (state g) →
  id other ≠ current_player_idx (state g) →
  hand other ≠ [] →
  ∃ g' res r' favor rest_p stolen rest_o,
    execute_action g (PlayCard FAVOR (Some (id other)) steal) r = Ok (g', res, r')
    ∧ ("stolen", VType (card_type stolen)) ∈ res
    ∧ card_type favor = FAVOR
    ∧ hand player ≡ₚ favor :: rest_p
    ∧ hand other ≡ₚ stolen :: rest_o
    ∧ players (state g')
      = <[Z.to_nat (current_player_idx (state g)):=set_hand (rest_p ++ [stolen]) player]>
          (<[Z.to_nat (id other):=set_hand rest_o other]> (players (state g)))
    ∧ discard (state g') = discard (state g) ++ [Some favor]
    ∧ deck (state g') = deck (state g)
    ∧ current_player_idx (state g') = current_player_idx (state g)
    ∧ turns_remaining (state g') = turns_remaining (state g).
Proof.
  intros Hwf Hcur Hhas Hin Hid Hh. pose proof Hwf as (Hn & Hc & Hids).
  destruct (locate_current g player Hcur) as (me & Hloc & Hme).
  pose proof (wf_locate _ _ Hwf Hloc) as Hmeq. rewrite <- Hmeq.
  apply list_elem_of_lookup in Hin as [t Ht].
  pose proof (ids_ok_lookup _ _ _ Hids Ht) as Hidt.
  assert (t ≠ me) as Hne by (intros ->; apply Hid; rewrite Hidt, Hmeq; lia).
  replace (Z.to_nat (id other)) with t by (rewrite Hidt; lia).
  unfold execute_action. rewrite Hloc, Hcur. unfold mbind at 1 2, outcome_bind at 1 2.
  destruct (remove_card_has _ _ Hhas) as (favor & rest_p & -> & Hf & Hp).
  set (s1 := with_discard (discard (state g) ++ [Some favor])
               (with_players (<[me:=set_hand rest_p player]> (players (state g))) (state g))).
  assert (Py.locate (players s1) (id other) = Ok t) as Hloct.
  { subst s1. proj_simpl. apply locate_Ok. rewrite length_insert, Hidt.
    apply norm_index_of_nat. by eapply lookup_lt_Some. }
  destruct (steal_from_exact s1 me (id other) r t other (set_hand rest_p player) Hloct)
    as (stolen & rest_o & r' & -> & Ho); [| |done|done|].
  { subst s1. proj_simpl. by rewrite list_lookup_insert_ne. }
  { subst s1. proj_simpl. apply list_lookup_insert_eq. by eapply lookup_lt_Some. }
  unfold mbind, outcome_bind.
  eexists _, _, r', favor, rest_p, stolen, rest_o. split; [reflexivity|].
  match goal with |- context [_check_game_over ?g2] =>
    destruct (check_game_over_board g2) as (_ & _ & -> & -> & -> & -> & -> & _) end.
  subst s1. proj_simpl. split_and!; try done.
  - do 5 (apply elem_of_cons; right). apply elem_of_cons. by left.
  - rewrite (list_insert_insert_ne _ t me) by done. by rewrite list_insert_insert_eq.
Qed.

Lemma favor_game_wf : wf_game favor_game.
Proof. unfold wf_game. simpl. split_and!; [done|lia|lia|reflexivity]. Qed.

Lemma favor_takes_one_card_witness :
  ∃ g' res r' favor rest_p stolen rest_o,
    execute_action favor_game (PlayCard FAVOR (Some 2%Z) None) rng_zero = Ok (g', res, r')
    ∧ ("stolen", VType (card_type stolen)) ∈ res
    ∧ card_type favor = FAVOR
    ∧ [mkCard DEFUSE; mkCard FAVOR] ≡ₚ favor :: rest_p
    ∧ [mkCard DEFUSE] ≡ₚ stolen :: rest_o
    ∧ players (state g')
      = <[0:=set_hand (rest_p ++ [stolen]) (mkPlayer 0 [mkCard DEFUSE; mkCard FAVOR] true)]>
          (<[2:=set_hand rest_o (mkPlayer 2 [mkCard DEFUSE] true)]>
             (players (state favor_game)))
    ∧ discard (state g') = discard (state favor_game) ++ [Some favor]
    ∧ deck (state g') = deck (state favor_game)
    ∧ current_player_idx (state g') = current_player_idx (state favor_game)
    ∧ turns_remaining (state g') = turns_remaining (state favor_game).
Proof.
  apply (favor_takes_one_card favor_game rng_zero
           (mkPlayer 0 [mkCard DEFUSE; mkCard FAVOR] true)
           (mkPlayer 2 [mkCard DEFUSE] true) None).
  - apply favor_game_wf.
  - reflexivity.
  - reflexivity.
  - simpl. do 2 (apply elem_of_cons; right). apply elem_of_cons. by left.
  - simpl. lia.
  - discriminate.
Defined.

(** X25.  A pair of cards of one type held at least twice, played on a player
    other than oneself who holds a card: two cards of the type leave the
    hand and two go to the discard pile, one random card of the target's
    hand moves to the end of the player's hand, the deck is untouched, and
    the turn goes on. *)
Theorem cat_pair_takes_one_card (g : Game) (r : Rng) (player other : Player)
    (cat_type : CardType) :
  wf_game g →
  current_player (state g) = Ok player →
  2 ≤ count_card player cat_type →
  other ∈ players (state g) →
  id other ≠ current_player_idx (state g) →
  hand other ≠ [] →
  ∃ g' res r' rest_p stolen rest_o,
    execute_action g (PlayCatPair cat_type (id other)) r = Ok (g', res, r')
    ∧ ("stolen", VType (card_type stolen)) ∈ res
    ∧ hand player ≡ₚ mkCard cat_type :: mkCard cat_type :: rest_p
    ∧ hand other ≡ₚ stolen :: rest_o
    ∧ players (state g')
      = <[Z.to_nat (current_player_idx (state g)):=set_hand (rest_p ++ [stolen]) player]>
          (<[Z.to_nat (id other):=set_hand rest_o other]> (players (state g)))
    ∧ discard (state g')
      = discard (state g) ++ [Some (mkCard cat_type); Some (mkCard cat_type)]
    ∧ deck (state g') = deck (state g)
    ∧ current_player_idx (state g') = current_player_idx (state g)
    ∧ turns_remaining (state g') = turns_remaining (state g).
Proof.
  intros Hwf Hcur Hhas Hin Hid Hh. pose proof Hwf as (Hn & Hc & Hids).
  destruct (locate_current g player Hcur) as (me & Hloc & Hme).
  pose proof (wf_locate _ _ Hwf Hloc) as Hmeq. rewrite <- Hmeq.
  apply list_elem_of_lookup in Hin as [t Ht].
  pose proof (ids_ok_lookup _ _ _ Hids Ht) as Hidt.
  assert (t ≠ me) as Hne by (intros ->; apply Hid; rewrite Hidt, Hmeq; lia).
  replace (Z.to_nat (id other)) with t by (rewrite Hidt; lia).
  unfold execute_action. rewrite Hloc, Hcur. unfold mbind at 1 2, outcome_bind at 1 2.
  destruct (remove_pair_cards player cat_type Hhas) as (c1 & c2 & rest_p & _ & E2 & Hp).
  destruct (remove_card player cat_type) as [o1 p1]. simpl in E2. rewrite E2.
  set (s1 := with_discard
               (discard (state g) ++ [Some (mkCard cat_type); Some (mkCard cat_type)])
               (with_players (<[me:=set_hand rest_p player]> (players (state g))) (state g))).
  assert (Py.locate (players s1) (id other) = Ok t) as Hloct.
  { subst s1. proj_simpl. apply locate_Ok. rewrite length_insert, Hidt.
    apply norm_index_of_nat. by eapply lookup_lt_Some. }
  destruct (steal_from_exact s1 me (id other) r t other (set_hand rest_p player) Hloct)
    as (stolen & rest_o & r' & -> & Ho); [| |done|done|].
  { subst s1. proj_simpl. by rewrite list_lookup_insert_ne. }
  { subst s1. proj_simpl. apply list_lookup_insert_eq. by eapply lookup_lt_Some. }
  unfold mbind, outcome_bind.
  eexists _, _, r', rest_p, stolen, rest_o. split; [reflexivity|].
  match goal with |- context [_check_game_over ?g2] =>
    destruct (check_game_over_board g2) as (_ & _ & -> & -> & -> & -> & -> & _) end.
  subst s1. proj_simpl. split_and!; try done.
  - do 3 (apply elem_of_cons; right). apply elem_of_cons. by left.
  - rewrite (list_insert_insert_ne _ t me) by done. by rewrite list_insert_insert_eq.
Qed.

Lemma three_player_game_wf : wf_game three_player_game.
Proof. unfold wf_game. simpl. split_and!; [done|lia|lia|reflexivity]. Qed.

Lemma cat_pair_takes_one_card_witness :
  ∃ g' res r' rest_p stolen rest_o,
    execute_action three_player_game (PlayCatPair CAT_TACOCAT 0) rng_zero = Ok (g', res, r')
    ∧ ("stolen", VType (card_type stolen)) ∈ res
    ∧ [mkCard SKIP; mkCard CAT_TACOCAT; mkCard CAT_TACOCAT]
      ≡ₚ mkCard CAT_TACOCAT :: mkCard CAT_TACOCAT :: rest_p
    ∧ [mkCard DEFUSE; mkCard FAVOR] ≡ₚ stolen :: rest_o
    ∧ players (state g')
      = <[1:=set_hand (rest_p ++ [stolen])
               (mkPlayer 1 [mkCard SKIP; mkCard CAT_TACOCAT; mkCard CAT_TACOCAT] true)]>
          (<[0:=set_hand rest_o (mkPlayer 0 [mkCard DEFUSE; mkCard FAVOR] true)]>
             (players (state three_player_game)))
    ∧ discard (state g')
      = discard (state three_player_game)
        ++ [Some (mkCard CAT_TACOCAT); Some (mkCard CAT_TACOCAT)]
    ∧ deck (state g') = deck (state three_player_game)
    ∧ current_player_idx (state g') = current_player_idx (state three_player_game)
    ∧ turns_remaining (state g') = turns_remaining (state three_player_game).
Proof.
  apply (cat_pair_takes_one_card three_player_game rng_zero
           (mkPlayer 1 [mkCard SKIP; mkCard CAT_TACOCAT; mkCard CAT_TACOCAT] true)
           (mkPlayer 0 [mkCard DEFUSE; mkCard FAVOR] true) CAT_TACOCAT).
  - apply three_player_game_wf.
  - reflexivity.
  - vm_compute. lia.
  - simpl. apply elem_of_cons. by left.
  - simpl. lia.
  - discriminate.
Defined.

(** ** Setup: how many players the deck can serve *)

Lemma deal_hand_short k : ∀ h dk, length dk < k → deal_hand k h dk = Raise IndexError.
Proof.
  induction k as [|k IH]; intros h dk Hk; [lia|].
  cbn [deal_hand]. destruct (decide (dk = [])) as [->|Hne]; [done|].
  apply (proj2 (last_is_Some dk)) in Hne as [c Hc].
  apply last_Some in Hc as [dk0 ->].
  rewrite length_app in Hk. simpl in Hk.
  rewrite pop_snoc. simpl. apply IH. lia.
Qed.

Lemma deal_short ps : ∀ dk, length dk < 4 * length ps → deal ps dk = Raise IndexError.
Proof.
  induction ps as [|p ps IH]; intros dk Hlen; [simpl in Hlen; lia|].
  cbn [deal]. simpl in Hlen.
  destruct (decide (length dk < 4)) as [Hs|Hs].
  { by rewrite deal_hand_short. }
  destruct (deal_hand_Ok 4 (hand p) dk) as (cs & dk1 & -> & Hcs & Hp); [lia|].
  simpl. rewrite IH; [done|].
  assert (length dk = 4 + length dk1) by (by rewrite Hp, length_app, Hcs). lia.
Qed.

(** X26.  The only limit of setup is the size of the base deck: with 46 cards to
    deal four to each player, [__init__] succeeds for up to 11 players and
    raises [IndexError] (from [deck.pop()]) for 12 or more.  When it
    succeeds, [47 - 3 * num_players] cards are in the deck (for at least one
    player), two of them defuses, the discard pile is empty, and player 0 is
    to move with one turn, no game over and no known top. *)
Theorem setup_player_limit (n : Z) (r : Rng) :
  ((12 ≤ n)%Z → __init__ n r = Raise IndexError)
  ∧ ((n ≤ 11)%Z →
     ∃ g r', __init__ n r = Ok (g, r')
       ∧ num_players g = n
       ∧ ((1 ≤ n)%Z → Z.of_nat (length (deck (state g))) = (47 - 3 * n)%Z)
       ∧ count_type DEFUSE (deck (state g)) = DEFUSE_IN_DECK
       ∧ discard (state g) = []
       ∧ action_history g = []
       ∧ current_player_idx (state g) = 0%Z
       ∧ turns_remaining (state g) = 1%Z
       ∧ is_over g = false ∧ get_winner g = None
       ∧ top_three_known_by (state g) = None).
Proof.
  split.
  - intros Hn. unfold __init__, _setup_game.
    destruct (shuffle base_deck r) as [deck1 r1] eqn:Es.
    apply shuffle_eq_Permutation in Es.
    rewrite deal_short; [done|].
    rewrite Es, length_base_deck, length_fmap, length_seq. lia.
  - intros Hn.
    destruct (setup_spec n r Hn) as (g & r' & E & Hnum & Hh & _ & _ & _ & Hd & Hlen & Hdc
                                      & Hc & Ht & Hgo & Hw & Hk).
    exists g, r'. unfold is_over, get_winner.
    repeat (split; [first [assumption|intros; lia]|]). assumption.
Qed.

(** ** mcts_agent.py : the playout heuristic *)

Lemma peek_top_three s below c3 c2 c1 :
  deck s = below ++ [c3; c2; c1] → peek_top s 3 = [c3; c2; c1].
Proof.
  intros E. unfold peek_top. rewrite E, bool_decide_true by (rewrite length_app; simpl; lia).
  by apply last_n_app.
Qed.

(** X27.  The kitten-on-top test of the playout heuristic reads
    [peek_top(3)[:1]], which on a deck of three or more cards is the card
    third from the top and not the card drawn next.  So the heuristic's
    answer does not depend on the two topmost cards of the deck; and a
    player who knows the top three and holds Shuffle, Skip or Attack plays
    one of them whenever the third card from the top is a kitten. *)
Theorem heuristic_reads_third_card (g : Game) (acts : list Action) (r : Rng)
    (below : list Card) (c3 c2 c1 : Card) :
  deck (state g) = below ++ [c3; c2; c1] →
  (∀ c2' c1',
     select_heuristic_action
       (with_state (with_deck (below ++ [c3; c2'; c1']) (state g)) g) acts r
     = select_heuristic_action g acts r)
  ∧ (∀ player a,
       current_player (state g) = Ok player →
       top_three_known_by (state g) = Some (id player) →
       card_type c3 = EXPLODING_KITTEN →
       a ∈ acts → is_play_of [SHUFFLE; SKIP; ATTACK] a = true →
       ∃ b, select_heuristic_action g acts r = Ok (b, r) ∧ b ∈ acts
            ∧ is_play_of [SHUFFLE; SKIP; ATTACK] b = true).
Proof.
  intros Hdeck. split.
  - intros c2' c1'. unfold select_heuristic_action. proj_simpl.
    unfold current_player. proj_simpl.
    rewrite (peek_top_three (state g) below c3 c2 c1 Hdeck).
    rewrite (peek_top_three (with_deck (below ++ [c3; c2'; c1']) (state g)) below c3 c2' c1')
      by done.
    rewrite Hdeck, !length_app. reflexivity.
  - intros player a Hcur Hknow Hk Hin Ha.
    unfold select_heuristic_action. rewrite Hcur. unfold mbind, outcome_bind. cbn zeta.
    rewrite (peek_top_three (state g) below c3 c2 c1 Hdeck).
    rewrite Hknow, (bool_decide_true (Some (id player) = Some (id player))) by done.
    assert (existsb (is_type EXPLODING_KITTEN) (take 1 [c3; c2; c1]) = true) as ->.
    { simpl. unfold is_type. by rewrite bool_decide_true. }
    cbn [andb].
    match goal with |- context [match ?e with Some _ => _ | None => _ end] =>
      destruct e as [b|] eqn:E1 end.
    + exists b. split; [done|].
      destruct (_ && _); [|done].
      split; [by eapply find_elem_of|].
      apply find_some in E1 as [_ E1].
      destruct b as [ct ? ?| | | |]; try done. cbn [is_play_of] in *.
      apply bool_decide_eq_true in E1. apply bool_decide_eq_true.
      repeat (apply elem_of_cons in E1 as [->|E1]); [..|by apply elem_of_nil in E1].
      * apply elem_of_cons. right. apply elem_of_cons. by left.
      * do 2 (apply elem_of_cons; right). apply elem_of_cons. by left.
    + destruct (find_is_Some (is_play_of [SHUFFLE; SKIP; ATTACK]) acts a Hin Ha) as [b Hb].
      rewrite Hb. exists b. split; [done|]. split; [by eapply find_elem_of|].
      by apply find_some in Hb as [_ ?].
Qed.

Lemma heuristic_reads_third_card_witness :
  (∀ c2' c1',
     select_heuristic_action
       (with_state (with_deck ([mkCard NOPE] ++ [mkCard EXPLODING_KITTEN; c2'; c1'])
                      (state third_kitten_game)) third_kitten_game)
       [Pass; PlayCard ATTACK None None] rng_three
     = select_heuristic_action third_kitten_game [Pass; PlayCard ATTACK None None] rng_three)
  ∧ ∃ b, select_heuristic_action third_kitten_game [Pass; PlayCard ATTACK None None] rng_three
         = Ok (b, rng_three)
         ∧ b ∈ [Pass; PlayCard ATTACK None None]
         ∧ is_play_of [SHUFFLE; SKIP; ATTACK] b = true.
Proof.
  destruct (heuristic_reads_third_card third_kitten_game [Pass; PlayCard ATTACK None None]
              rng_three [mkCard NOPE] (mkCard EXPLODING_KITTEN) (mkCard CAT_TACOCAT)
              (mkCard SHUFFLE) eq_refl) as [Hsame Hdodge].
  split; [exact Hsame|].
  apply (Hdodge (mkPlayer 0 [mkCard ATTACK; mkCard DEFUSE] true) (PlayCard ATTACK None None)).
  - reflexivity.
  - reflexivity.
  - reflexivity.
  - apply elem_of_cons. right. apply elem_of_cons. by left.
  - reflexivity.
Defined.

(** ** agents.py : the card given to a Favor *)

(** X28.  [choose_card_to_give] names the type of a card the agent's player
    holds; on an empty hand [random.choice] raises [IndexError]. *)
Theorem choose_card_to_give_spec (self : Agent) (game : Game) (r : Rng) (p : Player) :
  Py.get (players (state game)) (player_id self) = Ok p →
  (hand p = [] → choose_card_to_give self game r = Raise IndexError)
  ∧ (hand p ≠ [] →
     ∃ ct r', choose_card_to_give self game r = Ok (ct, r') ∧ has_card p ct = true).
Proof.
  intros Hp. unfold choose_card_to_give. rewrite Hp. unfold mbind, outcome_bind.
  split.
  - intros ->. done.
  - intros Hne. destruct (choice_Ok (hand p) r Hne) as (c & r' & -> & Hin).
    exists (card_type c), r'. split; [done|].
    unfold has_card. apply existsb_exists. exists c. split; [by apply list_elem_of_In|].
    unfold is_type. by apply bool_decide_eq_true.
Qed.

Lemma choose_card_to_give_spec_witness :
  (hand (mkPlayer 1 [mkCard ATTACK; mkCard SKIP] true) = [] →
   choose_card_to_give (mkAgent RandomAgent 1) example_game rng_zero = Raise IndexError)
  ∧ (hand (mkPlayer 1 [mkCard ATTACK; mkCard SKIP] true) ≠ [] →
     ∃ ct r', choose_card_to_give (mkAgent RandomAgent 1) example_game rng_zero = Ok (ct, r')
              ∧ has_card (mkPlayer 1 [mkCard ATTACK; mkCard SKIP] true) ct = true).
Proof.
  apply (choose_card_to_give_spec (mkAgent RandomAgent 1) example_game rng_zero).
  reflexivity.
Defined.

(** ** game.py : taking a card out of a hand *)

Lemma take_first_first ct before c after :
  card_type c = ct → Forall (λ x, card_type x ≠ ct) before →
  take_first ct (before ++ c :: after) = Some (c, before ++ after).
Proof.
  intros Hc. induction 1 as [|x before Hx _ IH]; simpl.
  - unfold is_type. by rewrite bool_decide_true.
  - unfold is_type at 1. rewrite bool_decide_false by done. by rewrite IH.
Qed.

(** X29.  [remove_card] takes out the first card of the type, leaving the other
    cards in their order, and returns it; when the hand holds no card of the
    type it returns [None] and leaves the hand as it is. *)
Theorem remove_card_first (p : Player) (ct : CardType) :
  (has_card p ct = false → remove_card p ct = (None, p))
  ∧ (∀ before c after,
       hand p = before ++ c :: after → card_type c = ct →
       Forall (λ x, card_type x ≠ ct) before →
       remove_card p ct = (Some c, set_hand (before ++ after) p)
       ∧ count_card (remove_card p ct).2 ct + 1 = count_card p ct).
Proof.
  split.
  - intros Hno. unfold remove_card.
    destruct (take_first ct (hand p)) as [[c h]|] eqn:E; [|done].
    apply take_first_Some in E as [Hc Hp].
    assert (0 < count_type ct (hand p)) as H0.
    { rewrite (count_type_Permutation _ _ _ Hp), count_type_cons, decide_True by done. lia. }
    apply existsb_count in H0. unfold has_card in Hno. congruence.
  - intros before c after Hh Hc Hb. unfold remove_card.
    rewrite Hh, (take_first_first ct before c after Hc Hb). split; [done|].
    unfold count_card. simpl. rewrite Hh, !filter_app, filter_cons, decide_True by done.
    rewrite !length_app. simpl. lia.
Qed.

(** ** cards.py : the kinds of cards *)

(** X30.  Every card is a cat card, an action card, or one of the two special
    cards, and only one of these: [is_cat] and [is_action] never hold
    together, and both fail exactly for exploding kittens and defuses.  The
    46 cards of the base deck are all cat or action cards. *)
Theorem card_kinds (c : Card) :
  is_cat c && is_action c = false
  ∧ (is_cat c || is_action c = false
     ↔ card_type c = EXPLODING_KITTEN ∨ card_type c = DEFUSE)
  ∧ (c ∈ base_deck → is_cat c || is_action c = true).
Proof.
  assert (is_cat c || is_action c = false
          ↔ card_type c = EXPLODING_KITTEN ∨ card_type c = DEFUSE) as Hspecial.
  { destruct c as [[]]; vm_compute; split; intros H; try discriminate H; auto;
      destruct H as [H|H]; discriminate H. }
  split; [by destruct c as [[]]|]. split; [exact Hspecial|].
  intros Hin. pose proof base_deck_ordinary as Hord.
  rewrite Forall_forall in Hord. destruct (Hord c Hin) as [Hk Hd].
  destruct (is_cat c || is_action c) eqn:E; [done|].
  destruct (proj1 Hspecial eq_refl) as [?|?]; done.
Qed.
